(** * Bloch simulation and its reverse-time derivative (sigpy/mri/rf/optcont.py)

    A shallow embedding of [blochsim] and [deriv] over the real numbers:
    every floating-point value of the Python code is read as the real number
    it stands for, a complex number is a pair of reals, a one-dimensional
    numpy array is a list and a two-dimensional one a list of rows together
    with its number of columns.  Index and shape errors of numpy are results
    of an error type. *)

From Stdlib Require Import Reals Lra Lia List Arith Bool.
Import ListNotations.

Local Open Scope R_scope.

(** ** Complex numbers *)

Record C : Type := mkC { Re : R; Im : R }.

Declare Scope C_scope.
Delimit Scope C_scope with C.
Bind Scope C_scope with C.

Definition RtoC (x : R) : C := mkC x 0.
Definition C0 : C := RtoC 0.
Definition C1 : C := RtoC 1.
(** Python's [1j]. *)
Definition Ci : C := mkC 0 1.

Definition Cadd (z w : C) : C := mkC (Re z + Re w) (Im z + Im w).
Definition Cneg (z : C) : C := mkC (- Re z) (- Im z).
Definition Csub (z w : C) : C := mkC (Re z - Re w) (Im z - Im w).
Definition Cmul (z w : C) : C :=
  mkC (Re z * Re w - Im z * Im w) (Re z * Im w + Im z * Re w).
Definition Cconj (z : C) : C := mkC (Re z) (- Im z).
(** Squared modulus, [|z|^2]. *)
Definition Cnorm2 (z : C) : R := Re z * Re z + Im z * Im z.
Definition Cdiv (z w : C) : C :=
  mkC ((Re z * Re w + Im z * Im w) / Cnorm2 w)
      ((Im z * Re w - Re z * Im w) / Cnorm2 w).

Notation "z + w" := (Cadd z w) : C_scope.
Notation "z - w" := (Csub z w) : C_scope.
Notation "z * w" := (Cmul z w) : C_scope.
Notation "z / w" := (Cdiv z w) : C_scope.
Notation "- z" := (Cneg z) : C_scope.

(** [numpy.abs] on a complex number. *)
Definition Cabs (z : C) : R := sqrt (Cnorm2 z).

(** [numpy.arctan2 y x] (signed zeros apart, which the reals do not have). *)
Definition atan2 (y x : R) : R :=
  if Rlt_dec 0 x then atan (y / x)
  else if Rlt_dec x 0 then
         (if Rle_dec 0 y then atan (y / x) + PI else atan (y / x) - PI)
  else if Rlt_dec 0 y then PI / 2
  else if Rlt_dec y 0 then - (PI / 2)
  else 0.

(** [numpy.angle]. *)
Definition Cangle (z : C) : R := atan2 (Im z) (Re z).

(** [numpy.exp] on a complex number. *)
Definition Cexp (z : C) : C :=
  mkC (exp (Re z) * cos (Im z)) (exp (Re z) * sin (Im z)).


(** Sums of arrays, [numpy.sum]. *)
Fixpoint Csum (l : list C) : C :=
  match l with
  | [] => C0
  | z :: l' => (z + Csum l')%C
  end.

Fixpoint Rsum (l : list R) : R :=
  match l with
  | [] => 0
  | r :: l' => r + Rsum l'
  end.

(** ** Errors *)

(** The two exceptions numpy can raise in this code: an index out of range
    and operands whose shapes do not fit. *)
Inductive error : Type := IndexError | ValueError.

Inductive res (A : Type) : Type :=
| Ok (a : A)
| Err (e : error).
Arguments Ok {A} a.
Arguments Err {A} e.

Definition bind {A B : Type} (m : res A) (f : A -> res B) : res B :=
  match m with
  | Ok a => f a
  | Err e => Err e
  end.

Notation "x <- m ;; k" := (bind m (fun x => k))
  (at level 61, m at next level, right associativity).
Notation "' p <- m ;; k" := (bind m (fun x => match x with p => k end))
  (at level 61, p pattern, m at next level, right associativity).

(** ** Arrays *)

(** A one-dimensional complex array. *)
Definition cvec : Type := list C.

(** [l[i]] for a non-negative index. *)
Definition index {A : Type} (l : list A) (i : nat) : res A :=
  match nth_error l i with
  | Some a => Ok a
  | None => Err IndexError
  end.

(** [l[i] = v] for an index in range. *)
Fixpoint upd {A : Type} (i : nat) (v : A) (l : list A) : list A :=
  match l, i with
  | [], _ => []
  | _ :: l', O => v :: l'
  | a :: l', S i' => a :: upd i' v l'
  end.

Definition map2 {A B D : Type} (f : A -> B -> D) (u : list A) (v : list B) : list D :=
  map (fun p => f (fst p) (snd p)) (combine u v).

(** An elementwise operation on two one-dimensional arrays under numpy's
    broadcasting: equal lengths go elementwise, an array of length one is
    stretched, anything else is a [ValueError]. *)
Definition bzip (f : C -> C -> C) (u v : cvec) : res cvec :=
  if Nat.eqb (length u) (length v) then Ok (map2 f u v)
  else match u, v with
       | [a], _ => Ok (map (f a) v)
       | _, [b] => Ok (map (fun a => f a b) u)
       | _, _ => Err ValueError
       end.

(** array * complex scalar, and array * real scalar *)
Definition scalc (u : cvec) (s : C) : cvec := map (fun a => (a * s)%C) u.
Definition scal (u : cvec) (c : R) : cvec := scalc u (RtoC c).

(** A two-dimensional real array: its rows and the length of each. *)
Record matrix : Type := mkMat { ncols : nat; mrows : list (list R) }.

Definition wf_matrix (m : matrix) : Prop :=
  Forall (fun r => length r = ncols m) (mrows m).

(** Positions and gradient waveform: both one-dimensional ([x] of length N,
    [g] of length Nt) or both two-dimensional ([x] is N x Ndim, [g] is
    Nt x Ndim).  [g.ndim > 1] tells the two apart. *)
Inductive geometry : Type :=
| Geo1 (x : list R) (g : list R)
| GeoN (x : matrix) (g : matrix).

(** [xp.shape(x)[0]] *)
Definition nspins (geo : geometry) : nat :=
  match geo with
  | Geo1 x _ => length x
  | GeoN x _ => length (mrows x)
  end.

(** [len(g)] *)
Definition nsteps (geo : geometry) : nat :=
  match geo with
  | Geo1 _ g => length g
  | GeoN _ g => length (mrows g)
  end.

(** Dot product of a complex row with a real vector. *)
Fixpoint cdot (r : list C) (v : list R) : C :=
  match r, v with
  | a :: r', b :: v' => (a * RtoC b + cdot r' v')%C
  | _, _ => C0
  end.

(** [m @ v] for a complex matrix with [nc] columns and a real vector. *)
Definition cmatvec (nc : nat) (rows : list (list C)) (v : list R) : res cvec :=
  if Nat.eqb nc (length v) then Ok (map (fun r => cdot r v) rows)
  else Err ValueError.

(** [k * x] for a complex scalar and a real matrix. *)
Definition cscale_rows (k : C) (x : matrix) : list (list C) :=
  map (map (fun xi => (k * RtoC xi)%C)) (mrows x).

Fixpoint vadd (u v : list R) : list R :=
  match u, v with
  | a :: u', b :: v' => (a + b) :: vadd u' v'
  | _, _ => []
  end.

(** [xp.sum(g, 0)]: the sum of the rows. *)
Definition colsum (g : matrix) : list R :=
  fold_right vadd (repeat 0 (ncols g)) (mrows g).

(** [xp.exp(k * x * g[mm])] when [g] is one-dimensional and
    [xp.exp(k * x @ g[mm, :])] otherwise; [k] is [-1j] in [blochsim]
    (lines 29-32) and [1j / 2] in [deriv] (lines 57-60). *)
Definition grad_blip (k : C) (geo : geometry) (mm : nat) : res cvec :=
  match geo with
  | Geo1 x g =>
      gm <- index g mm ;;
      Ok (map (fun xi => Cexp (k * RtoC xi * RtoC gm)%C) x)
  | GeoN x g =>
      row <- index (mrows g) mm ;;
      v <- cmatvec (ncols x) (cscale_rows k x) row ;;
      Ok (map Cexp v)
  end.

(** [xp.exp(1j / 2 * x * xp.sum(g))], or with [x @ xp.sum(g, 0)]
    (lines 36-39). *)
Definition grad_total (geo : geometry) : res cvec :=
  match geo with
  | Geo1 x g =>
      Ok (map (fun xi => Cexp (Ci / RtoC 2 * RtoC xi * RtoC (Rsum g))%C) x)
  | GeoN x g =>
      v <- cmatvec (ncols x) (cscale_rows (Ci / RtoC 2)%C x) (colsum g) ;;
      Ok (map Cexp v)
  end.

(** ** blochsim *)

(** [C = xp.cos(xp.abs(rf[mm]) / 2)] *)
Definition rf_C (w : C) : R := cos (Cabs w / 2).

(** [S = 1j * xp.exp(1j * xp.angle(rf[mm])) * xp.sin(xp.abs(rf[mm]) / 2)] *)
Definition rf_S (w : C) : C :=
  (Ci * Cexp (Ci * RtoC (Cangle w)) * RtoC (sin (Cabs w / 2)))%C.

(** Lines 21-26: the RF rotation of both arrays. *)
Definition apply_rf (w : C) (ab : cvec * cvec) : res (cvec * cvec) :=
  let '(a, b) := ab in
  att <- bzip Csub (scal a (rf_C w)) (scalc b (Cconj (rf_S w))) ;;
  bt <- bzip Cadd (scalc a (rf_S w)) (scal b (rf_C w)) ;;
  Ok (att, bt).

(** Lines 29-33: the gradient phase, on [b] only. *)
Definition apply_gradient (geo : geometry) (mm : nat) (ab : cvec * cvec)
  : res (cvec * cvec) :=
  let '(a, b) := ab in
  z <- grad_blip (- Ci)%C geo mm ;;
  b' <- bzip Cmul b z ;;
  Ok (a, b').

(** One pass of the loop body at index [mm] (lines 18-33); [mm] is below
    [xp.size(rf)], so [rf[mm]] is in range. *)
Definition blochsim_step (rf : cvec) (geo : geometry) (mm : nat)
  (ab : cvec * cvec) : res (cvec * cvec) :=
  ab' <- apply_rf (nth mm rf C0) ab ;;
  apply_gradient geo mm ab'.

(** The state after the first [k] passes of [for mm in range(0, size(rf))],
    from [a = ones], [b = zeros] (lines 16-18). *)
Fixpoint blochsim_iter (rf : cvec) (geo : geometry) (k : nat)
  : res (cvec * cvec) :=
  match k with
  | O => Ok (repeat C1 (nspins geo), repeat C0 (nspins geo))
  | S k' => ab <- blochsim_iter rf geo k' ;; blochsim_step rf geo k' ab
  end.

(** The state when the loop is left, before the total phase accrual. *)
Definition blochsim_raw (rf : cvec) (geo : geometry) : res (cvec * cvec) :=
  blochsim_iter rf geo (length rf).

(** Lines 36-41. *)
Definition phase_accrual (geo : geometry) (ab : cvec * cvec)
  : res (cvec * cvec) :=
  let '(a, b) := ab in
  z <- grad_total geo ;;
  a' <- bzip Cmul a z ;;
  b' <- bzip Cmul b z ;;
  Ok (a', b').

Definition blochsim (rf : cvec) (geo : geometry) : res (cvec * cvec) :=
  ab <- blochsim_raw rf geo ;;
  phase_accrual geo ab.

(** ** deriv *)

(** The arrays the reverse loop carries: the forward state being unwound,
    the backward accumulator, and the output. *)
Record dstate : Type := mkD {
  d_af : cvec; d_bf : cvec;
  d_ar : cvec; d_br : cvec;
  d_drf : cvec
}.

(** Lines 70-76: the inverse RF rotation on the forward state. *)
Definition strip_rf (w : C) (ab : cvec * cvec) : res (cvec * cvec) :=
  let '(af, bf) := ab in
  att <- bzip Cadd (scal af (rf_C w)) (scalc bf (Cconj (rf_S w))) ;;
  bt <- bzip Cadd (scalc (map Cneg af) (rf_S w)) (scal bf (rf_C w)) ;;
  Ok (att, bt).

(** Lines 87-91: the RF update of the backward accumulator. *)
Definition add_rf (w : C) (ab : cvec * cvec) : res (cvec * cvec) :=
  let '(ar, br) := ab in
  art <- bzip Csub (scal ar (rf_C w)) (scalc (map Cconj br) (rf_S w)) ;;
  brt <- bzip Cadd (scal br (rf_C w)) (scalc (map Cconj ar) (rf_S w)) ;;
  Ok (art, brt).

(** Lines 79-81: [xp.sum(db2 + xp.conj(db1))]. *)
Definition drf_b (auxb af bf ar br : cvec) : res C :=
  t1 <- bzip Cmul (map (Cmul (Ci / RtoC 2)%C) br) bf ;;
  db1 <- bzip Cmul (map Cconj t1) auxb ;;
  t2 <- bzip Cmul (map Cconj (map (Cmul (Ci / RtoC 2)%C) af)) ar ;;
  db2 <- bzip Cmul t2 auxb ;;
  s <- bzip Cadd db2 (map Cconj db1) ;;
  Ok (Csum s).

(** Lines 83-85: [xp.sum(da2 + xp.conj(da1))]. *)
Definition drf_a (auxa af bf ar br : cvec) : res C :=
  t1 <- bzip Cmul (map (Cmul (Ci / RtoC 2)%C) bf) ar ;;
  da1 <- bzip Cmul (map Cconj t1) auxa ;;
  t2 <- bzip Cmul (map (Cmul (Ci / RtoC 2)%C) (map Cconj af)) br ;;
  da2 <- bzip Cmul t2 auxa ;;
  s <- bzip Cadd da2 (map Cconj da1) ;;
  Ok (Csum s).

(** One pass of the reverse loop at index [mm] (lines 56-91). *)
Definition deriv_step (rf : cvec) (geo : geometry) (auxa : option cvec)
  (auxb : cvec) (mm : nat) (st : dstate) : res dstate :=
  z <- grad_blip (Ci / RtoC 2)%C geo mm ;;
  af <- bzip Cmul (d_af st) (map Cconj z) ;;
  bf <- bzip Cmul (d_bf st) z ;;
  ar <- bzip Cmul (d_ar st) z ;;
  br <- bzip Cmul (d_br st) z ;;
  '(af', bf') <- strip_rf (nth mm rf C0) (af, bf) ;;
  d <- drf_b auxb af' bf' ar br ;;
  d' <- match auxa with
        | None => Ok d
        | Some ua => e <- drf_a ua af' bf' ar br ;; Ok (d + e)%C
        end ;;
  '(ar', br') <- add_rf (nth mm rf C0) (ar, br) ;;
  Ok (mkD af' bf' ar' br' (upd mm d' (d_drf st))).

(** Lines 50-52. *)
Definition deriv_init (rf af bf : cvec) : dstate :=
  mkD af bf (repeat C1 (length af)) (repeat C0 (length bf))
      (repeat C0 (length rf)).

(** The state after the first [k] passes of
    [for mm in range(size(rf) - 1, -1, -1)]: pass number [k'] (from 0) runs
    at index [size(rf) - 1 - k']. *)
Fixpoint deriv_iter (rf : cvec) (geo : geometry) (auxa : option cvec)
  (auxb af bf : cvec) (k : nat) : res dstate :=
  match k with
  | O => Ok (deriv_init rf af bf)
  | S k' =>
      st <- deriv_iter rf geo auxa auxb af bf k' ;;
      deriv_step rf geo auxa auxb (length rf - 1 - k') st
  end.

Definition deriv (rf : cvec) (geo : geometry) (auxa : option cvec)
  (auxb af bf : cvec) : res cvec :=
  st <- deriv_iter rf geo auxa auxb af bf (length rf) ;;
  Ok (d_drf st).

(** ** One spin at a time *)

(** What the vectorised code does to a single spin.  A spin is given by the
    phases [x . g[t]] it sees at each step and by [x . sum_t g[t]]. *)

Fixpoint rdot (u v : list R) : R :=
  match u, v with
  | a :: u', b :: v' => a * b + rdot u' v'
  | _, _ => 0
  end.

Record spin : Type := mkSpin { sp_phase : list R; sp_total : R }.

Definition spins (geo : geometry) : list spin :=
  match geo with
  | Geo1 x g =>
      map (fun xi => mkSpin (map (fun gt => xi * gt) g) (xi * Rsum g)) x
  | GeoN x g =>
      map (fun r => mkSpin (map (rdot r) (mrows g)) (rdot r (colsum g)))
          (mrows x)
  end.

(** The shapes of a two-dimensional pair fit: as many columns in [x] as in
    [g]. *)
Definition wf_geo (geo : geometry) : Prop :=
  match geo with
  | Geo1 _ _ => True
  | GeoN x g => ncols x = ncols g /\ wf_matrix x /\ wf_matrix g
  end.

(** The RF rotation on one spinor. *)
Definition rot (w : C) (ab : C * C) : C * C :=
  let '(a, b) := ab in
  ((a * RtoC (rf_C w) - b * Cconj (rf_S w))%C,
   (a * rf_S w + b * RtoC (rf_C w))%C).

Definition spin_step (w : C) (phi : R) (ab : C * C) : C * C :=
  let '(a, b) := rot w ab in
  (a, (b * Cexp (- Ci * RtoC phi))%C).

Fixpoint spin_iter (rf : cvec) (s : spin) (k : nat) : C * C :=
  match k with
  | O => (C1, C0)
  | S k' => spin_step (nth k' rf C0) (nth k' (sp_phase s) 0) (spin_iter rf s k')
  end.

Definition spin_final (rf : cvec) (s : spin) : C * C :=
  let '(a, b) := spin_iter rf s (length rf) in
  let z := Cexp (Ci / RtoC 2 * RtoC (sp_total s))%C in
  ((a * z)%C, (b * z)%C).

(** [|a|^2 + |b|^2 = 1] *)
Definition unit_spinor (ab : C * C) : Prop :=
  Cnorm2 (fst ab) + Cnorm2 (snd ab) = 1.

(** Every spin of a pair of arrays is a unit spinor. *)
Definition unit_state (ab : cvec * cvec) : Prop :=
  length (fst ab) = length (snd ab) /\
  Forall unit_spinor (combine (fst ab) (snd ab)).

(** ** The reference recurrence of the specification *)

(** [e^{i theta}] *)
Definition expi (theta : R) : C := mkC (cos theta) (sin theta).

(** Modelled after the specification (section 4.1, steps 1 to 3): one time
    step on one spin, with [C = cos(|w|/2)],
    [S = i e^{i arg w} sin(|w|/2)], [a' = a C - b conj(S)],
    [b' = a S + b C], and then [b] times [exp(-i phi)]. *)
Definition ref_step (ab : C * C) (wphi : C * R) : C * C :=
  let '(a, b) := ab in
  let '(w, phi) := wphi in
  let c := RtoC (cos (Cabs w / 2)) in
  let s := (Ci * expi (Cangle w) * RtoC (sin (Cabs w / 2)))%C in
  let a' := (a * c - b * Cconj s)%C in
  let b' := (a * s + b * c)%C in
  (a', (b' * expi (- phi))%C).

(** Modelled after the specification (section 4.1): from [a = 1], [b = 0],
    the steps in order, then both times [exp(i/2 total)]. *)
Definition ref_spin (rf : cvec) (phis : list R) (total : R) : C * C :=
  let '(a, b) := fold_left ref_step (combine rf phis) (C1, C0) in
  ((a * expi (total / 2))%C, (b * expi (total / 2))%C).

Definition ref_blochsim (rf : cvec) (geo : geometry) : cvec * cvec :=
  match geo with
  | Geo1 x g =>
      (map (fun xi => fst (ref_spin rf (map (Rmult xi) g) (xi * Rsum g))) x,
       map (fun xi => snd (ref_spin rf (map (Rmult xi) g) (xi * Rsum g))) x)
  | GeoN x g =>
      (map (fun r => fst (ref_spin rf (map (rdot r) (mrows g))
                                   (rdot r (colsum g)))) (mrows x),
       map (fun r => snd (ref_spin rf (map (rdot r) (mrows g))
                                   (rdot r (colsum g)))) (mrows x))
  end.

(** The inputs of [blochsim] have matching shapes. *)
Definition shapes_match (rf : cvec) (geo : geometry) : Prop :=
  nsteps geo = length rf /\ wf_geo geo.

(** A one-dimensional array with a trailing dimension of size 1 added
    ([v[:, None]]). *)
Definition as_column (v : list R) : matrix := mkMat 1 (map (fun a => [a]) v).

(** ** The backward accumulator, one spin at a time *)

(** Lines 88-89 on one spin: [ar' = ar C - conj(br) S],
    [br' = br C + conj(ar) S]. *)
Definition back_rot (w : C) (ab : C * C) : C * C :=
  let '(ar, br) := ab in
  ((ar * RtoC (rf_C w) - Cconj br * rf_S w)%C,
   (br * RtoC (rf_C w) + Cconj ar * rf_S w)%C).

(** The rotation matrix with first column [(al, be)], that is
    [[al, -conj(be)], [be, conj(al)]], applied to a spinor. *)
Definition act (c : C * C) (ab : C * C) : C * C :=
  let '(al, be) := c in
  let '(a, b) := ab in
  ((al * a - Cconj be * b)%C, (be * a + Cconj al * b)%C).

(** ** The reverse loop, one spin at a time *)

(** The four numbers [deriv] carries for one spin. *)
Record sstate : Type := mkS { s_af : C; s_bf : C; s_ar : C; s_br : C }.

(** Lines 73-74 on one spin: the inverse rotation. *)
Definition inv_rot (w : C) (ab : C * C) : C * C :=
  let '(af, bf) := ab in
  ((af * RtoC (rf_C w) + bf * Cconj (rf_S w))%C,
   (- af * rf_S w + bf * RtoC (rf_C w))%C).

(** [z = exp(1j / 2 * phi)] *)
Definition half_blip (phi : R) : C := Cexp (Ci / RtoC 2 * RtoC phi).

(** The forward state of a spin after lines 63-64 and 73-76. *)
Definition unwind (w : C) (phi : R) (s : sstate) : C * C :=
  inv_rot w ((s_af s * Cconj (half_blip phi))%C, (s_bf s * half_blip phi)%C).

(** The backward accumulator of a spin after lines 67-68. *)
Definition blipped (phi : R) (s : sstate) : C * C :=
  ((s_ar s * half_blip phi)%C, (s_br s * half_blip phi)%C).

(** Lines 79-81 on one spin: [db2 + conj(db1)]. *)
Definition term_b (ub : C) (f r : C * C) : C :=
  let db1 := (Cconj (Ci / RtoC 2 * snd r * snd f) * ub)%C in
  let db2 := (Cconj (Ci / RtoC 2 * fst f) * fst r * ub)%C in
  (db2 + Cconj db1)%C.

(** Lines 83-85 on one spin: [da2 + conj(da1)]. *)
Definition term_a (ua : C) (f r : C * C) : C :=
  let da1 := (Cconj (Ci / RtoC 2 * snd f * fst r) * ua)%C in
  let da2 := (Ci / RtoC 2 * Cconj (fst f) * snd r * ua)%C in
  (da2 + Cconj da1)%C.

Definition dspin_step (w : C) (phi : R) (s : sstate) : sstate :=
  let f := unwind w phi s in
  let r := back_rot w (blipped phi s) in
  mkS (fst f) (snd f) (fst r) (snd r).

(** The state of one spin after [k] passes of the reverse loop over a pulse
    of [n] samples. *)
Fixpoint dspin_iter (rf : cvec) (phis : list R) (s0 : sstate) (k : nat)
  : sstate :=
  match k with
  | O => s0
  | S k' =>
      dspin_step (nth (length rf - 1 - k') rf C0)
                 (nth (length rf - 1 - k') phis 0)
                 (dspin_iter rf phis s0 k')
  end.

(** The value written to [drf[mm]] in one pass, when the spins are indexed
    by a list [l]: [SP] gives the phases of a spin, [UB] and [UA] its entry
    of [auxb] and of [auxa], [F] its state before the pass. *)
Definition pass_total {A : Type} (l : list A) (SP : A -> spin) (UB : A -> C)
  (UA : option (A -> C)) (rf : cvec) (mm : nat) (F : A -> sstate) : C :=
  let w := nth mm rf C0 in
  let f := fun i => unwind w (nth mm (sp_phase (SP i)) 0) (F i) in
  let r := fun i => blipped (nth mm (sp_phase (SP i)) 0) (F i) in
  let tb := Csum (map (fun i => term_b (UB i) (f i) (r i)) l) in
  match UA with
  | None => tb
  | Some U => (tb + Csum (map (fun i => term_a (U i) (f i) (r i)) l))%C
  end.

Definition spin_states {A : Type} (SP : A -> spin) (rf : cvec)
  (F0 : A -> sstate) (k : nat) : A -> sstate :=
  fun i => dspin_iter rf (sp_phase (SP i)) (F0 i) k.

(** [drf] after [k] passes. *)
Fixpoint drf_iter {A : Type} (l : list A) (SP : A -> spin) (UB : A -> C)
  (UA : option (A -> C)) (rf : cvec) (F0 : A -> sstate) (k : nat) : cvec :=
  match k with
  | O => repeat C0 (length rf)
  | S k' =>
      upd (length rf - 1 - k')
          (pass_total l SP UB UA rf (length rf - 1 - k')
                      (spin_states SP rf F0 k'))
          (drf_iter l SP UB UA rf F0 k')
  end.

(** The arrays of [deriv] when spin [i] is in state [F i]. *)
Definition state_arrays {A : Type} (l : list A) (F : A -> sstate)
  (drf : cvec) : dstate :=
  mkD (map (fun i => s_af (F i)) l) (map (fun i => s_bf (F i)) l)
      (map (fun i => s_ar (F i)) l) (map (fun i => s_br (F i)) l) drf.

(** Spin number [i] of a geometry, entry [i] of an array, and the state
    [deriv] starts spin [i] in (lines 51-52). *)
Definition spin_at (geo : geometry) (i : nat) : spin :=
  nth i (spins geo) (mkSpin [] 0).

Definition entry (u : cvec) (i : nat) : C := nth i u C0.

Definition init_at (af bf : cvec) (i : nat) : sstate :=
  mkS (entry af i) (entry bf i) C1 C0.

(** The inputs of [deriv] have fitting shapes: one entry per spin in [af],
    [bf], [auxb] and in [auxa] when it is given, and a gradient sample for
    every RF sample. *)
Definition deriv_shapes (rf : cvec) (geo : geometry) (auxa : option cvec)
  (auxb af bf : cvec) : Prop :=
  wf_geo geo /\ (length rf <= nsteps geo)%nat /\
  length af = nspins geo /\ length bf = nspins geo /\
  length auxb = nspins geo /\
  match auxa with
  | None => True
  | Some ua => length ua = nspins geo
  end.

(** The states and the output of [deriv] after [k] passes, spin by spin. *)
Definition deriv_states (rf : cvec) (geo : geometry) (af bf : cvec) (k : nat)
  : nat -> sstate :=
  spin_states (spin_at geo) rf (init_at af bf) k.

Definition deriv_drf (rf : cvec) (geo : geometry) (auxa : option cvec)
  (auxb af bf : cvec) (k : nat) : cvec :=
  drf_iter (seq 0 (nspins geo)) (spin_at geo) (entry auxb)
           (option_map entry auxa) rf (init_at af bf) k.

(** ** The loss and its derivatives *)

(** Modelled after the specification (section 8): the loss whose
    sensitivities are the seeds, [L(a, b) = sum Re(conj(auxb) b)], plus
    [sum Re(conj(auxa) a)] when [auxa] is present. *)
Definition seed_sum (u v : cvec) : R :=
  Rsum (map2 (fun s z => Re (Cconj s * z)) u v).

Definition loss (auxa : option cvec) (auxb : cvec) (ab : cvec * cvec) : R :=
  seed_sum auxb (snd ab) +
  match auxa with
  | None => 0
  | Some ua => seed_sum ua (fst ab)
  end.

(** The loss of the corrected result of [blochsim] as a function of the RF
    sample at index [t], the other samples fixed. *)
Definition loss_at (rf : cvec) (geo : geometry) (auxa : option cvec)
  (auxb : cvec) (t : nat) (w : C) : R :=
  match blochsim (upd t w rf) geo with
  | Ok ab => loss auxa auxb ab
  | Err _ => 0
  end.

(** The partial derivatives of a real function of a complex variable with
    respect to its real and its imaginary part. *)
Definition dRe (L : C -> R) (w : C) (d : R) : Prop :=
  derivable_pt_lim (fun u => L (mkC u (Im w))) (Re w) d.

Definition dIm (L : C -> R) (w : C) (d : R) : Prop :=
  derivable_pt_lim (fun v => L (mkC (Re w) v)) (Im w) d.

(** The Wirtinger derivative [dL/dw = (dL/du - i dL/dv) / 2]. *)
Definition wirtinger (L : C -> R) (w d : C) : Prop :=
  exists du dv, dRe L w du /\ dIm L w dv /\ d = mkC (du / 2) (- dv / 2).

(** The statement about [deriv] in the words of the specification: given
    the state of the forward loop before the final phase correction, it
    returns the Wirtinger derivatives of the loss. *)
Definition deriv_is_wirtinger (rf : cvec) (geo : geometry)
  (auxa : option cvec) (auxb : cvec) : Prop :=
  forall af bf, blochsim_raw rf geo = Ok (af, bf) ->
  exists drf,
    deriv rf geo auxa auxb af bf = Ok drf /\
    length drf = length rf /\
    forall t, (t < length rf)%nat ->
      wirtinger (loss_at rf geo auxa auxb t) (nth t rf C0) (nth t drf C0).

(** ** The forward pass with the phase split evenly over [a] and [b] *)

Definition scale2 (c : C) (ab : C * C) : C * C :=
  ((c * fst ab)%C, (c * snd ab)%C).

(** One step on one spin: the rotation, then [a] times [z] and [b] times
    [conj z] for [z = exp(i phi / 2)]. *)
Definition sym_step (ab : C * C) (wphi : C * R) : C * C :=
  let '(a, b) := rot (fst wphi) ab in
  ((a * half_blip (snd wphi))%C, (b * Cconj (half_blip (snd wphi)))%C).

Definition sym_fwd (steps : list (C * R)) (ab : C * C) : C * C :=
  fold_left sym_step steps ab.

(** The first column of the rotation a list of steps amounts to, built from
    the last step backwards the way [deriv] builds [(ar, br)]. *)
Definition col (steps : list (C * R)) : C * C :=
  fold_right (fun wphi c => back_rot (fst wphi) (scale2 (half_blip (snd wphi)) c))
             (C1, C0) steps.

(** The derivative of the rotation at [w = 0] along the real axis and along
    the imaginary axis, applied to a spinor. *)
Definition rot_du (ab : C * C) : C * C := ((Ci * snd ab)%C, (Ci * fst ab)%C).
Definition rot_dv (ab : C * C) : C * C := (snd ab, (- fst ab)%C).

(** The state of one spin after [k] passes, started from the result of the
    symmetric pass: the forward state of the first [n - k] steps and the
    first column of the rotation of the last [k] steps. *)
Definition unwound (steps : list (C * R)) (k : nat) : sstate :=
  let f := sym_fwd (firstn (length steps - k) steps) (C1, C0) in
  let c := col (skipn (length steps - k) steps) in
  mkS (fst f) (snd f) (fst c) (snd c).

(** [c f + s g] on spinors, for real [c] and [s]. *)
Definition lincomb (c s : R) (f g : C * C) : C * C :=
  ((RtoC c * fst f + RtoC s * fst g)%C, (RtoC c * snd f + RtoC s * snd g)%C).

(** For the RF sample at index [t]: the forward state [before t] of a spin
    in front of that sample, and the first column [after t] of the rotation
    that follows it (its own gradient phase included). *)
Definition before (rf : cvec) (s : spin) (t : nat) : C * C :=
  sym_fwd (firstn t (combine rf (sp_phase s))) (C1, C0).

Definition after (rf : cvec) (s : spin) (t : nat) : C * C :=
  scale2 (half_blip (nth t (sp_phase s) 0))
         (col (skipn (S t) (combine rf (sp_phase s)))).

(** The result of [blochsim] for spin [i] when the sample at [t] is [w]. *)
Definition final_at (rf : cvec) (geo : geometry) (t : nat) (w : C) (i : nat)
  : C * C :=
  act (after rf (spin_at geo i) t) (rot w (before rf (spin_at geo i) t)).

(** The value of [drf[t]] in terms of the parts before and after [t]. *)
Definition grad_at (rf : cvec) (geo : geometry) (auxa : option cvec)
  (auxb : cvec) (t : nat) : C :=
  let l := seq 0 (nspins geo) in
  let f := fun i => before rf (spin_at geo i) t in
  let r := fun i => after rf (spin_at geo i) t in
  let tb := Csum (map (fun i => term_b (entry auxb i) (f i) (r i)) l) in
  match option_map entry auxa with
  | None => tb
  | Some U => (tb + Csum (map (fun i => term_a (U i) (f i) (r i)) l))%C
  end.

(** The state [deriv] starts spin [i] in when [af], [bf] are the result of
    [blochsim]. *)
Definition start_at (rf : cvec) (geo : geometry) (i : nat) : sstate :=
  unwound (combine rf (sp_phase (spin_at geo i))) 0.

(** The loss of the spinors [after . J(before)], summed over the spins:
    the loss itself for [J] the identity, its rate of change along an axis
    for [J] the derivative of the rotation. *)
Definition loss_part (rf : cvec) (geo : geometry) (auxa : option cvec)
  (auxb : cvec) (t : nat) (J : C * C -> C * C) : R :=
  let l := seq 0 (nspins geo) in
  let v := fun i => act (after rf (spin_at geo i) t) (J (before rf (spin_at geo i) t)) in
  Rsum (map (fun i => Re (Cconj (entry auxb i) * snd (v i))) l) +
  match auxa with
  | None => 0
  | Some ua => Rsum (map (fun i => Re (Cconj (entry ua i) * fst (v i))) l)
  end.

(** ** Parts of a pulse *)

(** The gradient restricted to its first [m] steps ([g[:m]]) and to the
    steps from [m] on ([g[m:]]), the positions kept. *)
Definition geo_firstn (m : nat) (geo : geometry) : geometry :=
  match geo with
  | Geo1 x g => Geo1 x (firstn m g)
  | GeoN x g => GeoN x (mkMat (ncols g) (firstn m (mrows g)))
  end.

Definition geo_skipn (m : nat) (geo : geometry) : geometry :=
  match geo with
  | Geo1 x g => Geo1 x (skipn m g)
  | GeoN x g => GeoN x (mkMat (ncols g) (skipn m (mrows g)))
  end.

(** The spinor of a pulse played after another one, spin by spin: with
    [(a1, b1)] the result of the first and [(a2, b2)] of the second,
    [a = a2 a1 - conj(b2) b1] and [b = b2 a1 + conj(a2) b1]. *)
Definition compose_spinors (ab1 ab2 : cvec * cvec) : cvec * cvec :=
  let '(a1, b1) := ab1 in
  let '(a2, b2) := ab2 in
  (map2 Csub (map2 Cmul a2 a1) (map2 Cmul (map Cconj b2) b1),
   map2 Cadd (map2 Cmul b2 a1) (map2 Cmul (map Cconj a2) b1)).

(** * Properties *)

Lemma C_eq (z w : C) : Re z = Re w -> Im z = Im w -> z = w.
Proof. destruct z, w; simpl; intros -> ->; reflexivity. Qed.

Ltac csimp := unfold Cadd, Csub, Cmul, Cneg, Cconj, Cdiv, Cnorm2, RtoC, C0, C1, Ci in *; simpl in *.
Ltac cring := intros; apply C_eq; csimp; try ring; try field; try lra.

Lemma Cmul_comm (z w : C) : (z * w = w * z)%C.
Proof. cring. Qed.

Lemma Cmul_assoc (z w v : C) : (z * (w * v) = (z * w) * v)%C.
Proof. cring. Qed.

Lemma Cmul_1_l (z : C) : (C1 * z = z)%C.
Proof. cring. Qed.

Lemma Cmul_1_r (z : C) : (z * C1 = z)%C.
Proof. cring. Qed.

Lemma Cmul_0_l (z : C) : (C0 * z = C0)%C.
Proof. cring. Qed.

Lemma Cmul_0_r (z : C) : (z * C0 = C0)%C.
Proof. cring. Qed.

Lemma Cadd_0_r (z : C) : (z + C0 = z)%C.
Proof. cring. Qed.

Lemma Cadd_0_l (z : C) : (C0 + z = z)%C.
Proof. cring. Qed.

Lemma Cadd_comm (z w : C) : (z + w = w + z)%C.
Proof. cring. Qed.

Lemma Cadd_assoc (z w v : C) : (z + (w + v) = (z + w) + v)%C.
Proof. cring. Qed.

Lemma Cconj_0 : Cconj C0 = C0.
Proof. cring. Qed.

Lemma Cnorm2_mul (z w : C) : Cnorm2 (z * w) = Cnorm2 z * Cnorm2 w.
Proof. csimp; ring. Qed.

Lemma Cnorm2_conj (z : C) : Cnorm2 (Cconj z) = Cnorm2 z.
Proof. csimp; ring. Qed.

Lemma Cnorm2_nonneg (z : C) : 0 <= Cnorm2 z.
Proof. unfold Cnorm2; nra. Qed.

(** [1j / 2] *)
Lemma Ci_half : (Ci / RtoC 2)%C = mkC 0 (1 / 2).
Proof. apply C_eq; csimp; field. Qed.

Lemma Cexp_0 : Cexp C0 = C1.
Proof.
  unfold Cexp, C0, C1, RtoC; simpl.
  rewrite exp_0, cos_0, sin_0. f_equal; ring.
Qed.

Lemma Cexp_add (z w : C) : (Cexp (z + w) = Cexp z * Cexp w)%C.
Proof.
  apply C_eq; unfold Cexp, Cadd, Cmul; simpl;
    rewrite exp_plus; [rewrite cos_plus | rewrite sin_plus]; ring.
Qed.

(** The exponential of a purely imaginary number lies on the unit circle. *)
Lemma Cnorm2_exp_imag (z : C) : Re z = 0 -> Cnorm2 (Cexp z) = 1.
Proof.
  intros H. unfold Cnorm2, Cexp; simpl. rewrite H, exp_0.
  generalize (sin2_cos2 (Im z)). unfold Rsqr. lra.
Qed.

Lemma Cexp_conj (z : C) : Cconj (Cexp z) = Cexp (Cconj z).
Proof.
  apply C_eq; unfold Cexp, Cconj; simpl.
  - rewrite cos_neg; reflexivity.
  - rewrite sin_neg; ring.
Qed.

(** ** Arrays as images of a list of spins *)

Lemma map_const_repeat {A B : Type} (c : B) (l : list A) :
  map (fun _ => c) l = repeat c (length l).
Proof. induction l; simpl; congruence. Qed.

Lemma bzip_same_length (f : C -> C -> C) (u v : cvec) :
  length u = length v -> bzip f u v = Ok (map2 f u v).
Proof. intros H. unfold bzip. rewrite H, Nat.eqb_refl. reflexivity. Qed.

Lemma map2_map {A B D E : Type} (f : B -> D -> E) (f1 : A -> B) (f2 : A -> D)
  (l : list A) :
  map2 f (map f1 l) (map f2 l) = map (fun s => f (f1 s) (f2 s)) l.
Proof. unfold map2. induction l; simpl; congruence. Qed.

Lemma bzip_map {A : Type} (f : C -> C -> C) (f1 f2 : A -> C) (l : list A) :
  bzip f (map f1 l) (map f2 l) = Ok (map (fun s => f (f1 s) (f2 s)) l).
Proof.
  rewrite bzip_same_length by (now rewrite !length_map).
  now rewrite map2_map.
Qed.

Lemma scalc_map {A : Type} (f1 : A -> C) (s : C) (l : list A) :
  scalc (map f1 l) s = map (fun x => (f1 x * s)%C) l.
Proof. unfold scalc. now rewrite map_map. Qed.

Lemma scal_map {A : Type} (f1 : A -> C) (c : R) (l : list A) :
  scal (map f1 l) c = map (fun x => (f1 x * RtoC c)%C) l.
Proof. apply scalc_map. Qed.

Lemma index_nth {A : Type} (l : list A) (i : nat) (d : A) :
  (i < length l)%nat -> index l i = Ok (nth i l d).
Proof.
  intros H. unfold index. now rewrite (nth_error_nth' l d H).
Qed.

Lemma index_out {A : Type} (l : list A) (i : nat) :
  (length l <= i)%nat -> index l i = Err IndexError.
Proof.
  intros H. unfold index.
  now rewrite (proj2 (nth_error_None l i) H).
Qed.

Lemma length_spins (geo : geometry) : length (spins geo) = nspins geo.
Proof. destruct geo; simpl; now rewrite length_map. Qed.

(** ** The gradient phases, spin by spin *)

Lemma cdot_scale (k : C) (r v : list R) :
  cdot (map (fun xi => (k * RtoC xi)%C) r) v = (k * RtoC (rdot r v))%C.
Proof.
  revert v; induction r as [|a r IH]; intros [|b v]; simpl;
    try (apply C_eq; csimp; ring).
  rewrite IH. apply C_eq; csimp; ring.
Qed.

Lemma length_vadd (u v : list R) :
  length (vadd u v) = Nat.min (length u) (length v).
Proof.
  revert v; induction u as [|a u IH]; intros [|b v]; simpl; auto.
Qed.

Lemma length_colsum (g : matrix) :
  wf_matrix g -> length (colsum g) = ncols g.
Proof.
  unfold wf_matrix, colsum. generalize (ncols g) as n.
  induction (mrows g) as [|r rs IH]; intros n H; simpl.
  - apply repeat_length.
  - inversion H; subst. rewrite length_vadd, IH by assumption. lia.
Qed.

Lemma grad_blip_spins (k : C) (geo : geometry) (mm : nat) :
  wf_geo geo -> (mm < nsteps geo)%nat ->
  grad_blip k geo mm =
  Ok (map (fun s => Cexp (k * RtoC (nth mm (sp_phase s) 0))%C) (spins geo)).
Proof.
  destruct geo as [x g | x g]; simpl; intros Hwf Hmm.
  - rewrite (index_nth g mm 0 Hmm). simpl. f_equal.
    rewrite map_map. apply map_ext; intros xi. simpl.
    rewrite (nth_indep (map (fun gt => xi * gt) g) 0 (xi * 0))
      by (now rewrite length_map).
    rewrite (map_nth (fun gt => xi * gt)).
    f_equal. apply C_eq; csimp; ring.
  - destruct Hwf as (Hc & Hx & Hg).
    rewrite (index_nth (mrows g) mm [] Hmm). simpl.
    unfold cmatvec.
    assert (Hlen : length (nth mm (mrows g) []) = ncols g).
    { unfold wf_matrix in Hg. rewrite Forall_forall in Hg.
      apply Hg. now apply nth_In. }
    rewrite Hlen, Hc, Nat.eqb_refl. simpl. f_equal.
    unfold cscale_rows. rewrite !map_map. apply map_ext; intros r. simpl.
    rewrite cdot_scale. do 3 f_equal.
    rewrite (nth_indep (map (rdot r) (mrows g)) 0 (rdot r []))
      by (now rewrite length_map).
    now rewrite (map_nth (rdot r)).
Qed.

Lemma grad_total_spins (geo : geometry) :
  wf_geo geo ->
  grad_total geo =
  Ok (map (fun s => Cexp (Ci / RtoC 2 * RtoC (sp_total s))%C) (spins geo)).
Proof.
  destruct geo as [x g | x g]; simpl; intros Hwf.
  - f_equal. rewrite map_map. apply map_ext; intros xi. simpl.
    f_equal. apply C_eq; csimp; field.
  - destruct Hwf as (Hc & Hx & Hg). unfold cmatvec.
    rewrite (length_colsum g Hg), Hc, Nat.eqb_refl. simpl. f_equal.
    unfold cscale_rows. rewrite !map_map. apply map_ext; intros r. simpl.
    now rewrite cdot_scale.
Qed.

(** ** The loop of [blochsim], spin by spin *)

Lemma blochsim_step_spins (rf : cvec) (geo : geometry) (mm : nat)
  (F : spin -> C * C) :
  wf_geo geo -> (mm < nsteps geo)%nat ->
  blochsim_step rf geo mm
    (map (fun s => fst (F s)) (spins geo), map (fun s => snd (F s)) (spins geo))
  = Ok (map (fun s => fst (spin_step (nth mm rf C0) (nth mm (sp_phase s) 0) (F s)))
            (spins geo),
        map (fun s => snd (spin_step (nth mm rf C0) (nth mm (sp_phase s) 0) (F s)))
            (spins geo)).
Proof.
  intros Hwf Hmm. unfold blochsim_step, apply_rf.
  rewrite !scal_map, !scalc_map, !bzip_map. simpl.
  rewrite (grad_blip_spins _ geo mm Hwf Hmm). simpl.
  rewrite bzip_map. simpl. f_equal. f_equal.
  - apply map_ext; intros s. unfold spin_step, rot. now destruct (F s).
  - apply map_ext; intros s. unfold spin_step, rot. now destruct (F s).
Qed.

Lemma blochsim_iter_spins (rf : cvec) (geo : geometry) (k : nat) :
  wf_geo geo -> (k <= nsteps geo)%nat ->
  blochsim_iter rf geo k =
  Ok (map (fun s => fst (spin_iter rf s k)) (spins geo),
      map (fun s => snd (spin_iter rf s k)) (spins geo)).
Proof.
  intros Hwf. induction k as [|k IH]; intros Hk.
  - simpl. now rewrite !map_const_repeat, length_spins.
  - simpl. rewrite IH by lia. simpl.
    now rewrite (blochsim_step_spins rf geo k (fun s => spin_iter rf s k)) by (auto; lia).
Qed.

Lemma blochsim_spins_le (rf : cvec) (geo : geometry) :
  wf_geo geo -> (length rf <= nsteps geo)%nat ->
  blochsim rf geo =
  Ok (map (fun s => fst (spin_final rf s)) (spins geo),
      map (fun s => snd (spin_final rf s)) (spins geo)).
Proof.
  intros Hwf Hn. unfold blochsim, blochsim_raw.
  rewrite blochsim_iter_spins by (auto; lia). simpl.
  rewrite grad_total_spins by assumption. simpl.
  rewrite !bzip_map. simpl. f_equal. f_equal.
  - apply map_ext; intros s. unfold spin_final. now destruct (spin_iter rf s (length rf)).
  - apply map_ext; intros s. unfold spin_final. now destruct (spin_iter rf s (length rf)).
Qed.

Lemma blochsim_spins (rf : cvec) (geo : geometry) :
  shapes_match rf geo ->
  blochsim rf geo =
  Ok (map (fun s => fst (spin_final rf s)) (spins geo),
      map (fun s => snd (spin_final rf s)) (spins geo)).
Proof. intros [Hn Hwf]. apply blochsim_spins_le; auto. lia. Qed.

(** ** The loop against the reference recurrence *)

Lemma Cexp_imag (k : C) (theta : R) :
  Re k = 0 -> Cexp (k * RtoC theta) = expi (Im k * theta).
Proof.
  intros Hk. unfold Cexp, expi, Cmul, RtoC; simpl. rewrite Hk.
  replace (0 * theta - Im k * 0) with 0 by ring.
  replace (0 * 0 + Im k * theta) with (Im k * theta) by ring.
  rewrite exp_0. apply C_eq; simpl; ring.
Qed.

Lemma Cexp_i (theta : R) : Cexp (Ci * RtoC theta) = expi theta.
Proof. rewrite Cexp_imag by reflexivity. simpl. f_equal; ring. Qed.

Lemma Cexp_neg_i (theta : R) : Cexp (- Ci * RtoC theta) = expi (- theta).
Proof. rewrite Cexp_imag by (simpl; ring). simpl. f_equal; ring. Qed.

Lemma Cexp_half_i (theta : R) :
  Cexp (Ci / RtoC 2 * RtoC theta) = expi (theta / 2).
Proof.
  rewrite Ci_half, Cexp_imag by reflexivity. simpl. f_equal; field.
Qed.

Lemma spin_step_ref (w : C) (phi : R) (ab : C * C) :
  spin_step w phi ab = ref_step ab (w, phi).
Proof.
  destruct ab as [a b]. unfold spin_step, ref_step, rot, rf_C, rf_S.
  now rewrite Cexp_i, Cexp_neg_i.
Qed.

Lemma firstn_snoc {A : Type} (l : list A) (k : nat) (d : A) :
  (k < length l)%nat -> firstn (S k) l = firstn k l ++ [nth k l d].
Proof.
  revert k; induction l as [|a l IH]; intros k Hk; simpl in Hk; [lia|].
  destruct k as [|k]; [reflexivity|].
  change (a :: firstn (S k) l = a :: (firstn k l ++ [nth k l d])).
  f_equal. apply IH. lia.
Qed.

Lemma spin_iter_fold (rf : cvec) (s : spin) (k : nat) :
  length (sp_phase s) = length rf -> (k <= length rf)%nat ->
  spin_iter rf s k =
  fold_left ref_step (firstn k (combine rf (sp_phase s))) (C1, C0).
Proof.
  intros Hlen. induction k as [|k IH]; intros Hk; [reflexivity|].
  rewrite (firstn_snoc _ k (C0, 0)) by (rewrite length_combine; lia).
  rewrite fold_left_app. simpl. rewrite <- IH by lia.
  rewrite combine_nth by congruence. apply spin_step_ref.
Qed.

Lemma spin_final_ref (rf : cvec) (s : spin) :
  length (sp_phase s) = length rf ->
  spin_final rf s = ref_spin rf (sp_phase s) (sp_total s).
Proof.
  intros Hlen. unfold spin_final, ref_spin.
  rewrite spin_iter_fold by (auto; lia).
  rewrite firstn_all2 by (rewrite length_combine; lia).
  now rewrite Cexp_half_i.
Qed.

Lemma spins_phase_length (geo : geometry) (s : spin) :
  In s (spins geo) -> length (sp_phase s) = nsteps geo.
Proof.
  destruct geo as [x g | x g]; simpl; rewrite in_map_iff;
    intros (r & <- & _); simpl; apply length_map.
Qed.

(** C2: for inputs of matching shapes, [blochsim] returns for every spin the
    result of the reference recurrence of the specification: from [a = 1],
    [b = 0], at each step the rotation [a' = a C - b conj(S)],
    [b' = a S + b C], then [b] times [exp(-i x.g[t])], and after the loop
    both times [exp(i/2 x.sum g)]. *)
Theorem blochsim_reference (rf : cvec) (geo : geometry) :
  shapes_match rf geo -> blochsim rf geo = Ok (ref_blochsim rf geo).
Proof.
  intros Hs. rewrite (blochsim_spins rf geo Hs). f_equal.
  destruct Hs as [Hn Hwf].
  assert (Href : forall s, In s (spins geo) ->
            spin_final rf s = ref_spin rf (sp_phase s) (sp_total s)).
  { intros s Hin. apply spin_final_ref.
    rewrite (spins_phase_length geo s Hin). exact Hn. }
  assert (Hmaps :
    (map (fun s => fst (spin_final rf s)) (spins geo),
     map (fun s => snd (spin_final rf s)) (spins geo)) =
    (map (fun s => fst (ref_spin rf (sp_phase s) (sp_total s))) (spins geo),
     map (fun s => snd (ref_spin rf (sp_phase s) (sp_total s))) (spins geo))).
  { f_equal; apply map_ext_in; intros s Hin; now rewrite Href. }
  rewrite Hmaps. clear.
  destruct geo as [x g | x g]; unfold ref_blochsim, spins;
    rewrite !map_map; reflexivity.
Qed.

(** [blochsim_reference] at one spin, two steps and a two-dimensional
    gradient. *)
Lemma blochsim_reference_witness :
  blochsim [RtoC 1; Ci] (GeoN (mkMat 2 [[1; 2]]) (mkMat 2 [[0; 1]; [1; 0]]))
  = Ok (ref_blochsim [RtoC 1; Ci]
          (GeoN (mkMat 2 [[1; 2]]) (mkMat 2 [[0; 1]; [1; 0]]))).
Proof.
  apply blochsim_reference. split; [reflexivity|].
  simpl. unfold wf_matrix; simpl. repeat split; repeat constructor.
Defined.

(** ** Unit modulus of the rotation and phase factors *)

Definition unit_modulus (z : C) : Prop := Cnorm2 z = 1.

Lemma Cnorm2_RtoC (c : R) : Cnorm2 (RtoC c) = c * c.
Proof. csimp; ring. Qed.

Lemma Cnorm2_expi (theta : R) : Cnorm2 (expi theta) = 1.
Proof.
  unfold Cnorm2, expi; simpl.
  generalize (sin2_cos2 theta). unfold Rsqr. lra.
Qed.

Lemma Cnorm2_rf_S (w : C) :
  Cnorm2 (rf_S w) = sin (Cabs w / 2) * sin (Cabs w / 2).
Proof.
  unfold rf_S. rewrite !Cnorm2_mul, Cexp_i, Cnorm2_expi, Cnorm2_RtoC.
  csimp; ring.
Qed.

(** [C^2 + |S|^2 = 1] *)
Lemma rf_CS_unit (w : C) : rf_C w * rf_C w + Cnorm2 (rf_S w) = 1.
Proof.
  rewrite Cnorm2_rf_S. unfold rf_C.
  generalize (sin2_cos2 (Cabs w / 2)). unfold Rsqr. lra.
Qed.

(** The forward rotation keeps the norm of any spinor. *)
Lemma rot_norm (w : C) (ab : C * C) :
  Cnorm2 (fst (rot w ab)) + Cnorm2 (snd (rot w ab)) =
  Cnorm2 (fst ab) + Cnorm2 (snd ab).
Proof.
  destruct ab as [a b]. generalize (rf_CS_unit w).
  unfold rot. generalize (rf_C w) (rf_S w). intros c s Hcs. simpl.
  transitivity ((Cnorm2 a + Cnorm2 b) * (c * c + Cnorm2 s)).
  - csimp; ring.
  - rewrite Hcs; ring.
Qed.

Lemma rot_unit (w : C) (ab : C * C) :
  unit_spinor ab -> unit_spinor (rot w ab).
Proof. unfold unit_spinor. now rewrite rot_norm. Qed.

Lemma Re_scale (k : C) (r : R) : Re k = 0 -> Re (k * RtoC r) = 0.
Proof. intros H. csimp. rewrite H. ring. Qed.

Lemma Re_Ci_half : Re (Ci / RtoC 2) = 0.
Proof. now rewrite Ci_half. Qed.

Lemma Re_neg_Ci : Re (- Ci) = 0.
Proof. simpl; ring. Qed.

Lemma grad_blip_unit (k : C) (geo : geometry) (mm : nat) (z : cvec) :
  Re k = 0 -> grad_blip k geo mm = Ok z ->
  length z = nspins geo /\ Forall unit_modulus z.
Proof.
  intros Hk. destruct geo as [x g | x g]; simpl.
  - destruct (index g mm) as [gm|e]; simpl; [|discriminate].
    intros [= <-]. split; [apply length_map|].
    rewrite Forall_forall. intros c Hc. rewrite in_map_iff in Hc.
    destruct Hc as (xi & <- & _). apply Cnorm2_exp_imag.
    now apply Re_scale, Re_scale.
  - destruct (index (mrows g) mm) as [row|e]; simpl; [|discriminate].
    unfold cmatvec. destruct (Nat.eqb (ncols x) (length row)); simpl; [|discriminate].
    intros [= <-]. unfold cscale_rows. split; [now rewrite !length_map|].
    rewrite Forall_forall. intros c Hc. rewrite !map_map, in_map_iff in Hc.
    destruct Hc as (r & <- & _). apply Cnorm2_exp_imag.
    rewrite cdot_scale. now apply Re_scale.
Qed.

Lemma grad_total_unit (geo : geometry) (z : cvec) :
  grad_total geo = Ok z ->
  length z = nspins geo /\ Forall unit_modulus z.
Proof.
  destruct geo as [x g | x g]; simpl.
  - intros [= <-]. split; [apply length_map|].
    rewrite Forall_forall. intros c Hc. rewrite in_map_iff in Hc.
    destruct Hc as (xi & <- & _). apply Cnorm2_exp_imag.
    apply Re_scale, Re_scale, Re_Ci_half.
  - unfold cmatvec.
    destruct (Nat.eqb (ncols x) (length (colsum g))); simpl; [|discriminate].
    intros [= <-]. unfold cscale_rows. split; [now rewrite !length_map|].
    rewrite Forall_forall. intros c Hc. rewrite !map_map, in_map_iff in Hc.
    destruct Hc as (r & <- & _). apply Cnorm2_exp_imag.
    rewrite cdot_scale. apply Re_scale, Re_Ci_half.
Qed.

(** ** Unit spinors through the vectorised steps *)

Lemma combine_map_map {A B A' B' : Type} (f : A -> A') (h : B -> B')
  (u : list A) (v : list B) :
  combine (map f u) (map h v) = map (fun p => (f (fst p), h (snd p))) (combine u v).
Proof.
  revert v; induction u as [|a u IH]; intros [|b v]; simpl; try reflexivity.
  now rewrite IH.
Qed.

Lemma length_map2 {A B D : Type} (f : A -> B -> D) (u : list A) (v : list B) :
  length u = length v -> length (map2 f u v) = length u.
Proof.
  intros H. unfold map2. rewrite length_map, length_combine. lia.
Qed.

Lemma apply_rf_combine (w : C) (a b : cvec) :
  length a = length b ->
  apply_rf w (a, b) =
  Ok (map (fun p => fst (rot w p)) (combine a b),
      map (fun p => snd (rot w p)) (combine a b)).
Proof.
  intros H. unfold apply_rf, scal, scalc.
  rewrite !bzip_same_length by (now rewrite !length_map). simpl.
  unfold map2. rewrite !combine_map_map, !map_map.
  f_equal; f_equal; apply map_ext; intros [p q]; reflexivity.
Qed.

Lemma combine_maps_same {A B D : Type} (f : A -> B) (h : A -> D) (l : list A) :
  combine (map f l) (map h l) = map (fun p => (f p, h p)) l.
Proof. induction l; simpl; congruence. Qed.

Lemma apply_rf_unit (w : C) (ab ab' : cvec * cvec) :
  unit_state ab -> apply_rf w ab = Ok ab' -> unit_state ab'.
Proof.
  destruct ab as [a b]. intros [Hlen Hu]. simpl in Hlen, Hu.
  rewrite (apply_rf_combine w a b Hlen). intros [= <-].
  split; simpl.
  - now rewrite !length_map.
  - rewrite combine_maps_same, Forall_forall. intros p Hp.
    rewrite in_map_iff in Hp. destruct Hp as (q & <- & Hq).
    rewrite <- surjective_pairing. apply rot_unit.
    rewrite Forall_forall in Hu. now apply Hu.
Qed.

Lemma unit_mul_snd (a b z : cvec) :
  length a = length b -> length b = length z -> Forall unit_modulus z ->
  Forall unit_spinor (combine a b) ->
  Forall unit_spinor (combine a (map2 Cmul b z)).
Proof.
  revert b z; induction a as [|a0 a IH]; intros [|b0 b] [|z0 z];
    simpl; intros Hab Hbz Hz Hu; try discriminate; try constructor.
  - inversion Hu; inversion Hz; subst.
    unfold unit_spinor, unit_modulus in *; simpl in *.
    rewrite Cnorm2_mul. rewrite H5. lra.
  - inversion Hu; inversion Hz; subst. apply IH; auto.
Qed.

Lemma unit_mul_both (a b z : cvec) :
  length a = length b -> length b = length z -> Forall unit_modulus z ->
  Forall unit_spinor (combine a b) ->
  Forall unit_spinor (combine (map2 Cmul a z) (map2 Cmul b z)).
Proof.
  revert b z; induction a as [|a0 a IH]; intros [|b0 b] [|z0 z];
    simpl; intros Hab Hbz Hz Hu; try discriminate; try constructor.
  - inversion Hu; inversion Hz; subst.
    unfold unit_spinor, unit_modulus in *; simpl in *.
    rewrite !Cnorm2_mul. rewrite H5. lra.
  - inversion Hu; inversion Hz; subst. apply IH; auto.
Qed.

Lemma unit_state_init (n : nat) : unit_state (repeat C1 n, repeat C0 n).
Proof.
  split; simpl.
  - now rewrite !repeat_length.
  - induction n; simpl; constructor; auto.
    unfold unit_spinor; csimp; ring.
Qed.

Lemma apply_rf_length (w : C) (ab ab' : cvec * cvec) :
  length (fst ab) = length (snd ab) -> apply_rf w ab = Ok ab' ->
  length (fst ab') = length (fst ab).
Proof.
  destruct ab as [a b]. intros Hlen. simpl in Hlen.
  rewrite (apply_rf_combine w a b Hlen). intros [= <-]. simpl.
  rewrite length_map, length_combine. lia.
Qed.

Lemma apply_gradient_unit (geo : geometry) (mm : nat) (ab ab' : cvec * cvec) :
  unit_state ab -> length (fst ab) = nspins geo ->
  apply_gradient geo mm ab = Ok ab' ->
  unit_state ab' /\ length (fst ab') = nspins geo.
Proof.
  destruct ab as [a b]. intros [Hlen Hu] Hn. simpl in *.
  destruct (grad_blip (- Ci) geo mm) as [z|e] eqn:Hz; simpl; [|discriminate].
  destruct (grad_blip_unit _ _ _ _ Re_neg_Ci Hz) as [Hzl Hzu].
  rewrite bzip_same_length by congruence. simpl. intros [= <-].
  split; [split|]; simpl; auto.
  - rewrite length_map2; congruence.
  - apply unit_mul_snd; auto; congruence.
Qed.

Lemma phase_accrual_unit (geo : geometry) (ab ab' : cvec * cvec) :
  unit_state ab -> length (fst ab) = nspins geo ->
  phase_accrual geo ab = Ok ab' -> unit_state ab'.
Proof.
  destruct ab as [a b]. intros [Hlen Hu] Hn. simpl in *.
  destruct (grad_total geo) as [z|e] eqn:Hz; simpl; [|discriminate].
  destruct (grad_total_unit _ _ Hz) as [Hzl Hzu].
  rewrite !bzip_same_length by congruence. simpl. intros [= <-].
  split; simpl.
  - rewrite !length_map2; congruence.
  - apply unit_mul_both; auto; congruence.
Qed.

Lemma blochsim_iter_unit (rf : cvec) (geo : geometry) (k : nat) (ab : cvec * cvec) :
  blochsim_iter rf geo k = Ok ab ->
  unit_state ab /\ length (fst ab) = nspins geo.
Proof.
  revert ab; induction k as [|k IH]; intros ab; simpl.
  - intros [= <-]. split; [apply unit_state_init|]. simpl. apply repeat_length.
  - destruct (blochsim_iter rf geo k) as [ab0|e]; simpl; [|discriminate].
    destruct (IH ab0 eq_refl) as [Hu Hn].
    unfold blochsim_step.
    destruct (apply_rf (nth k rf C0) ab0) as [ab1|e] eqn:Hrf; simpl; [|discriminate].
    intros Hg. apply (apply_gradient_unit geo k ab1); auto.
    + eapply apply_rf_unit; eauto.
    + rewrite (apply_rf_length _ _ _ (proj1 Hu) Hrf). exact Hn.
Qed.

(** C3: every state of the forward loop is made of unit spinors,
    [|a|^2 + |b|^2 = 1] for every spin: after any number of passes (so from
    the start [a = 1], [b = 0] on), between the RF rotation and the gradient
    phase of a pass, and after the final phase correction; and for inputs of
    matching shapes these states exist. *)
Theorem blochsim_unitary (rf : cvec) (geo : geometry) :
  (forall k ab, blochsim_iter rf geo k = Ok ab -> unit_state ab) /\
  (forall k ab ab', blochsim_iter rf geo k = Ok ab ->
     apply_rf (nth k rf C0) ab = Ok ab' -> unit_state ab') /\
  (forall ab, blochsim rf geo = Ok ab -> unit_state ab) /\
  (shapes_match rf geo ->
     (forall k, (k <= length rf)%nat -> exists ab, blochsim_iter rf geo k = Ok ab) /\
     exists ab, blochsim rf geo = Ok ab).
Proof.
  split; [|split; [|split]].
  - intros k ab Hit. eapply blochsim_iter_unit; eauto.
  - intros k ab ab' Hit Hrf.
    eapply apply_rf_unit; [|eassumption].
    eapply blochsim_iter_unit; eauto.
  - intros ab. unfold blochsim, blochsim_raw.
    destruct (blochsim_iter rf geo (length rf)) as [ab0|e] eqn:Hit; simpl; [|discriminate].
    intros Hp. destruct (blochsim_iter_unit _ _ _ _ Hit) as [Hu Hn].
    exact (phase_accrual_unit geo ab0 ab Hu Hn Hp).
  - intros Hs. split.
    + intros k Hk. destruct Hs as [Hn Hwf].
      rewrite blochsim_iter_spins by (auto; lia). eauto.
    + rewrite (blochsim_spins rf geo Hs). eauto.
Qed.

(** [blochsim_unitary] on one spin and one step. *)
Lemma blochsim_unitary_witness :
  shapes_match [Ci] (Geo1 [1] [2]) /\
  exists ab, blochsim [Ci] (Geo1 [1] [2]) = Ok ab /\ unit_state ab.
Proof.
  assert (Hs : shapes_match [Ci] (Geo1 [1] [2])) by (split; [reflexivity | exact I]).
  split; [exact Hs|].
  destruct (blochsim_unitary [Ci] (Geo1 [1] [2])) as (_ & _ & Hfin & Hex).
  destruct (Hex Hs) as [_ [ab Hab]].
  exists ab. split; [exact Hab | exact (Hfin ab Hab)].
Defined.

(** ** The zero pulse *)

Lemma Cabs_0 : Cabs C0 = 0.
Proof.
  unfold Cabs, Cnorm2, C0, RtoC; simpl.
  replace (0 * 0 + 0 * 0) with 0 by ring. apply sqrt_0.
Qed.

Lemma rf_C_0 : rf_C C0 = 1.
Proof.
  unfold rf_C. rewrite Cabs_0.
  replace (0 / 2) with 0 by field. apply cos_0.
Qed.

Lemma rf_S_0 : rf_S C0 = C0.
Proof.
  unfold rf_S. rewrite Cabs_0.
  replace (0 / 2) with 0 by field. rewrite sin_0.
  apply C_eq; csimp; ring.
Qed.

Lemma rot_0 (ab : C * C) : rot C0 ab = ab.
Proof.
  destruct ab as [a b]. unfold rot. rewrite rf_C_0, rf_S_0.
  f_equal; apply C_eq; csimp; ring.
Qed.

Lemma nth_all_zero (rf : cvec) (k : nat) :
  Forall (fun w => w = C0) rf -> nth k rf C0 = C0.
Proof.
  intros H. revert k. induction H as [|w rf Hw _ IH]; intros [|k]; simpl; auto.
Qed.

Lemma spin_iter_zero (rf : cvec) (s : spin) (k : nat) :
  Forall (fun w => w = C0) rf -> spin_iter rf s k = (C1, C0).
Proof.
  intros H. induction k as [|k IH]; [reflexivity|].
  simpl. rewrite IH, (nth_all_zero rf k H).
  unfold spin_step. rewrite rot_0. f_equal. apply Cmul_0_l.
Qed.

(** C7: when every RF sample is zero and the shapes match, [blochsim]
    returns [b = 0] for every spin and [a = exp(i phi)] with
    [phi = x . sum_t g[t] / 2], a number of unit modulus that depends on the
    position and the summed gradient only. *)
Theorem blochsim_zero_pulse (rf : cvec) (geo : geometry) :
  shapes_match rf geo -> Forall (fun w => w = C0) rf ->
  blochsim rf geo =
    Ok (map (fun s => expi (sp_total s / 2)) (spins geo),
        repeat C0 (nspins geo)) /\
  Forall unit_modulus (map (fun s => expi (sp_total s / 2)) (spins geo)) /\
  map sp_total (spins geo) =
    match geo with
    | Geo1 x g => map (fun xi => xi * Rsum g) x
    | GeoN x g => map (fun r => rdot r (colsum g)) (mrows x)
    end.
Proof.
  intros Hs Hz. split; [|split].
  - rewrite (blochsim_spins rf geo Hs). f_equal.
    rewrite <- length_spins, <- map_const_repeat.
    f_equal; apply map_ext; intros s; unfold spin_final;
      rewrite (spin_iter_zero rf s (length rf) Hz); simpl.
    + rewrite Cexp_half_i. apply Cmul_1_l.
    + apply Cmul_0_l.
  - rewrite Forall_forall. intros c Hc. rewrite in_map_iff in Hc.
    destruct Hc as (s & <- & _). apply Cnorm2_expi.
  - destruct geo; simpl; rewrite map_map; reflexivity.
Qed.

(** [blochsim_zero_pulse] on two spins and two steps. *)
Lemma blochsim_zero_pulse_witness :
  blochsim [C0; C0] (Geo1 [1; 2] [3; 4]) =
    Ok (map (fun s => expi (sp_total s / 2)) (spins (Geo1 [1; 2] [3; 4])),
        repeat C0 2).
Proof.
  apply (blochsim_zero_pulse [C0; C0] (Geo1 [1; 2] [3; 4])).
  - split; [reflexivity | exact I].
  - repeat constructor.
Defined.

(** ** One-dimensional arrays and their single-column form *)

Lemma colsum_as_column (g : list R) : colsum (as_column g) = [Rsum g].
Proof.
  unfold colsum, as_column; simpl.
  induction g as [|a g IH]; simpl; [reflexivity|]. now rewrite IH.
Qed.

Lemma grad_blip_column (k : C) (x g : list R) (mm : nat) :
  grad_blip k (GeoN (as_column x) (as_column g)) mm = grad_blip k (Geo1 x g) mm.
Proof.
  simpl. unfold index. rewrite nth_error_map.
  destruct (nth_error g mm) as [gm|]; simpl; [|reflexivity].
  f_equal. unfold cscale_rows; simpl. rewrite !map_map.
  apply map_ext; intros xi; simpl. now rewrite Cadd_0_r.
Qed.

Lemma grad_total_column (x g : list R) :
  grad_total (GeoN (as_column x) (as_column g)) = grad_total (Geo1 x g).
Proof.
  unfold grad_total. rewrite colsum_as_column. simpl.
  f_equal. unfold cscale_rows; simpl. rewrite !map_map.
  apply map_ext; intros xi; simpl. now rewrite Cadd_0_r.
Qed.

Lemma blochsim_iter_column (rf : cvec) (x g : list R) (k : nat) :
  blochsim_iter rf (GeoN (as_column x) (as_column g)) k =
  blochsim_iter rf (Geo1 x g) k.
Proof.
  induction k as [|k IH]; simpl.
  - now rewrite length_map.
  - rewrite IH. unfold blochsim_step, apply_gradient.
    now rewrite grad_blip_column.
Qed.

Lemma deriv_iter_column (rf : cvec) (x g : list R) (auxa : option cvec)
  (auxb af bf : cvec) (k : nat) :
  deriv_iter rf (GeoN (as_column x) (as_column g)) auxa auxb af bf k =
  deriv_iter rf (Geo1 x g) auxa auxb af bf k.
Proof.
  induction k as [|k IH]; simpl; [reflexivity|].
  rewrite IH. unfold deriv_step. now rewrite grad_blip_column.
Qed.

(** C8: a one-dimensional pair [x], [g] and the same values with a trailing
    dimension of size 1 give the same result of [blochsim] and the same
    result of [deriv], whatever the other arguments are (errors included). *)
Theorem column_equivalence (rf : cvec) (x g : list R) (auxa : option cvec)
  (auxb af bf : cvec) :
  blochsim rf (GeoN (as_column x) (as_column g)) = blochsim rf (Geo1 x g) /\
  deriv rf (GeoN (as_column x) (as_column g)) auxa auxb af bf =
  deriv rf (Geo1 x g) auxa auxb af bf.
Proof.
  split.
  - unfold blochsim, blochsim_raw, phase_accrual.
    now rewrite blochsim_iter_column, grad_total_column.
  - unfold deriv. now rewrite deriv_iter_column.
Qed.

(** ** Gradient and RF of different lengths *)

Lemma grad_blip_out (k : C) (geo : geometry) (mm : nat) :
  (nsteps geo <= mm)%nat -> grad_blip k geo mm = Err IndexError.
Proof.
  destruct geo as [x g | x g]; simpl; intros H;
    now rewrite index_out by assumption.
Qed.

Lemma blochsim_iter_overrun (rf : cvec) (geo : geometry) (k : nat) :
  wf_geo geo -> (nsteps geo < k)%nat ->
  blochsim_iter rf geo k = Err IndexError.
Proof.
  intros Hwf Hk. induction k as [|k IH]; [lia|].
  simpl. destruct (Nat.eq_dec k (nsteps geo)) as [-> | Hne].
  - rewrite blochsim_iter_spins by auto. simpl.
    unfold blochsim_step, apply_rf.
    rewrite !scal_map, !scalc_map, !bzip_map. simpl.
    now rewrite grad_blip_out by lia.
  - now rewrite IH by lia.
Qed.

(** C5, as the code has it: no shape is checked when [blochsim] is entered.
    A gradient shorter than the pulse makes [g[mm]] fail with an
    [IndexError] in pass number [len(g)] of the loop, after [len(g)] passes
    have run; a gradient longer than the pulse is accepted, and [blochsim]
    returns the spinors of the first [len(rf)] steps with the phase
    correction taken over all of [g]. *)
Theorem blochsim_length_mismatch (rf : cvec) (geo : geometry) :
  wf_geo geo ->
  ((nsteps geo < length rf)%nat ->
     blochsim rf geo = Err IndexError /\
     (exists ab, blochsim_iter rf geo (nsteps geo) = Ok ab) /\
     blochsim_iter rf geo (S (nsteps geo)) = Err IndexError) /\
  ((length rf < nsteps geo)%nat ->
     blochsim rf geo =
       Ok (map (fun s => fst (spin_final rf s)) (spins geo),
           map (fun s => snd (spin_final rf s)) (spins geo))).
Proof.
  intros Hwf. split.
  - intros Hlt. split; [|split].
    + unfold blochsim, blochsim_raw.
      now rewrite blochsim_iter_overrun by assumption.
    + rewrite blochsim_iter_spins by auto. eauto.
    + apply blochsim_iter_overrun; auto.
  - intros Hgt. apply blochsim_spins_le; auto. lia.
Qed.

(** [blochsim_length_mismatch] with two RF samples and one gradient
    sample. *)
Lemma blochsim_length_mismatch_witness :
  blochsim [C0; C0] (Geo1 [1] [1]) = Err IndexError.
Proof.
  apply (blochsim_length_mismatch [C0; C0] (Geo1 [1] [1]) I).
  simpl; lia.
Defined.

(** C5 as stated fails: one RF sample and two gradient samples differ in
    length, and [blochsim] returns a result. *)
Lemma blochsim_longer_gradient_accepted :
  nsteps (Geo1 [0] [0; 0]) <> length [C0] /\
  exists ab, blochsim [C0] (Geo1 [0] [0; 0]) = Ok ab.
Proof.
  split; [simpl; lia|].
  rewrite blochsim_spins_le; [eauto | exact I | simpl; lia].
Qed.

(** ** The RF update of the backward accumulator *)

Lemma Cabs_RtoC (r : R) : 0 <= r -> Cabs (RtoC r) = r.
Proof.
  intros H. unfold Cabs, Cnorm2, RtoC; simpl.
  replace (r * r + 0 * 0) with (r * r) by ring. now apply sqrt_square.
Qed.

Lemma Cangle_RtoC_pos (r : R) : 0 < r -> Cangle (RtoC r) = 0.
Proof.
  intros H. unfold Cangle, atan2, RtoC; simpl.
  destruct (Rlt_dec 0 r) as [_|Hn]; [|contradiction].
  replace (0 / r) with 0 by (field; lra). apply atan_0.
Qed.

Lemma expi_0 : expi 0 = C1.
Proof. unfold expi. now rewrite cos_0, sin_0. Qed.

Lemma rf_C_PI : rf_C (RtoC PI) = 0.
Proof.
  unfold rf_C. rewrite Cabs_RtoC by (generalize PI_RGT_0; lra).
  apply cos_PI2.
Qed.

Lemma rf_S_PI : rf_S (RtoC PI) = Ci.
Proof.
  unfold rf_S. rewrite Cabs_RtoC by (generalize PI_RGT_0; lra).
  rewrite Cexp_i, Cangle_RtoC_pos by apply PI_RGT_0.
  rewrite expi_0, sin_PI2. apply C_eq; csimp; ring.
Qed.

Lemma combine_swap {A B : Type} (u : list A) (v : list B) :
  combine v u = map (fun p => (snd p, fst p)) (combine u v).
Proof.
  revert v; induction u as [|a u IH]; intros [|b v]; simpl; try reflexivity.
  now rewrite IH.
Qed.

Lemma add_rf_combine (w : C) (ar br : cvec) :
  length ar = length br ->
  add_rf w (ar, br) =
  Ok (map (fun p => fst (back_rot w p)) (combine ar br),
      map (fun p => snd (back_rot w p)) (combine ar br)).
Proof.
  intros H. unfold add_rf, scal, scalc. rewrite !map_map.
  rewrite !bzip_same_length by (rewrite !length_map; auto). simpl.
  unfold map2. rewrite !combine_map_map, (combine_swap ar br), !map_map.
  f_equal; f_equal; apply map_ext; intros [p q]; reflexivity.
Qed.

(** Composing the accumulated rotation with the forward rotation of the
    step on the right gives the rotation of the updated accumulator. *)
Lemma act_back_rot (w : C) (c ab : C * C) :
  act (back_rot w c) ab = act c (rot w ab).
Proof.
  destruct c as [al be], ab as [a b]. unfold act, back_rot, rot.
  generalize (rf_C w) (rf_S w); intros cc ss.
  f_equal; apply C_eq; csimp; ring.
Qed.

Lemma back_rot_vs_rot (w : C) (ar br : C) :
  back_rot w (ar, br) = rot w (ar, br) <->
  Im (br * Cconj (rf_S w)) = 0 /\ Cnorm2 (rf_S w) * Im ar = 0.
Proof.
  unfold back_rot, rot. generalize (rf_C w) (rf_S w); intros cc [sx sy].
  destruct ar as [ax ay], br as [bx b_y]. csimp. split.
  - intros [= H1 H2 H3 H4]. split; [lra|].
    assert (Hy : ay * sy = 0) by lra.
    assert (Hx : ay * sx = 0) by lra.
    replace ((sx * sx + sy * sy) * ay) with (sx * (ay * sx) + sy * (ay * sy))
      by ring.
    rewrite Hx, Hy. ring.
  - intros [H1 H2].
    assert (Hs : (sx = 0 /\ sy = 0) \/ ay = 0).
    { destruct (Rmult_integral _ _ H2) as [Hn | Ha]; [left | now right].
      split; nra. }
    f_equal; apply C_eq; simpl; destruct Hs as [[-> ->] | ->]; nra.
Qed.

(** C4, as the code has it: the update of the backward accumulator after the
    gradient contribution is [ar' = ar C - conj(br) S],
    [br' = br C + conj(ar) S] for every spin, with [C], [S] from [rf[t]] as
    in the forward pass.  It composes the step's forward rotation into the
    accumulated rotation [[ar, -conj(br)], [br, conj(ar)]] from the right,
    and it is the formula [a C - b conj(S)], [a S + b C] of the forward pass
    exactly when [br conj(S)] is real and [S] or the imaginary part of [ar]
    is zero. *)
Theorem deriv_rf_update (w : C) (ar br : cvec) :
  length ar = length br ->
  add_rf w (ar, br) =
    Ok (map (fun p => fst (back_rot w p)) (combine ar br),
        map (fun p => snd (back_rot w p)) (combine ar br)) /\
  (forall p, back_rot w p =
     ((fst p * RtoC (rf_C w) - Cconj (snd p) * rf_S w)%C,
      (snd p * RtoC (rf_C w) + Cconj (fst p) * rf_S w)%C)) /\
  (forall c ab, act (back_rot w c) ab = act c (rot w ab)) /\
  (forall a b, back_rot w (a, b) = rot w (a, b) <->
     Im (b * Cconj (rf_S w)) = 0 /\ Cnorm2 (rf_S w) * Im a = 0).
Proof.
  intros H. split; [|split; [|split]].
  - now apply add_rf_combine.
  - now intros [a b].
  - apply act_back_rot.
  - apply back_rot_vs_rot.
Qed.

(** [deriv_rf_update] at [rf[t] = pi] on one spin with [ar = i], [br = 0]. *)
Lemma deriv_rf_update_witness :
  add_rf (RtoC PI) ([Ci], [C0]) =
    Ok (map (fun p => fst (back_rot (RtoC PI) p)) (combine [Ci] [C0]),
        map (fun p => snd (back_rot (RtoC PI) p)) (combine [Ci] [C0])).
Proof.
  apply (deriv_rf_update (RtoC PI) [Ci] [C0]). reflexivity.
Defined.

(** C4 as stated fails: at [rf[t] = pi], [ar = i], [br = 0] the code's
    update gives [br' = 1] and the forward rotation gives [b' = -1]. *)
Lemma deriv_rf_update_not_forward :
  add_rf (RtoC PI) ([Ci], [C0]) = Ok ([C0], [C1]) /\
  apply_rf (RtoC PI) ([Ci], [C0]) = Ok ([C0], [RtoC (-1)]) /\
  add_rf (RtoC PI) ([Ci], [C0]) <> apply_rf (RtoC PI) ([Ci], [C0]).
Proof.
  assert (Ha : add_rf (RtoC PI) ([Ci], [C0]) = Ok ([C0], [C1])).
  { rewrite add_rf_combine by reflexivity. simpl.
    rewrite rf_C_PI, rf_S_PI.
    do 2 f_equal; f_equal; apply C_eq; csimp; ring. }
  assert (Hf : apply_rf (RtoC PI) ([Ci], [C0]) = Ok ([C0], [RtoC (-1)])).
  { rewrite apply_rf_combine by reflexivity. simpl.
    rewrite rf_C_PI, rf_S_PI.
    do 2 f_equal; f_equal; apply C_eq; csimp; ring. }
  split; [exact Ha | split; [exact Hf|]].
  rewrite Ha, Hf. intros [= H]. lra.
Qed.

(** ** The reverse loop, spin by spin *)

Section DerivSpins.
Context {A : Type}.
Variables (l : list A) (rf : cvec) (geo : geometry).
Variables (SP : A -> spin) (UB : A -> C) (UA : option (A -> C)).
Hypothesis Hwf : wf_geo geo.
Hypothesis Hsp : spins geo = map SP l.

Lemma grad_blip_indexed (k : C) (mm : nat) :
  (mm < nsteps geo)%nat ->
  grad_blip k geo mm =
  Ok (map (fun i => Cexp (k * RtoC (nth mm (sp_phase (SP i)) 0))%C) l).
Proof.
  intros Hmm. rewrite (grad_blip_spins k geo mm Hwf Hmm), Hsp.
  now rewrite map_map.
Qed.

Lemma strip_rf_map (w : C) (f1 f2 : A -> C) :
  strip_rf w (map f1 l, map f2 l) =
  Ok (map (fun i => fst (inv_rot w (f1 i, f2 i))) l,
      map (fun i => snd (inv_rot w (f1 i, f2 i))) l).
Proof.
  unfold strip_rf, scal, scalc. rewrite !map_map, !bzip_map. reflexivity.
Qed.

Lemma add_rf_map (w : C) (f1 f2 : A -> C) :
  add_rf w (map f1 l, map f2 l) =
  Ok (map (fun i => fst (back_rot w (f1 i, f2 i))) l,
      map (fun i => snd (back_rot w (f1 i, f2 i))) l).
Proof.
  unfold add_rf, scal, scalc. rewrite !map_map, !bzip_map. reflexivity.
Qed.

Lemma drf_b_map (f1 f2 r1 r2 : A -> C) :
  drf_b (map UB l) (map f1 l) (map f2 l) (map r1 l) (map r2 l) =
  Ok (Csum (map (fun i => term_b (UB i) (f1 i, f2 i) (r1 i, r2 i)) l)).
Proof.
  unfold drf_b. rewrite !map_map.
  rewrite bzip_map; simpl. rewrite map_map, bzip_map; simpl.
  rewrite bzip_map; simpl. rewrite bzip_map; simpl.
  rewrite map_map, bzip_map; simpl. reflexivity.
Qed.

Lemma drf_a_map (U : A -> C) (f1 f2 r1 r2 : A -> C) :
  drf_a (map U l) (map f1 l) (map f2 l) (map r1 l) (map r2 l) =
  Ok (Csum (map (fun i => term_a (U i) (f1 i, f2 i) (r1 i, r2 i)) l)).
Proof.
  unfold drf_a. rewrite !map_map.
  rewrite bzip_map; simpl. rewrite map_map, bzip_map; simpl.
  rewrite bzip_map; simpl. rewrite bzip_map; simpl.
  rewrite map_map, bzip_map; simpl. reflexivity.
Qed.

Lemma deriv_step_spins (mm : nat) (F : A -> sstate) (drf : cvec) :
  (mm < nsteps geo)%nat ->
  deriv_step rf geo (option_map (fun U => map U l) UA) (map UB l) mm
             (state_arrays l F drf) =
  Ok (state_arrays l
        (fun i => dspin_step (nth mm rf C0) (nth mm (sp_phase (SP i)) 0) (F i))
        (upd mm (pass_total l SP UB UA rf mm F) drf)).
Proof.
  intros Hmm. unfold deriv_step, state_arrays.
  rewrite (grad_blip_indexed _ mm Hmm). cbn [bind d_af d_bf d_ar d_br d_drf].
  rewrite map_map, !bzip_map. cbn [bind].
  rewrite strip_rf_map. cbn [bind].
  rewrite drf_b_map. cbn [bind].
  rewrite add_rf_map.
  destruct UA as [U|]; cbn [option_map bind].
  - rewrite drf_a_map. cbn [bind]. reflexivity.
  - reflexivity.
Qed.

Lemma deriv_iter_spins (F0 : A -> sstate) (k : nat) :
  (forall i, s_ar (F0 i) = C1 /\ s_br (F0 i) = C0) ->
  (k <= length rf)%nat -> (length rf <= nsteps geo)%nat ->
  deriv_iter rf geo (option_map (fun U => map U l) UA) (map UB l)
             (map (fun i => s_af (F0 i)) l) (map (fun i => s_bf (F0 i)) l) k =
  Ok (state_arrays l (spin_states SP rf F0 k) (drf_iter l SP UB UA rf F0 k)).
Proof.
  intros H0 Hk Hn. induction k as [|k IH].
  - simpl. unfold deriv_init, state_arrays, spin_states. simpl.
    rewrite !length_map, <- !map_const_repeat. do 2 f_equal.
    + apply map_ext; intros i. now destruct (H0 i) as [-> _].
    + apply map_ext; intros i. now destruct (H0 i) as [_ ->].
  - simpl. rewrite IH by lia. cbn [bind].
    rewrite deriv_step_spins by lia. reflexivity.
Qed.
End DerivSpins.

(** ** The norm of the backward accumulator *)

Lemma back_rot_norm (w : C) (ab : C * C) :
  Cnorm2 (fst (back_rot w ab)) + Cnorm2 (snd (back_rot w ab)) =
  Cnorm2 (fst ab) + Cnorm2 (snd ab).
Proof.
  destruct ab as [a b]. generalize (rf_CS_unit w).
  unfold back_rot. generalize (rf_C w) (rf_S w). intros c s Hcs. simpl.
  transitivity ((Cnorm2 a + Cnorm2 b) * (c * c + Cnorm2 s)).
  - csimp; ring.
  - rewrite Hcs; ring.
Qed.

Lemma back_rot_unit (w : C) (ab : C * C) :
  unit_spinor ab -> unit_spinor (back_rot w ab).
Proof. unfold unit_spinor. now rewrite back_rot_norm. Qed.

Lemma add_rf_unit (w : C) (ab ab' : cvec * cvec) :
  unit_state ab -> add_rf w ab = Ok ab' ->
  unit_state ab' /\ length (fst ab') = length (fst ab).
Proof.
  destruct ab as [a b]. intros [Hlen Hu]. simpl in Hlen, Hu.
  rewrite (add_rf_combine w a b Hlen). intros [= <-].
  split; [split|]; simpl.
  - now rewrite !length_map.
  - rewrite combine_maps_same, Forall_forall. intros p Hp.
    rewrite in_map_iff in Hp. destruct Hp as (q & <- & Hq).
    rewrite <- surjective_pairing. apply back_rot_unit.
    rewrite Forall_forall in Hu. now apply Hu.
  - rewrite length_map, length_combine. lia.
Qed.

Ltac bind_inv H :=
  match type of H with
  | bind ?m _ = Ok _ =>
      let E := fresh "E" in
      destruct m eqn:E; cbn [bind] in H; [|discriminate H]
  end.

Lemma deriv_step_unit (rf : cvec) (geo : geometry) (auxa : option cvec)
  (auxb : cvec) (mm : nat) (st st' : dstate) :
  unit_state (d_ar st, d_br st) -> length (d_ar st) = nspins geo ->
  deriv_step rf geo auxa auxb mm st = Ok st' ->
  unit_state (d_ar st', d_br st') /\ length (d_ar st') = nspins geo.
Proof.
  intros [Hlen Hu] Hn H. simpl in Hlen, Hu. unfold deriv_step in H.
  bind_inv H. rename a into z.
  destruct (grad_blip_unit _ _ _ _ Re_Ci_half E) as [Hzl Hzu].
  do 2 bind_inv H.
  rewrite bzip_same_length in H by congruence. cbn [bind] in H.
  rewrite bzip_same_length in H by congruence. cbn [bind] in H.
  bind_inv H. destruct a1 as [af' bf'].
  do 2 bind_inv H. bind_inv H. destruct a3 as [ar' br'].
  injection H as <-. simpl.
  assert (Hu1 : unit_state (map2 Cmul (d_ar st) z, map2 Cmul (d_br st) z)).
  { split; simpl.
    - rewrite !length_map2; congruence.
    - apply unit_mul_both; auto; congruence. }
  match goal with
  | Hadd : add_rf _ _ = Ok _ |- _ =>
      destruct (add_rf_unit _ _ _ Hu1 Hadd) as [Hu2 Hl2]
  end.
  simpl in Hl2.
  split; [exact Hu2|]. simpl. rewrite Hl2, length_map2; congruence.
Qed.

Lemma deriv_iter_unit (rf : cvec) (geo : geometry) (auxa : option cvec)
  (auxb af bf : cvec) (k : nat) (st : dstate) :
  length af = nspins geo -> length bf = nspins geo ->
  deriv_iter rf geo auxa auxb af bf k = Ok st ->
  unit_state (d_ar st, d_br st) /\ length (d_ar st) = nspins geo.
Proof.
  intros Ha Hb. revert st. induction k as [|k IH]; intros st; simpl.
  - intros [= <-]. simpl. rewrite Ha, Hb. split; [apply unit_state_init|].
    apply repeat_length.
  - destruct (deriv_iter rf geo auxa auxb af bf k) as [st0|e]; simpl; [|discriminate].
    destruct (IH st0 eq_refl) as [Hu Hn].
    now apply deriv_step_unit.
Qed.

(** ** The reverse loop on arrays of fitting shapes *)

Lemma list_as_map {A : Type} (u : list A) (d : A) :
  u = map (fun i => nth i u d) (seq 0 (length u)).
Proof.
  induction u as [|a u IH]; simpl; [reflexivity|].
  f_equal. rewrite <- seq_shift, map_map. exact IH.
Qed.

Lemma list_as_map_n {A : Type} (u : list A) (d : A) (n : nat) :
  length u = n -> map (fun i => nth i u d) (seq 0 n) = u.
Proof. intros <-. symmetry. apply list_as_map. Qed.

Lemma deriv_iter_indexed (rf : cvec) (geo : geometry) (auxa : option cvec)
  (auxb af bf : cvec) (k : nat) :
  deriv_shapes rf geo auxa auxb af bf -> (k <= length rf)%nat ->
  deriv_iter rf geo auxa auxb af bf k =
  Ok (state_arrays (seq 0 (nspins geo)) (deriv_states rf geo af bf k)
                   (deriv_drf rf geo auxa auxb af bf k)).
Proof.
  intros (Hwf & Hn & Haf & Hbf & Hub & Hua) Hk.
  unfold deriv_states, deriv_drf.
  rewrite <- (deriv_iter_spins (seq 0 (nspins geo)) rf geo (spin_at geo)
                (entry auxb) (option_map entry auxa) Hwf); auto.
  - f_equal.
    + destruct auxa as [ua|]; simpl; [|reflexivity].
      f_equal. symmetry. now apply list_as_map_n.
    + symmetry. now apply list_as_map_n.
    + symmetry. now apply list_as_map_n.
    + symmetry. now apply list_as_map_n.
  - symmetry. apply list_as_map_n. apply length_spins.
Qed.

Lemma deriv_indexed (rf : cvec) (geo : geometry) (auxa : option cvec)
  (auxb af bf : cvec) :
  deriv_shapes rf geo auxa auxb af bf ->
  deriv rf geo auxa auxb af bf =
  Ok (deriv_drf rf geo auxa auxb af bf (length rf)).
Proof.
  intros Hs. unfold deriv. now rewrite deriv_iter_indexed by auto.
Qed.

(** C10: in a call of [deriv] with one entry per spin in [af] and [bf], the
    backward accumulator satisfies [|ar|^2 + |br|^2 = 1] for every spin
    after every pass of the reverse loop (and at its start, [ar = 1],
    [br = 0]); the gradient phase [ar z], [br z] and the update
    [ar C - conj(br) S], [br C + conj(ar) S] both keep the norm.  With
    fitting shapes every pass is reached. *)
Theorem deriv_accumulator_unit (rf : cvec) (geo : geometry)
  (auxa : option cvec) (auxb af bf : cvec) :
  length af = nspins geo -> length bf = nspins geo ->
  (forall k st, deriv_iter rf geo auxa auxb af bf k = Ok st ->
     unit_state (d_ar st, d_br st)) /\
  (forall phi s, unit_spinor (s_ar s, s_br s) -> unit_spinor (blipped phi s)) /\
  (forall w ab, unit_spinor ab -> unit_spinor (back_rot w ab)) /\
  (deriv_shapes rf geo auxa auxb af bf ->
   forall k, (k <= length rf)%nat ->
     exists st, deriv_iter rf geo auxa auxb af bf k = Ok st).
Proof.
  intros Ha Hb. split; [|split; [|split]].
  - intros k st H. now apply (deriv_iter_unit _ _ _ _ _ _ _ _ Ha Hb H).
  - intros phi s. unfold unit_spinor, blipped, half_blip. simpl.
    rewrite !Cnorm2_mul, Cnorm2_exp_imag by (apply Re_scale, Re_Ci_half).
    lra.
  - apply back_rot_unit.
  - intros Hs k Hk. rewrite deriv_iter_indexed by auto. eauto.
Qed.

(** [deriv_accumulator_unit] on two spins and two steps. *)
Lemma deriv_accumulator_unit_witness :
  exists st,
    deriv_iter [Ci; C1] (Geo1 [1; 2] [3; 4]) None [C1; Ci] [C1; C1] [C0; C0] 2
      = Ok st /\
    unit_state (d_ar st, d_br st).
Proof.
  destruct (deriv_accumulator_unit [Ci; C1] (Geo1 [1; 2] [3; 4]) None
              [C1; Ci] [C1; C1] [C0; C0] eq_refl eq_refl) as (Hu & _ & _ & Hex).
  destruct (Hex (conj I (conj (le_n 2) (conj eq_refl (conj eq_refl (conj eq_refl I))))) 2%nat (le_n 2))
    as [st Hst].
  exists st. split; [exact Hst | exact (Hu 2%nat st Hst)].
Defined.

(** ** A missing [auxa] *)

Lemma term_a_0 (f r : C * C) : term_a C0 f r = C0.
Proof. unfold term_a. apply C_eq; csimp; ring. Qed.

Lemma Csum_zero {A : Type} (h : A -> C) (l : list A) :
  (forall i, h i = C0) -> Csum (map h l) = C0.
Proof.
  intros H. induction l as [|a l IH]; simpl; [reflexivity|].
  rewrite H, IH. apply Cadd_0_r.
Qed.

Lemma entry_zeros (n i : nat) : entry (repeat C0 n) i = C0.
Proof.
  unfold entry. revert i. induction n as [|n IH]; intros [|i]; simpl; auto.
Qed.

Lemma pass_total_zeros (l : list nat) (SP : nat -> spin) (UB : nat -> C)
  (rf : cvec) (mm n : nat) (F : nat -> sstate) :
  pass_total l SP UB (Some (entry (repeat C0 n))) rf mm F =
  pass_total l SP UB None rf mm F.
Proof.
  unfold pass_total.
  match goal with
  | |- (_ + Csum (map ?h l))%C = _ => rewrite (Csum_zero h l)
  end.
  - apply Cadd_0_r.
  - intros i. rewrite entry_zeros. apply term_a_0.
Qed.

Lemma deriv_drf_zeros (rf : cvec) (geo : geometry) (auxb af bf : cvec) (k : nat) :
  deriv_drf rf geo (Some (repeat C0 (nspins geo))) auxb af bf k =
  deriv_drf rf geo None auxb af bf k.
Proof.
  unfold deriv_drf. induction k as [|k IH]; simpl; [reflexivity|].
  simpl in IH. rewrite IH. f_equal. apply pass_total_zeros.
Qed.

(** C9: with [auxa] absent and the other shapes fitting, [deriv] raises no
    error, and it returns what it returns when [auxa] is the array of
    zeros: only the terms that carry [auxa] are left out. *)
Theorem deriv_without_auxa (rf : cvec) (geo : geometry) (auxb af bf : cvec) :
  deriv_shapes rf geo None auxb af bf ->
  exists drf,
    deriv rf geo None auxb af bf = Ok drf /\
    deriv rf geo (Some (repeat C0 (nspins geo))) auxb af bf = Ok drf.
Proof.
  intros Hs. exists (deriv_drf rf geo None auxb af bf (length rf)). split.
  - now apply deriv_indexed.
  - rewrite deriv_indexed.
    + now rewrite deriv_drf_zeros.
    + destruct Hs as (Hwf & Hn & Haf & Hbf & Hub & _).
      repeat split; auto. apply repeat_length.
Qed.

(** [deriv_without_auxa] on two spins and two steps. *)
Lemma deriv_without_auxa_witness :
  exists drf,
    deriv [Ci; C1] (Geo1 [1; 2] [3; 4]) None [C1; Ci] [C1; C1] [C0; C0] = Ok drf /\
    deriv [Ci; C1] (Geo1 [1; 2] [3; 4]) (Some [C0; C0]) [C1; Ci] [C1; C1] [C0; C0]
      = Ok drf.
Proof.
  apply (deriv_without_auxa [Ci; C1] (Geo1 [1; 2] [3; 4]) [C1; Ci] [C1; C1] [C0; C0]).
  exact (conj I (conj (le_n 2) (conj eq_refl (conj eq_refl (conj eq_refl I))))).
Defined.

(** ** Seeds of the wrong length *)

Lemma bzip_bad (f : C -> C -> C) (u v : cvec) :
  length u <> length v -> length u <> 1%nat -> length v <> 1%nat ->
  bzip f u v = Err ValueError.
Proof.
  intros Huv Hu Hv. unfold bzip.
  rewrite (proj2 (Nat.eqb_neq _ _) Huv).
  destruct u as [|a [|a' u]], v as [|b [|b' v]]; simpl in *;
    try reflexivity; congruence.
Qed.

Lemma deriv_init_arrays (rf : cvec) (geo : geometry) (af bf : cvec) :
  length af = nspins geo -> length bf = nspins geo ->
  deriv_init rf af bf =
  state_arrays (seq 0 (nspins geo)) (init_at af bf) (repeat C0 (length rf)).
Proof.
  intros Ha Hb. unfold deriv_init, state_arrays, init_at. simpl.
  rewrite !map_const_repeat, length_seq, Ha, Hb.
  f_equal; symmetry; now apply list_as_map_n.
Qed.

Lemma spins_indexed (geo : geometry) :
  spins geo = map (spin_at geo) (seq 0 (nspins geo)).
Proof. symmetry. apply list_as_map_n, length_spins. Qed.

Lemma deriv_iter_err (rf : cvec) (geo : geometry) (auxa : option cvec)
  (auxb af bf : cvec) (e : error) (k k' : nat) :
  deriv_iter rf geo auxa auxb af bf k = Err e -> (k <= k')%nat ->
  deriv_iter rf geo auxa auxb af bf k' = Err e.
Proof.
  intros H Hk. induction Hk as [|k' Hk IH]; [exact H|].
  simpl. now rewrite IH.
Qed.

Lemma first_pass_bad_auxb (rf : cvec) (geo : geometry) (auxa : option cvec)
  (auxb af bf : cvec) (mm : nat) :
  wf_geo geo -> (mm < nsteps geo)%nat ->
  length af = nspins geo -> length bf = nspins geo -> nspins geo <> 1%nat ->
  length auxb <> nspins geo -> length auxb <> 1%nat ->
  deriv_step rf geo auxa auxb mm (deriv_init rf af bf) = Err ValueError.
Proof.
  intros Hwf Hmm Ha Hb Hn1 Hub Hub1.
  rewrite (deriv_init_arrays rf geo af bf Ha Hb).
  unfold deriv_step, state_arrays.
  rewrite (grad_blip_indexed _ geo (spin_at geo) Hwf (spins_indexed geo) _ mm Hmm).
  cbn [bind d_af d_bf d_ar d_br d_drf].
  rewrite map_map, !bzip_map. cbn [bind].
  rewrite strip_rf_map. cbn [bind].
  unfold drf_b. rewrite !map_map, bzip_map. cbn [bind].
  rewrite bzip_bad; [reflexivity | | | assumption];
    rewrite !length_map, length_seq; congruence.
Qed.

Lemma first_pass_bad_auxa (rf : cvec) (geo : geometry) (ua auxb af bf : cvec)
  (mm : nat) :
  wf_geo geo -> (mm < nsteps geo)%nat ->
  length af = nspins geo -> length bf = nspins geo -> nspins geo <> 1%nat ->
  length auxb = nspins geo ->
  length ua <> nspins geo -> length ua <> 1%nat ->
  deriv_step rf geo (Some ua) auxb mm (deriv_init rf af bf) = Err ValueError.
Proof.
  intros Hwf Hmm Ha Hb Hn1 Hub Hua Hua1.
  rewrite (deriv_init_arrays rf geo af bf Ha Hb).
  rewrite <- (list_as_map_n auxb C0 (nspins geo) Hub) at 1.
  unfold deriv_step, state_arrays.
  rewrite (grad_blip_indexed _ geo (spin_at geo) Hwf (spins_indexed geo) _ mm Hmm).
  cbn [bind d_af d_bf d_ar d_br d_drf].
  rewrite map_map, !bzip_map. cbn [bind].
  rewrite strip_rf_map. cbn [bind].
  rewrite (drf_b_map (seq 0 (nspins geo)) (fun i => nth i auxb C0)). cbn [bind].
  unfold drf_a. rewrite !map_map, bzip_map. cbn [bind].
  rewrite bzip_bad; [reflexivity | | | assumption];
    rewrite !length_map, length_seq; congruence.
Qed.

(** C6, as the code has it: [deriv] checks no shape when it is entered.  A
    seed whose length is neither the spin count nor 1 makes the first pass
    of the loop fail with a [ValueError] when it is multiplied in; with an
    empty pulse the loop is never entered and [deriv] returns the empty
    array whatever the seeds are. *)
Theorem deriv_seed_mismatch (rf : cvec) (geo : geometry) (auxa : option cvec)
  (auxb af bf : cvec) :
  wf_geo geo -> (length rf <= nsteps geo)%nat ->
  length af = nspins geo -> length bf = nspins geo ->
  (rf = [] -> deriv rf geo auxa auxb af bf = Ok []) /\
  (rf <> [] -> nspins geo <> 1%nat ->
   length auxb <> nspins geo -> length auxb <> 1%nat ->
   deriv_iter rf geo auxa auxb af bf 1 = Err ValueError /\
   deriv rf geo auxa auxb af bf = Err ValueError) /\
  (rf <> [] -> nspins geo <> 1%nat -> length auxb = nspins geo ->
   forall ua, auxa = Some ua ->
   length ua <> nspins geo -> length ua <> 1%nat ->
   deriv_iter rf geo auxa auxb af bf 1 = Err ValueError /\
   deriv rf geo auxa auxb af bf = Err ValueError).
Proof.
  intros Hwf Hn Ha Hb.
  assert (Hpos : rf <> [] -> (1 <= length rf)%nat).
  { destruct rf; [congruence | simpl; lia]. }
  split; [|split].
  - intros ->. reflexivity.
  - intros Hrf Hn1 Hub Hub1.
    assert (H1 : deriv_iter rf geo auxa auxb af bf 1 = Err ValueError).
    { simpl. apply first_pass_bad_auxb; auto. specialize (Hpos Hrf). lia. }
    split; [exact H1|]. unfold deriv.
    now rewrite (deriv_iter_err _ _ _ _ _ _ _ _ _ H1 (Hpos Hrf)).
  - intros Hrf Hn1 Hub ua -> Hua Hua1.
    assert (H1 : deriv_iter rf geo (Some ua) auxb af bf 1 = Err ValueError).
    { simpl. apply first_pass_bad_auxa; auto. specialize (Hpos Hrf). lia. }
    split; [exact H1|]. unfold deriv.
    now rewrite (deriv_iter_err _ _ _ _ _ _ _ _ _ H1 (Hpos Hrf)).
Qed.

(** [deriv_seed_mismatch] with two spins and an [auxa] of three entries. *)
Lemma deriv_seed_mismatch_witness :
  deriv [Ci] (Geo1 [1; 2] [3]) (Some [C1; C1; C1]) [C1; Ci] [C1; C1] [C0; C0]
  = Err ValueError.
Proof.
  destruct (deriv_seed_mismatch [Ci] (Geo1 [1; 2] [3]) (Some [C1; C1; C1])
              [C1; Ci] [C1; C1] [C0; C0] I (le_n 1) eq_refl eq_refl)
    as (_ & _ & H).
  apply (H ltac:(discriminate) ltac:(discriminate) eq_refl [C1; C1; C1] eq_refl
           ltac:(discriminate) ltac:(discriminate)).
Defined.

(** C6 as stated fails: with two spins an [auxb] of one entry does not match
    the spin count, and [deriv] broadcasts it and returns a result; with an
    empty pulse an [auxa] of another length than [auxb] is never looked
    at. *)
Lemma deriv_seed_mismatch_accepted :
  (length [C1] <> nspins (Geo1 [0; 0] [0]) /\
   exists drf,
     deriv [C0] (Geo1 [0; 0] [0]) None [C1] [C1; C1] [C0; C0] = Ok drf) /\
  (length [C1; C1] <> length [C1] /\
   deriv [] (Geo1 [0] []) (Some [C1; C1]) [C1] [C1] [C0] = Ok []).
Proof.
  split; split.
  - simpl; lia.
  - unfold deriv. simpl. eexists. reflexivity.
  - simpl; lia.
  - reflexivity.
Qed.

(** ** The symmetric form of the forward pass *)

Lemma expi_add (a b : R) : (expi a * expi b)%C = expi (a + b).
Proof.
  unfold expi. apply C_eq; csimp; [rewrite cos_plus | rewrite sin_plus]; ring.
Qed.

Lemma expi_conj (a : R) : Cconj (expi a) = expi (- a).
Proof.
  unfold expi, Cconj; simpl. now rewrite cos_neg, sin_neg.
Qed.

Lemma half_blip_expi (phi : R) : half_blip phi = expi (phi / 2).
Proof. apply Cexp_half_i. Qed.

Lemma half_blip_unit (phi : R) : (half_blip phi * Cconj (half_blip phi))%C = C1.
Proof.
  rewrite half_blip_expi, expi_conj, expi_add.
  replace (phi / 2 + - (phi / 2)) with 0 by field. apply expi_0.
Qed.

Lemma half_blip_add (p q : R) :
  (half_blip p * half_blip q)%C = half_blip (p + q).
Proof.
  rewrite !half_blip_expi, expi_add. f_equal. field.
Qed.

Lemma half_blip_0 : half_blip 0 = C1.
Proof.
  rewrite half_blip_expi. replace (0 / 2) with 0 by field. apply expi_0.
Qed.

Lemma rot_scale2 (w c : C) (ab : C * C) :
  rot w (scale2 c ab) = scale2 c (rot w ab).
Proof.
  destruct ab as [a b]. unfold rot, scale2.
  generalize (rf_C w) (rf_S w); intros cc ss. simpl.
  f_equal; apply C_eq; csimp; ring.
Qed.

Lemma ref_step_scale2 (c : C) (ab : C * C) (wphi : C * R) :
  ref_step (scale2 c ab) wphi = scale2 c (ref_step ab wphi).
Proof.
  destruct wphi as [w phi]. rewrite <- !spin_step_ref. unfold spin_step.
  rewrite rot_scale2.
  destruct (rot w ab) as [a b]. unfold scale2; simpl.
  f_equal. now rewrite Cmul_assoc.
Qed.

Lemma sym_step_ref (ab : C * C) (wphi : C * R) :
  sym_step ab wphi = scale2 (half_blip (snd wphi)) (ref_step ab wphi).
Proof.
  destruct wphi as [w phi]. rewrite <- spin_step_ref.
  unfold sym_step, spin_step, scale2. simpl.
  destruct (rot w ab) as [a b]. simpl. f_equal.
  - apply Cmul_comm.
  - rewrite Cmul_assoc, (Cmul_comm _ b), <- Cmul_assoc. f_equal.
    rewrite half_blip_expi, Cexp_neg_i, expi_conj, expi_add. f_equal. field.
Qed.

Lemma scale2_scale2 (c d : C) (ab : C * C) :
  scale2 c (scale2 d ab) = scale2 (c * d) ab.
Proof. unfold scale2; simpl. now rewrite !Cmul_assoc. Qed.

Lemma scale2_1 (ab : C * C) : scale2 C1 ab = ab.
Proof. destruct ab. unfold scale2; simpl. now rewrite !Cmul_1_l. Qed.

Lemma Rsum_app (u v : list R) : Rsum (u ++ v) = Rsum u + Rsum v.
Proof. induction u as [|a u IH]; simpl; [ring | rewrite IH; ring]. Qed.

(** The symmetric pass is the loop of [blochsim] times the accrued phase. *)
Lemma sym_fwd_ref (steps : list (C * R)) (ab : C * C) :
  sym_fwd steps ab =
  scale2 (half_blip (Rsum (map snd steps))) (fold_left ref_step steps ab).
Proof.
  unfold sym_fwd. induction steps as [|x steps IH] using rev_ind.
  - simpl. now rewrite half_blip_0, scale2_1.
  - rewrite !fold_left_app. simpl. rewrite IH, sym_step_ref.
    rewrite ref_step_scale2, scale2_scale2. f_equal.
    rewrite map_app, Rsum_app. simpl.
    rewrite half_blip_add. f_equal. ring.
Qed.

Lemma map_snd_combine {A B : Type} (u : list A) (v : list B) :
  length u = length v -> map snd (combine u v) = v.
Proof.
  revert v; induction u as [|a u IH]; intros [|b v]; simpl; intros H;
    try discriminate; try reflexivity.
  f_equal. apply IH. lia.
Qed.

Lemma spin_final_sym (rf : cvec) (s : spin) :
  length (sp_phase s) = length rf -> sp_total s = Rsum (sp_phase s) ->
  spin_final rf s = sym_fwd (combine rf (sp_phase s)) (C1, C0).
Proof.
  intros Hlen Htot. rewrite sym_fwd_ref, map_snd_combine by congruence.
  unfold spin_final. rewrite spin_iter_fold by (auto; lia).
  rewrite firstn_all2 by (rewrite length_combine; lia).
  destruct (fold_left ref_step (combine rf (sp_phase s)) (C1, C0)) as [a b].
  unfold scale2, half_blip. simpl. rewrite Htot.
  f_equal; apply Cmul_comm.
Qed.

(** ** A list of steps as one rotation *)

Lemma act_id (ab : C * C) : act (C1, C0) ab = ab.
Proof. destruct ab as [a b]. unfold act. f_equal; apply C_eq; csimp; ring. Qed.

Lemma act_scale2_blip (phi : R) (c ab : C * C) :
  act (scale2 (half_blip phi) c) ab =
  act c ((fst ab * half_blip phi)%C, (snd ab * Cconj (half_blip phi))%C).
Proof.
  destruct c as [al be], ab as [a b]. unfold act, scale2. simpl.
  generalize (half_blip phi); intros z.
  f_equal; apply C_eq; csimp; ring.
Qed.

Lemma act_col_step (wphi : C * R) (c ab : C * C) :
  act (back_rot (fst wphi) (scale2 (half_blip (snd wphi)) c)) ab =
  act c (sym_step ab wphi).
Proof.
  rewrite act_back_rot, act_scale2_blip. unfold sym_step.
  now destruct (rot (fst wphi) ab).
Qed.

Lemma sym_fwd_act (steps : list (C * R)) (ab : C * C) :
  sym_fwd steps ab = act (col steps) ab.
Proof.
  revert ab. induction steps as [|x steps IH]; intros ab.
  - symmetry. apply act_id.
  - change (sym_fwd steps (sym_step ab x) =
            act (back_rot (fst x) (scale2 (half_blip (snd x)) (col steps))) ab).
    rewrite act_col_step. apply IH.
Qed.

Lemma sym_fwd_app (pre post : list (C * R)) (ab : C * C) :
  sym_fwd (pre ++ post) ab = sym_fwd post (sym_fwd pre ab).
Proof. apply fold_left_app. Qed.

(** ** The reverse loop unwinds the symmetric pass *)

Lemma inv_rot_rot (w : C) (ab : C * C) : inv_rot w (rot w ab) = ab.
Proof.
  destruct ab as [[ax ay] [bx b_y]]. generalize (rf_CS_unit w).
  unfold inv_rot, rot. generalize (rf_C w) (rf_S w). intros c [sx sy] H.
  csimp. f_equal; apply C_eq; simpl.
  - transitivity (ax * (c * c + (sx * sx + sy * sy))); [ring | rewrite H; ring].
  - transitivity (ay * (c * c + (sx * sx + sy * sy))); [ring | rewrite H; ring].
  - transitivity (bx * (c * c + (sx * sx + sy * sy))); [ring | rewrite H; ring].
  - transitivity (b_y * (c * c + (sx * sx + sy * sy))); [ring | rewrite H; ring].
Qed.

Lemma unblip_fst (phi : R) (a : C) :
  (a * half_blip phi * Cconj (half_blip phi))%C = a.
Proof. now rewrite <- Cmul_assoc, half_blip_unit, Cmul_1_r. Qed.

Lemma unblip_snd (phi : R) (b : C) :
  (b * Cconj (half_blip phi) * half_blip phi)%C = b.
Proof.
  now rewrite <- Cmul_assoc, (Cmul_comm (Cconj _)), half_blip_unit, Cmul_1_r.
Qed.

Lemma unwind_sym_step (w : C) (phi : R) (ab : C * C) (ar br : C) :
  unwind w phi (mkS (fst (sym_step ab (w, phi))) (snd (sym_step ab (w, phi))) ar br)
  = ab.
Proof.
  unfold unwind, sym_step. cbn [fst snd s_af s_bf].
  destruct (rot w ab) as [a b] eqn:E. cbn [fst snd].
  rewrite unblip_fst, unblip_snd, <- E. apply inv_rot_rot.
Qed.

Lemma blipped_scale2 (phi : R) (f c : C * C) :
  blipped phi (mkS (fst f) (snd f) (fst c) (snd c)) = scale2 (half_blip phi) c.
Proof.
  unfold blipped, scale2. simpl. f_equal; apply Cmul_comm.
Qed.

Lemma skipn_cons_nth {A : Type} (l : list A) (k : nat) (d : A) :
  (k < length l)%nat -> skipn k l = nth k l d :: skipn (S k) l.
Proof.
  revert k; induction l as [|a l IH]; intros k Hk; simpl in Hk; [lia|].
  destruct k as [|k]; [reflexivity|].
  change (skipn k l = nth k l d :: skipn (S k) l). apply IH. lia.
Qed.

Lemma dspin_step_unwound (rf : cvec) (phis : list R) (k : nat) :
  length phis = length rf -> (k < length rf)%nat ->
  dspin_step (nth (length rf - 1 - k) rf C0) (nth (length rf - 1 - k) phis 0)
             (unwound (combine rf phis) k) =
  unwound (combine rf phis) (S k).
Proof.
  intros Hlen Hk. unfold unwound.
  assert (Hc : length (combine rf phis) = length rf)
    by (rewrite length_combine; lia).
  rewrite Hc.
  set (mm := (length rf - 1 - k)%nat).
  replace (length rf - k)%nat with (S mm) by (unfold mm; lia).
  replace (length rf - S k)%nat with mm by (unfold mm; lia).
  assert (Hmm : (mm < length (combine rf phis))%nat) by (unfold mm; lia).
  rewrite (firstn_snoc _ mm (C0, 0) Hmm), sym_fwd_app.
  rewrite (skipn_cons_nth _ mm (C0, 0) Hmm).
  rewrite combine_nth by congruence.
  set (w := nth mm rf C0). set (phi := nth mm phis 0).
  set (f0 := sym_fwd (firstn mm (combine rf phis)) (C1, C0)).
  set (c0 := col (skipn (S mm) (combine rf phis))).
  change (sym_fwd [(w, phi)] f0) with (sym_step f0 (w, phi)).
  change (col ((w, phi) :: skipn (S mm) (combine rf phis)))
    with (back_rot w (scale2 (half_blip phi) c0)).
  unfold dspin_step.
  rewrite unwind_sym_step, blipped_scale2. reflexivity.
Qed.

Lemma dspin_iter_unwound (rf : cvec) (phis : list R) (k : nat) :
  length phis = length rf -> (k <= length rf)%nat ->
  dspin_iter rf phis (unwound (combine rf phis) 0) k =
  unwound (combine rf phis) k.
Proof.
  intros Hlen. induction k as [|k IH]; intros Hk; [reflexivity|].
  simpl. rewrite IH by lia. apply dspin_step_unwound; auto.
Qed.

Lemma unwound_0 (steps : list (C * R)) :
  unwound steps 0 =
  mkS (fst (sym_fwd steps (C1, C0))) (snd (sym_fwd steps (C1, C0))) C1 C0.
Proof.
  unfold unwound. rewrite Nat.sub_0_r, firstn_all, skipn_all. reflexivity.
Qed.

(** ** The terms of [drf] as derivatives of the rotation *)

Lemma term_b_re (ub : C) (f r : C * C) :
  Re (term_b ub f r) = Re (Cconj ub * snd (act r (rot_du f))) / 2.
Proof.
  destruct f as [[px py] [qx qy]], r as [[ax ay] [bx b_y]], ub as [ux uy].
  unfold term_b, act, rot_du. csimp. field.
Qed.

Lemma term_b_im (ub : C) (f r : C * C) :
  Im (term_b ub f r) = Re (Cconj ub * snd (act r (rot_dv f))) / 2.
Proof.
  destruct f as [[px py] [qx qy]], r as [[ax ay] [bx b_y]], ub as [ux uy].
  unfold term_b, act, rot_dv. csimp. field.
Qed.

Lemma term_a_re (ua : C) (f r : C * C) :
  Re (term_a ua f r) = Re (Cconj ua * fst (act r (rot_du f))) / 2.
Proof.
  destruct f as [[px py] [qx qy]], r as [[ax ay] [bx b_y]], ua as [ux uy].
  unfold term_a, act, rot_du. csimp. field.
Qed.

Lemma term_a_im (ua : C) (f r : C * C) :
  Im (term_a ua f r) = Re (Cconj ua * fst (act r (rot_dv f))) / 2.
Proof.
  destruct f as [[px py] [qx qy]], r as [[ax ay] [bx b_y]], ua as [ux uy].
  unfold term_a, act, rot_dv. csimp. field.
Qed.

(** ** The rotation coefficients along the two axes *)

Lemma Cabs_real (u : R) : Cabs (mkC u 0) = Rabs u.
Proof.
  unfold Cabs, Cnorm2; simpl.
  replace (u * u + 0 * 0) with (Rsqr u) by (unfold Rsqr; ring).
  apply sqrt_Rsqr_abs.
Qed.

Lemma Cabs_imag (v : R) : Cabs (mkC 0 v) = Rabs v.
Proof.
  unfold Cabs, Cnorm2; simpl.
  replace (0 * 0 + v * v) with (Rsqr v) by (unfold Rsqr; ring).
  apply sqrt_Rsqr_abs.
Qed.

Lemma cos_half_abs (u : R) : cos (Rabs u / 2) = cos (u / 2).
Proof.
  unfold Rabs. destruct (Rcase_abs u); [|reflexivity].
  replace (- u / 2) with (- (u / 2)) by field. apply cos_neg.
Qed.

Lemma expi_PI : expi PI = RtoC (-1).
Proof. unfold expi, RtoC. now rewrite cos_PI, sin_PI. Qed.

Lemma expi_PI2 : expi (PI / 2) = Ci.
Proof. unfold expi, Ci. now rewrite cos_PI2, sin_PI2. Qed.

Lemma expi_neg_PI2 : expi (- (PI / 2)) = (- Ci)%C.
Proof.
  unfold expi, Ci, Cneg; simpl.
  rewrite cos_neg, sin_neg, cos_PI2, sin_PI2. f_equal; ring.
Qed.

Lemma rf_C_real (u : R) : rf_C (mkC u 0) = cos (u / 2).
Proof. unfold rf_C. rewrite Cabs_real. apply cos_half_abs. Qed.

Lemma rf_C_imag (v : R) : rf_C (mkC 0 v) = cos (v / 2).
Proof. unfold rf_C. rewrite Cabs_imag. apply cos_half_abs. Qed.

Lemma rf_S_real (u : R) : rf_S (mkC u 0) = mkC 0 (sin (u / 2)).
Proof.
  unfold rf_S. rewrite Cexp_i, Cabs_real.
  unfold Cangle, atan2; simpl.
  destruct (Rlt_dec 0 u) as [Hpos | Hnpos].
  - replace (0 / u) with 0 by (field; lra).
    rewrite atan_0, expi_0, Rabs_pos_eq by lra.
    apply C_eq; csimp; ring.
  - destruct (Rlt_dec u 0) as [Hneg | Hnneg].
    + destruct (Rle_dec 0 0) as [_ | Hc]; [|lra].
      replace (0 / u) with 0 by (field; lra).
      rewrite atan_0, Rplus_0_l, expi_PI, Rabs_left by lra.
      replace (- u / 2) with (- (u / 2)) by field. rewrite sin_neg.
      apply C_eq; csimp; ring.
    + assert (u = 0) by lra. subst u.
      destruct (Rlt_dec 0 0) as [Hc | _]; [lra|].
      rewrite expi_0, Rabs_R0. replace (0 / 2) with 0 by field.
      rewrite sin_0. apply C_eq; csimp; ring.
Qed.

Lemma rf_S_imag (v : R) : rf_S (mkC 0 v) = mkC (- sin (v / 2)) 0.
Proof.
  unfold rf_S. rewrite Cexp_i, Cabs_imag.
  unfold Cangle, atan2; simpl.
  destruct (Rlt_dec 0 0) as [Hc | _]; [lra|].
  destruct (Rlt_dec 0 v) as [Hpos | Hnpos].
  - rewrite expi_PI2, Rabs_pos_eq by lra. apply C_eq; csimp; ring.
  - destruct (Rlt_dec v 0) as [Hneg | Hnneg].
    + rewrite expi_neg_PI2, Rabs_left by lra.
      replace (- v / 2) with (- (v / 2)) by field. rewrite sin_neg.
      apply C_eq; csimp; ring.
    + assert (v = 0) by lra. subst v.
      rewrite expi_0, Rabs_R0. replace (0 / 2) with 0 by field.
      rewrite sin_0. apply C_eq; csimp; ring.
Qed.

(** ** One RF sample varied *)

Lemma rot_real_axis (u : R) (f : C * C) :
  rot (mkC u 0) f = lincomb (cos (u / 2)) (sin (u / 2)) f (rot_du f).
Proof.
  destruct f as [a b]. unfold rot, lincomb, rot_du.
  rewrite rf_C_real, rf_S_real. simpl.
  f_equal; apply C_eq; csimp; ring.
Qed.

Lemma rot_imag_axis (v : R) (f : C * C) :
  rot (mkC 0 v) f = lincomb (cos (v / 2)) (sin (v / 2)) f (rot_dv f).
Proof.
  destruct f as [a b]. unfold rot, lincomb, rot_dv.
  rewrite rf_C_imag, rf_S_imag. simpl.
  f_equal; apply C_eq; csimp; ring.
Qed.

Lemma act_lincomb (r : C * C) (c s : R) (f g : C * C) :
  act r (lincomb c s f g) = lincomb c s (act r f) (act r g).
Proof.
  destruct r as [al be], f as [a b], g as [a' b']. unfold act, lincomb. simpl.
  f_equal; apply C_eq; csimp; ring.
Qed.

Lemma seed_lincomb_snd (ub : C) (c s : R) (f g : C * C) :
  Re (Cconj ub * snd (lincomb c s f g)) =
  c * Re (Cconj ub * snd f) + s * Re (Cconj ub * snd g).
Proof. unfold lincomb. csimp. ring. Qed.

Lemma seed_lincomb_fst (ua : C) (c s : R) (f g : C * C) :
  Re (Cconj ua * fst (lincomb c s f g)) =
  c * Re (Cconj ua * fst f) + s * Re (Cconj ua * fst g).
Proof. unfold lincomb. csimp. ring. Qed.

Lemma length_upd {A : Type} (i : nat) (v : A) (l : list A) :
  length (upd i v l) = length l.
Proof.
  revert i; induction l as [|a l IH]; intros [|i]; simpl; auto.
Qed.

Lemma upd_split {A : Type} (i : nat) (v : A) (l : list A) :
  (i < length l)%nat -> upd i v l = firstn i l ++ v :: skipn (S i) l.
Proof.
  revert i; induction l as [|a l IH]; intros i Hi; simpl in Hi; [lia|].
  destruct i as [|i]; [reflexivity|].
  change (a :: upd i v l = a :: (firstn i l ++ v :: skipn (S i) l)).
  f_equal. apply IH. lia.
Qed.

Lemma combine_upd {A B : Type} (i : nat) (v : A) (u : list A) (l : list B) (d : B) :
  combine (upd i v u) l = upd i (v, nth i l d) (combine u l).
Proof.
  revert i l; induction u as [|a u IH]; intros i [|b l]; simpl;
    try (destruct i; reflexivity).
  destruct i as [|i]; simpl; [reflexivity|]. now rewrite IH.
Qed.

Lemma nth_upd_same {A : Type} (i : nat) (v d : A) (l : list A) :
  (i < length l)%nat -> nth i (upd i v l) d = v.
Proof.
  revert i; induction l as [|a l IH]; intros i Hi; simpl in Hi; [lia|].
  destruct i as [|i]; simpl; [reflexivity|]. apply IH. lia.
Qed.

Lemma nth_upd_other {A : Type} (i j : nat) (v d : A) (l : list A) :
  i <> j -> nth i (upd j v l) d = nth i l d.
Proof.
  revert i j; induction l as [|a l IH]; intros i j Hij; simpl.
  - now destruct j.
  - destruct j as [|j], i as [|i]; simpl; try reflexivity; try congruence.
    apply IH. congruence.
Qed.

(** The corrected result for one spin when the sample at [t] is [w]: the
    rotation by [w] between the part before and the part after. *)
Lemma spin_final_upd (rf : cvec) (s : spin) (t : nat) (w : C) :
  length (sp_phase s) = length rf -> sp_total s = Rsum (sp_phase s) ->
  (t < length rf)%nat ->
  spin_final (upd t w rf) s = act (after rf s t) (rot w (before rf s t)).
Proof.
  intros Hlen Htot Ht.
  rewrite spin_final_sym by (rewrite ?length_upd; auto).
  rewrite (combine_upd t w rf (sp_phase s) 0).
  rewrite upd_split by (rewrite length_combine; lia).
  rewrite sym_fwd_app. unfold after, before.
  set (f := sym_fwd (firstn t (combine rf (sp_phase s))) (C1, C0)).
  set (post := skipn (S t) (combine rf (sp_phase s))).
  set (phi := nth t (sp_phase s) 0).
  change (sym_fwd ((w, phi) :: post) f) with (sym_fwd post (sym_step f (w, phi))).
  rewrite sym_fwd_act, act_scale2_blip. unfold sym_step. simpl.
  now destruct (rot w f).
Qed.

(** ** The total phase of a spin is the sum of its phases *)

Lemma Rsum_scale (x : R) (g : list R) :
  Rsum (map (fun gt => x * gt) g) = x * Rsum g.
Proof. induction g as [|a g IH]; simpl; [ring | rewrite IH; ring]. Qed.

Lemma rdot_zeros (r : list R) (n : nat) : rdot r (repeat 0 n) = 0.
Proof.
  revert n; induction r as [|a r IH]; intros [|n]; simpl; auto.
  rewrite IH. ring.
Qed.

Lemma rdot_vadd (r u v : list R) :
  length u = length v -> rdot r (vadd u v) = rdot r u + rdot r v.
Proof.
  revert u v; induction r as [|a r IH]; intros [|b u] [|c v] H; simpl in *;
    try discriminate; try ring.
  rewrite IH by lia. ring.
Qed.

Lemma length_fold_vadd (n : nat) (rows : list (list R)) :
  Forall (fun r => length r = n) rows ->
  length (fold_right vadd (repeat 0 n) rows) = n.
Proof.
  induction 1 as [|row rows Hrow _ IH]; simpl.
  - apply repeat_length.
  - rewrite length_vadd, IH, Hrow. lia.
Qed.

Lemma rdot_fold_vadd (r : list R) (n : nat) (rows : list (list R)) :
  Forall (fun r => length r = n) rows ->
  rdot r (fold_right vadd (repeat 0 n) rows) = Rsum (map (rdot r) rows).
Proof.
  induction 1 as [|row rows Hrow Hrows IH]; simpl.
  - apply rdot_zeros.
  - rewrite rdot_vadd, IH; [reflexivity|].
    now rewrite length_fold_vadd.
Qed.

Lemma rdot_colsum (r : list R) (g : matrix) :
  wf_matrix g -> rdot r (colsum g) = Rsum (map (rdot r) (mrows g)).
Proof. apply rdot_fold_vadd. Qed.

Lemma spins_total (geo : geometry) (s : spin) :
  wf_geo geo -> In s (spins geo) -> sp_total s = Rsum (sp_phase s).
Proof.
  destruct geo as [x g | x g]; simpl; intros Hwf Hin;
    rewrite in_map_iff in Hin; destruct Hin as (r & <- & _); simpl.
  - now rewrite Rsum_scale.
  - destruct Hwf as (_ & _ & Hg). now apply rdot_colsum.
Qed.

(** ** [blochsim] and the loss as functions of one sample *)

Lemma spin_at_in (geo : geometry) (i : nat) :
  In i (seq 0 (nspins geo)) -> In (spin_at geo i) (spins geo).
Proof.
  rewrite in_seq. intros [_ Hi]. apply nth_In. rewrite length_spins. lia.
Qed.

Lemma shapes_match_upd (rf : cvec) (geo : geometry) (t : nat) (w : C) :
  shapes_match rf geo -> shapes_match (upd t w rf) geo.
Proof. intros [Hn Hwf]. split; [now rewrite length_upd | exact Hwf]. Qed.

Lemma blochsim_upd (rf : cvec) (geo : geometry) (t : nat) (w : C) :
  shapes_match rf geo -> (t < length rf)%nat ->
  blochsim (upd t w rf) geo =
  Ok (map (fun i => fst (final_at rf geo t w i)) (seq 0 (nspins geo)),
      map (fun i => snd (final_at rf geo t w i)) (seq 0 (nspins geo))).
Proof.
  intros Hs Ht.
  rewrite (blochsim_spins _ _ (shapes_match_upd rf geo t w Hs)).
  destruct Hs as [Hn Hwf].
  rewrite (spins_indexed geo), !map_map.
  f_equal; f_equal; apply map_ext_in; intros i Hi; unfold final_at;
    rewrite spin_final_upd; auto.
  - rewrite (spins_phase_length geo); auto using spin_at_in.
  - apply (spins_total geo); auto using spin_at_in.
  - rewrite (spins_phase_length geo); auto using spin_at_in.
  - apply (spins_total geo); auto using spin_at_in.
Qed.

Lemma upd_nth_same {A : Type} (t : nat) (l : list A) (d : A) :
  upd t (nth t l d) l = l.
Proof.
  revert t; induction l as [|a l IH]; intros [|t]; simpl; try reflexivity.
  now rewrite IH.
Qed.

Lemma seed_sum_map (u : cvec) (l : list nat) (h : nat -> C) :
  seed_sum (map (entry u) l) (map h l) =
  Rsum (map (fun i => Re (Cconj (entry u i) * h i)) l).
Proof. unfold seed_sum. now rewrite map2_map. Qed.

Lemma loss_at_sum (rf : cvec) (geo : geometry) (auxa : option cvec)
  (auxb : cvec) (t : nat) (w : C) :
  shapes_match rf geo -> (t < length rf)%nat ->
  length auxb = nspins geo ->
  match auxa with None => True | Some ua => length ua = nspins geo end ->
  loss_at rf geo auxa auxb t w =
  Rsum (map (fun i => Re (Cconj (entry auxb i) * snd (final_at rf geo t w i)))
            (seq 0 (nspins geo))) +
  match auxa with
  | None => 0
  | Some ua =>
      Rsum (map (fun i => Re (Cconj (entry ua i) * fst (final_at rf geo t w i)))
                (seq 0 (nspins geo)))
  end.
Proof.
  intros Hs Ht Hub Hua. unfold loss_at.
  rewrite (blochsim_upd rf geo t w Hs Ht). unfold loss. simpl.
  rewrite <- (list_as_map_n auxb C0 (nspins geo) Hub) at 1.
  f_equal.
  - apply seed_sum_map.
  - destruct auxa as [ua|]; [|reflexivity].
    rewrite <- (list_as_map_n ua C0 (nspins geo) Hua) at 1.
    apply seed_sum_map.
Qed.

(** ** [deriv] on the result of [blochsim] *)

Lemma unwound_af (steps : list (C * R)) (k : nat) :
  (s_af (unwound steps k), s_bf (unwound steps k)) =
  sym_fwd (firstn (length steps - k) steps) (C1, C0).
Proof. unfold unwound. simpl. symmetry. apply surjective_pairing. Qed.

Lemma pass_operands (rf : cvec) (s : spin) (t : nat) :
  length (sp_phase s) = length rf -> (t < length rf)%nat ->
  unwind (nth t rf C0) (nth t (sp_phase s) 0)
         (unwound (combine rf (sp_phase s)) (length rf - 1 - t)) = before rf s t /\
  blipped (nth t (sp_phase s) 0)
          (unwound (combine rf (sp_phase s)) (length rf - 1 - t)) = after rf s t.
Proof.
  intros Hlen Ht.
  assert (Hc : length (combine rf (sp_phase s)) = length rf)
    by (rewrite length_combine; lia).
  split.
  - pose proof (dspin_step_unwound rf (sp_phase s) (length rf - 1 - t) Hlen) as H.
    replace (length rf - 1 - (length rf - 1 - t))%nat with t in H by lia.
    specialize (H ltac:(lia)).
    pose proof (unwound_af (combine rf (sp_phase s)) (S (length rf - 1 - t))) as Hf.
    rewrite <- H, Hc in Hf. unfold dspin_step in Hf. cbn [s_af s_bf] in Hf.
    rewrite <- surjective_pairing in Hf. rewrite Hf. unfold before.
    now replace (length rf - S (length rf - 1 - t))%nat with t by lia.
  - unfold unwound. rewrite blipped_scale2, Hc. unfold after.
    now replace (length rf - (length rf - 1 - t))%nat with (S t) by lia.
Qed.

Lemma length_drf_iter {A : Type} (l : list A) (SP : A -> spin) (UB : A -> C)
  (UA : option (A -> C)) (rf : cvec) (F0 : A -> sstate) (k : nat) :
  length (drf_iter l SP UB UA rf F0 k) = length rf.
Proof.
  induction k as [|k IH]; simpl; [apply repeat_length|].
  now rewrite length_upd.
Qed.

Lemma drf_iter_nth {A : Type} (l : list A) (SP : A -> spin) (UB : A -> C)
  (UA : option (A -> C)) (rf : cvec) (F0 : A -> sstate) (k t : nat) :
  (k <= length rf)%nat -> (t < length rf)%nat -> (length rf - k <= t)%nat ->
  nth t (drf_iter l SP UB UA rf F0 k) C0 =
  pass_total l SP UB UA rf t (spin_states SP rf F0 (length rf - 1 - t)).
Proof.
  induction k as [|k IH]; intros Hk Ht Hkt; [lia|].
  simpl. destruct (Nat.eq_dec t (length rf - 1 - k)) as [-> | Hne].
  - rewrite nth_upd_same by (rewrite length_drf_iter; lia).
    now replace (length rf - 1 - (length rf - 1 - k))%nat with k by lia.
  - rewrite nth_upd_other by assumption. apply IH; lia.
Qed.

Lemma pass_total_grad_at (rf : cvec) (geo : geometry) (auxa : option cvec)
  (auxb : cvec) (t : nat) :
  shapes_match rf geo -> (t < length rf)%nat ->
  pass_total (seq 0 (nspins geo)) (spin_at geo) (entry auxb)
             (option_map entry auxa) rf t
             (spin_states (spin_at geo) rf (start_at rf geo) (length rf - 1 - t))
  = grad_at rf geo auxa auxb t.
Proof.
  intros [Hn Hwf] Ht. unfold pass_total, grad_at.
  assert (Hop : forall i, In i (seq 0 (nspins geo)) ->
    unwind (nth t rf C0) (nth t (sp_phase (spin_at geo i)) 0)
      (spin_states (spin_at geo) rf (start_at rf geo) (length rf - 1 - t) i)
      = before rf (spin_at geo i) t /\
    blipped (nth t (sp_phase (spin_at geo i)) 0)
      (spin_states (spin_at geo) rf (start_at rf geo) (length rf - 1 - t) i)
      = after rf (spin_at geo i) t).
  { intros i Hi.
    assert (Hlen : length (sp_phase (spin_at geo i)) = length rf).
    { rewrite (spins_phase_length geo); auto using spin_at_in. }
    unfold spin_states, start_at.
    rewrite dspin_iter_unwound by (auto; lia).
    now apply pass_operands. }
  assert (Hb : map (fun i => term_b (entry auxb i)
                 (unwind (nth t rf C0) (nth t (sp_phase (spin_at geo i)) 0)
                    (spin_states (spin_at geo) rf (start_at rf geo) (length rf - 1 - t) i))
                 (blipped (nth t (sp_phase (spin_at geo i)) 0)
                    (spin_states (spin_at geo) rf (start_at rf geo) (length rf - 1 - t) i)))
              (seq 0 (nspins geo)) =
            map (fun i => term_b (entry auxb i) (before rf (spin_at geo i) t)
                                 (after rf (spin_at geo i) t))
              (seq 0 (nspins geo))).
  { apply map_ext_in; intros i Hi. destruct (Hop i Hi) as [-> ->]. reflexivity. }
  rewrite Hb. destruct (option_map entry auxa) as [U|]; [|reflexivity].
  f_equal. f_equal. apply map_ext_in; intros i Hi.
  destruct (Hop i Hi) as [-> ->]. reflexivity.
Qed.

Lemma start_at_accum (rf : cvec) (geo : geometry) (i : nat) :
  s_ar (start_at rf geo i) = C1 /\ s_br (start_at rf geo i) = C0.
Proof. unfold start_at. rewrite unwound_0. split; reflexivity. Qed.

Lemma blochsim_start (rf : cvec) (geo : geometry) :
  shapes_match rf geo ->
  blochsim rf geo =
  Ok (map (fun i => s_af (start_at rf geo i)) (seq 0 (nspins geo)),
      map (fun i => s_bf (start_at rf geo i)) (seq 0 (nspins geo))).
Proof.
  intros Hs. rewrite (blochsim_spins rf geo Hs). destruct Hs as [Hn Hwf].
  rewrite (spins_indexed geo), !map_map.
  f_equal; f_equal; apply map_ext_in; intros i Hi; unfold start_at;
    rewrite unwound_0; cbn [s_af s_bf]; rewrite spin_final_sym;
    try reflexivity.
  - rewrite (spins_phase_length geo); auto using spin_at_in.
  - apply (spins_total geo); auto using spin_at_in.
  - rewrite (spins_phase_length geo); auto using spin_at_in.
  - apply (spins_total geo); auto using spin_at_in.
Qed.

Lemma deriv_on_blochsim (rf : cvec) (geo : geometry) (auxa : option cvec)
  (auxb a b : cvec) :
  shapes_match rf geo -> length auxb = nspins geo ->
  match auxa with None => True | Some ua => length ua = nspins geo end ->
  blochsim rf geo = Ok (a, b) ->
  deriv rf geo auxa auxb a b =
  Ok (drf_iter (seq 0 (nspins geo)) (spin_at geo) (entry auxb)
               (option_map entry auxa) rf (start_at rf geo) (length rf)).
Proof.
  intros Hs Hub Hua Hab. rewrite (blochsim_start rf geo Hs) in Hab.
  assert (Haf : a = map (fun i => s_af (start_at rf geo i)) (seq 0 (nspins geo)))
    by congruence.
  assert (Hbf : b = map (fun i => s_bf (start_at rf geo i)) (seq 0 (nspins geo)))
    by congruence.
  clear Hab. destruct Hs as [Hn Hwf].
  assert (Hb : auxb = map (entry auxb) (seq 0 (nspins geo)))
    by (symmetry; now apply list_as_map_n).
  assert (Ha : auxa = option_map (fun U => map U (seq 0 (nspins geo)))
                                 (option_map entry auxa)).
  { destruct auxa as [ua|]; simpl; [|reflexivity].
    f_equal. symmetry. now apply list_as_map_n. }
  pose proof (deriv_iter_spins (seq 0 (nspins geo)) rf geo (spin_at geo)
                (entry auxb) (option_map entry auxa) Hwf (spins_indexed geo)
                (start_at rf geo) (length rf) (start_at_accum rf geo)
                (le_n _) ltac:(lia)) as H.
  unfold deriv.
  replace (deriv_iter rf geo auxa auxb a b (length rf))
    with (Ok (state_arrays (seq 0 (nspins geo))
                (spin_states (spin_at geo) rf (start_at rf geo) (length rf))
                (drf_iter (seq 0 (nspins geo)) (spin_at geo) (entry auxb)
                          (option_map entry auxa) rf (start_at rf geo)
                          (length rf)))).
  - reflexivity.
  - rewrite <- H. f_equal; (assumption || (symmetry; assumption)).
Qed.

Lemma deriv_on_blochsim_nth (rf : cvec) (geo : geometry) (auxa : option cvec)
  (auxb : cvec) (t : nat) :
  shapes_match rf geo -> (t < length rf)%nat ->
  nth t (drf_iter (seq 0 (nspins geo)) (spin_at geo) (entry auxb)
                  (option_map entry auxa) rf (start_at rf geo) (length rf)) C0
  = grad_at rf geo auxa auxb t.
Proof.
  intros Hs Ht. rewrite drf_iter_nth by lia.
  now apply pass_total_grad_at.
Qed.

(** ** The loss along the axes and its derivative *)

Lemma Rsum_lincomb {A : Type} (c s : R) (p q : A -> R) (l : list A) :
  Rsum (map (fun i => c * p i + s * q i) l) =
  c * Rsum (map p l) + s * Rsum (map q l).
Proof.
  induction l as [|a l IH]; simpl; [ring | rewrite IH; ring].
Qed.

Lemma Rsum_half {A : Type} (q : A -> R) (l : list A) :
  Rsum (map (fun i => q i / 2) l) = Rsum (map q l) / 2.
Proof.
  induction l as [|a l IH]; simpl; [field | rewrite IH; field].
Qed.

Lemma Re_Csum {A : Type} (h : A -> C) (l : list A) :
  Re (Csum (map h l)) = Rsum (map (fun i => Re (h i)) l).
Proof. induction l as [|a l IH]; simpl; [reflexivity | now rewrite IH]. Qed.

Lemma Im_Csum {A : Type} (h : A -> C) (l : list A) :
  Im (Csum (map h l)) = Rsum (map (fun i => Im (h i)) l).
Proof. induction l as [|a l IH]; simpl; [reflexivity | now rewrite IH]. Qed.

Lemma loss_along (rf : cvec) (geo : geometry) (auxa : option cvec)
  (auxb : cvec) (t : nat) (w : C) (c s : R) (J : C * C -> C * C) :
  shapes_match rf geo -> (t < length rf)%nat ->
  length auxb = nspins geo ->
  match auxa with None => True | Some ua => length ua = nspins geo end ->
  (forall f, rot w f = lincomb c s f (J f)) ->
  loss_at rf geo auxa auxb t w =
  c * loss_part rf geo auxa auxb t (fun f => f) +
  s * loss_part rf geo auxa auxb t J.
Proof.
  intros Hs Ht Hub Hua Hrot.
  rewrite (loss_at_sum rf geo auxa auxb t w Hs Ht Hub Hua).
  unfold loss_part, final_at.
  assert (Hb : forall U : nat -> C,
    Rsum (map (fun i => Re (Cconj (U i) *
              snd (act (after rf (spin_at geo i) t)
                       (rot w (before rf (spin_at geo i) t)))))
            (seq 0 (nspins geo))) =
    c * Rsum (map (fun i => Re (Cconj (U i) *
              snd (act (after rf (spin_at geo i) t) (before rf (spin_at geo i) t))))
            (seq 0 (nspins geo))) +
    s * Rsum (map (fun i => Re (Cconj (U i) *
              snd (act (after rf (spin_at geo i) t) (J (before rf (spin_at geo i) t)))))
            (seq 0 (nspins geo)))).
  { intros U. rewrite <- Rsum_lincomb. f_equal. apply map_ext; intros i.
    now rewrite Hrot, act_lincomb, seed_lincomb_snd. }
  assert (Ha : forall U : nat -> C,
    Rsum (map (fun i => Re (Cconj (U i) *
              fst (act (after rf (spin_at geo i) t)
                       (rot w (before rf (spin_at geo i) t)))))
            (seq 0 (nspins geo))) =
    c * Rsum (map (fun i => Re (Cconj (U i) *
              fst (act (after rf (spin_at geo i) t) (before rf (spin_at geo i) t))))
            (seq 0 (nspins geo))) +
    s * Rsum (map (fun i => Re (Cconj (U i) *
              fst (act (after rf (spin_at geo i) t) (J (before rf (spin_at geo i) t)))))
            (seq 0 (nspins geo)))).
  { intros U. rewrite <- Rsum_lincomb. f_equal. apply map_ext; intros i.
    now rewrite Hrot, act_lincomb, seed_lincomb_fst. }
  rewrite (Hb (entry auxb)).
  destruct auxa as [ua|]; [rewrite (Ha (entry ua))|]; ring.
Qed.

Lemma Re_Cadd (z w : C) : Re (z + w) = Re z + Re w.
Proof. reflexivity. Qed.

Lemma Im_Cadd (z w : C) : Im (z + w) = Im z + Im w.
Proof. reflexivity. Qed.

Lemma grad_at_re (rf : cvec) (geo : geometry) (auxa : option cvec)
  (auxb : cvec) (t : nat) :
  Re (grad_at rf geo auxa auxb t) = loss_part rf geo auxa auxb t rot_du / 2.
Proof.
  unfold grad_at, loss_part.
  destruct auxa as [ua|]; cbn [option_map]; rewrite ?Re_Cadd, !Re_Csum.
  - rewrite (map_ext _ _ (fun i => term_b_re (entry auxb i) _ _)).
    rewrite (map_ext _ _ (fun i => term_a_re (entry ua i) _ _)).
    rewrite !Rsum_half. field.
  - rewrite (map_ext _ _ (fun i => term_b_re (entry auxb i) _ _)).
    rewrite !Rsum_half. field.
Qed.

Lemma grad_at_im (rf : cvec) (geo : geometry) (auxa : option cvec)
  (auxb : cvec) (t : nat) :
  Im (grad_at rf geo auxa auxb t) = loss_part rf geo auxa auxb t rot_dv / 2.
Proof.
  unfold grad_at, loss_part.
  destruct auxa as [ua|]; cbn [option_map]; rewrite ?Im_Cadd, !Im_Csum.
  - rewrite (map_ext _ _ (fun i => term_b_im (entry auxb i) _ _)).
    rewrite (map_ext _ _ (fun i => term_a_im (entry ua i) _ _)).
    rewrite !Rsum_half. field.
  - rewrite (map_ext _ _ (fun i => term_b_im (entry auxb i) _ _)).
    rewrite !Rsum_half. field.
Qed.

Lemma derivable_pt_lim_eq (f g : R -> R) (x l : R) :
  (forall y, f y = g y) -> derivable_pt_lim g x l -> derivable_pt_lim f x l.
Proof.
  intros Heq Hg eps Heps. destruct (Hg eps Heps) as [delta Hd].
  exists delta. intros h Hh Hlt. rewrite !Heq. now apply Hd.
Qed.

Lemma cos_sin_half_deriv (P Q x : R) :
  derivable_pt_lim (fun u => cos (u / 2) * P + sin (u / 2) * Q) x
    ((- sin (x / 2) * P + cos (x / 2) * Q) / 2).
Proof.
  assert (Hh : derivable_pt_lim (fun u => u / 2) x (1 / 2)).
  { apply (derivable_pt_lim_eq _ (mult_real_fct (/ 2) id)).
    - intros y. unfold mult_real_fct, id. field.
    - replace (1 / 2) with (/ 2 * 1) by field.
      apply derivable_pt_lim_scal, derivable_pt_lim_id. }
  assert (Hc : derivable_pt_lim (fun u => cos (u / 2)) x (- sin (x / 2) * (1 / 2))).
  { apply (derivable_pt_lim_comp (fun u => u / 2) cos); [exact Hh|].
    apply derivable_pt_lim_cos. }
  assert (Hs : derivable_pt_lim (fun u => sin (u / 2)) x (cos (x / 2) * (1 / 2))).
  { apply (derivable_pt_lim_comp (fun u => u / 2) sin); [exact Hh|].
    apply derivable_pt_lim_sin. }
  apply (derivable_pt_lim_eq _
           (plus_fct (mult_real_fct P (fun u => cos (u / 2)))
                     (mult_real_fct Q (fun u => sin (u / 2))))).
  - intros y. unfold plus_fct, mult_real_fct. ring.
  - replace ((- sin (x / 2) * P + cos (x / 2) * Q) / 2)
      with (P * (- sin (x / 2) * (1 / 2)) + Q * (cos (x / 2) * (1 / 2))) by field.
    apply derivable_pt_lim_plus; apply derivable_pt_lim_scal; assumption.
Qed.

Lemma cos_sin_half_deriv_0 (P Q : R) :
  derivable_pt_lim (fun u => cos (u / 2) * P + sin (u / 2) * Q) 0 (Q / 2).
Proof.
  replace (Q / 2) with ((- sin (0 / 2) * P + cos (0 / 2) * Q) / 2).
  - apply cos_sin_half_deriv.
  - replace (0 / 2) with 0 by field. rewrite sin_0, cos_0. field.
Qed.

Section LossDerivative.
Variables (rf : cvec) (geo : geometry) (auxa : option cvec) (auxb : cvec).
Variable t : nat.
Hypothesis Hs : shapes_match rf geo.
Hypothesis Ht : (t < length rf)%nat.
Hypothesis Hub : length auxb = nspins geo.
Hypothesis Hua :
  match auxa with None => True | Some ua => length ua = nspins geo end.

(** At the sample [0], the rate of change of the loss in the real part of
    the sample is the real part of [grad_at], and in its imaginary part the
    imaginary part. *)
Lemma loss_dRe_0 :
  dRe (loss_at rf geo auxa auxb t) C0 (Re (grad_at rf geo auxa auxb t)).
Proof.
  unfold dRe. cbn [Re Im C0 RtoC]. rewrite grad_at_re.
  apply (derivable_pt_lim_eq _
           (fun u => cos (u / 2) * loss_part rf geo auxa auxb t (fun f => f) +
                     sin (u / 2) * loss_part rf geo auxa auxb t rot_du)).
  - intros u. apply loss_along; auto. intros f. apply rot_real_axis.
  - apply cos_sin_half_deriv_0.
Qed.

Lemma loss_dIm_0 :
  dIm (loss_at rf geo auxa auxb t) C0 (Im (grad_at rf geo auxa auxb t)).
Proof.
  unfold dIm. cbn [Re Im C0 RtoC]. rewrite grad_at_im.
  apply (derivable_pt_lim_eq _
           (fun v => cos (v / 2) * loss_part rf geo auxa auxb t (fun f => f) +
                     sin (v / 2) * loss_part rf geo auxa auxb t rot_dv)).
  - intros v. apply loss_along; auto. intros f. apply rot_imag_axis.
  - apply cos_sin_half_deriv_0.
Qed.
End LossDerivative.

(** When [(af, bf)] is the corrected result [(a, b)] of [blochsim] for the
    same [rf], [x], [g] and the shapes fit, [deriv] returns an array [drf]
    of length [Nt], and at every index [t] with [rf[t] = 0] the real part
    of [drf[t]] is the derivative of the loss in the real part of [rf[t]]
    and its imaginary part the derivative in the imaginary part, for
    [L = sum Re(conj(auxb) b)], plus [sum Re(conj(auxa) a)] when [auxa] is
    present, taken at the corrected result. *)
Theorem deriv_gradient_at_zero (rf : cvec) (geo : geometry)
  (auxa : option cvec) (auxb : cvec) :
  shapes_match rf geo -> length auxb = nspins geo ->
  match auxa with None => True | Some ua => length ua = nspins geo end ->
  exists a b drf,
    blochsim rf geo = Ok (a, b) /\
    deriv rf geo auxa auxb a b = Ok drf /\
    length drf = length rf /\
    forall t, (t < length rf)%nat -> nth t rf C0 = C0 ->
      dRe (loss_at rf geo auxa auxb t) (nth t rf C0) (Re (nth t drf C0)) /\
      dIm (loss_at rf geo auxa auxb t) (nth t rf C0) (Im (nth t drf C0)).
Proof.
  intros Hs Hub Hua.
  eexists _, _, _. split; [apply (blochsim_start rf geo Hs)|].
  split; [apply deriv_on_blochsim; auto; apply (blochsim_start rf geo Hs)|].
  split; [apply length_drf_iter|].
  intros t Ht Hz. rewrite Hz, deriv_on_blochsim_nth by assumption.
  split; [apply loss_dRe_0 | apply loss_dIm_0]; assumption.
Qed.

(** [deriv_gradient_at_zero] on two spins and two steps, at the index of
    the zero sample. *)
Lemma deriv_gradient_at_zero_witness :
  exists a b drf,
    blochsim [C0; Ci] (Geo1 [1; 2] [3; 4]) = Ok (a, b) /\
    deriv [C0; Ci] (Geo1 [1; 2] [3; 4]) (Some [C1; Ci]) [Ci; C1] a b = Ok drf /\
    dRe (loss_at [C0; Ci] (Geo1 [1; 2] [3; 4]) (Some [C1; Ci]) [Ci; C1] 0) C0
        (Re (nth 0 drf C0)) /\
    dIm (loss_at [C0; Ci] (Geo1 [1; 2] [3; 4]) (Some [C1; Ci]) [Ci; C1] 0) C0
        (Im (nth 0 drf C0)).
Proof.
  destruct (deriv_gradient_at_zero [C0; Ci] (Geo1 [1; 2] [3; 4])
              (Some [C1; Ci]) [Ci; C1] (conj eq_refl I) eq_refl eq_refl)
    as (a & b & drf & Hf & Hd & _ & Ht).
  exists a, b, drf. split; [exact Hf | split; [exact Hd|]].
  exact (Ht 0%nat (Nat.lt_0_succ 1) eq_refl).
Defined.

(** ** A pulse of one zero sample under a gradient of [pi] *)

Lemma half_blip_PI : half_blip (1 * PI) = Ci.
Proof.
  rewrite half_blip_expi. replace (1 * PI / 2) with (PI / 2) by field.
  apply expi_PI2.
Qed.

Lemma inv_rot_0 (ab : C * C) : inv_rot C0 ab = ab.
Proof.
  destruct ab as [a b]. unfold inv_rot. rewrite rf_C_0, rf_S_0.
  f_equal; apply C_eq; csimp; ring.
Qed.

Lemma raw_zero_pulse :
  blochsim_raw [C0] (Geo1 [1] [PI]) = Ok ([C1], [C0]).
Proof.
  unfold blochsim_raw. rewrite blochsim_iter_spins by (simpl; auto).
  cbn [spins map]. now rewrite spin_iter_zero by (repeat constructor).
Qed.

Lemma deriv_raw_zero_pulse :
  deriv [C0] (Geo1 [1] [PI]) None [C1] [C1] [C0] = Ok [mkC 0 (1 / 2)].
Proof.
  rewrite deriv_indexed
    by exact (conj I (conj (le_n 1) (conj eq_refl (conj eq_refl (conj eq_refl I))))).
  unfold deriv_drf. cbn [drf_iter length Nat.sub nspins seq upd repeat option_map].
  unfold pass_total. cbn [map Csum nth]. unfold spin_states. cbn [dspin_iter].
  unfold spin_at, init_at, entry. cbn [spins map nth sp_phase].
  rewrite Cadd_0_r. unfold unwind, blipped. cbn [s_af s_bf s_ar s_br].
  rewrite inv_rot_0, half_blip_PI. unfold term_b. rewrite Ci_half.
  do 2 f_equal. apply C_eq; csimp; field.
Qed.

Lemma grad_zero_pulse :
  Re (grad_at [C0] (Geo1 [1] [PI]) None [C1] 0) = 1 / 2.
Proof.
  unfold grad_at. cbn [option_map nspins length seq map Csum].
  unfold before, after, spin_at, entry.
  cbn [spins map nth sp_phase combine firstn skipn sym_fwd fold_left col fold_right].
  rewrite half_blip_PI. unfold term_b, scale2. rewrite Ci_half.
  csimp. field.
Qed.

Lemma loss_dRe_zero_pulse :
  dRe (loss_at [C0] (Geo1 [1] [PI]) None [C1] 0) C0 (1 / 2).
Proof.
  rewrite <- grad_zero_pulse.
  apply loss_dRe_0; [split; [reflexivity | exact I] | simpl; lia | reflexivity | exact I].
Qed.

(** On the state before the phase correction [deriv] gives another result
    than on the corrected one: for one zero RF sample, one spin at [x = 1]
    and [g = pi], that state is [(1, 0)], on it [deriv] returns
    [drf = [i/2]], and the loss [Re(b)] changes at the rate [1/2] in the
    real part of the sample. *)
Lemma deriv_on_raw_state_not_derivative :
  blochsim_raw [C0] (Geo1 [1] [PI]) = Ok ([C1], [C0]) /\
  deriv [C0] (Geo1 [1] [PI]) None [C1] [C1] [C0] = Ok [mkC 0 (1 / 2)] /\
  dRe (loss_at [C0] (Geo1 [1] [PI]) None [C1] 0) C0 (1 / 2) /\
  ~ deriv_is_wirtinger [C0] (Geo1 [1] [PI]) None [C1].
Proof.
  split; [exact raw_zero_pulse|].
  split; [exact deriv_raw_zero_pulse|].
  split; [exact loss_dRe_zero_pulse|].
  intros H. destruct (H [C1] [C0] raw_zero_pulse) as (drf & Hd & _ & Hw).
  rewrite deriv_raw_zero_pulse in Hd. injection Hd as <-.
  destruct (Hw 0%nat (Nat.lt_0_succ 0)) as (du & dv & Hdu & _ & Heq).
  cbn [nth] in Hdu, Heq.
  pose proof (uniqueness_limite _ _ _ _ Hdu loss_dRe_zero_pulse) as Hu.
  injection Heq as H1 H2. lra.
Qed.

(** * Further properties of the two functions *)

(** ** A list of steps and its rotation *)

Lemma act_on_start (c : C * C) : act c (C1, C0) = c.
Proof. destruct c as [al be]. unfold act. f_equal; apply C_eq; csimp; ring. Qed.

(** The first column of the rotation of a list of steps is the spinor the
    forward pass reaches from [(1, 0)]. *)
Lemma col_sym_fwd (steps : list (C * R)) : col steps = sym_fwd steps (C1, C0).
Proof. now rewrite sym_fwd_act, act_on_start. Qed.

Lemma spin_final_col (rf : cvec) (s : spin) :
  length (sp_phase s) = length rf -> sp_total s = Rsum (sp_phase s) ->
  spin_final rf s = col (combine rf (sp_phase s)).
Proof. intros Hl Ht. now rewrite col_sym_fwd, spin_final_sym. Qed.

(** The accumulator of one spin after [k] passes, from [(1, 0)]: the
    rotation of the last [k] steps, whatever the forward state is. *)
Lemma dspin_iter_accum (rf : cvec) (phis : list R) (s0 : sstate) (k : nat) :
  s_ar s0 = C1 -> s_br s0 = C0 ->
  length phis = length rf -> (k <= length rf)%nat ->
  (s_ar (dspin_iter rf phis s0 k), s_br (dspin_iter rf phis s0 k)) =
  col (skipn (length rf - k) (combine rf phis)).
Proof.
  intros Har Hbr Hlen. induction k as [|k IH]; intros Hk.
  - simpl. rewrite Nat.sub_0_r, Har, Hbr.
    rewrite skipn_all2 by (rewrite length_combine; lia). reflexivity.
  - cbn [dspin_iter]. set (mm := (length rf - 1 - k)%nat).
    set (st := dspin_iter rf phis s0 k) in *.
    assert (Hmm : (mm < length (combine rf phis))%nat)
      by (rewrite length_combine; unfold mm; lia).
    replace (length rf - S k)%nat with mm by (unfold mm; lia).
    rewrite (skipn_cons_nth _ mm (C0, 0) Hmm), combine_nth by congruence.
    replace (S mm) with (length rf - k)%nat by (unfold mm; lia).
    change (col ((nth mm rf C0, nth mm phis 0)
                   :: skipn (length rf - k) (combine rf phis)))
      with (back_rot (nth mm rf C0)
              (scale2 (half_blip (nth mm phis 0))
                      (col (skipn (length rf - k) (combine rf phis))))).
    rewrite <- IH by lia.
    unfold dspin_step. cbn [s_ar s_br].
    rewrite <- surjective_pairing. f_equal.
    unfold blipped, scale2. cbn [fst snd]. f_equal; apply Cmul_comm.
Qed.

(** ** [blochsim] on a part of the pulse *)

Lemma blochsim_col (rf : cvec) (geo : geometry) :
  shapes_match rf geo ->
  blochsim rf geo =
  Ok (map (fun phis => fst (col (combine rf phis))) (map sp_phase (spins geo)),
      map (fun phis => snd (col (combine rf phis))) (map sp_phase (spins geo))).
Proof.
  intros Hs. rewrite (blochsim_spins rf geo Hs). destruct Hs as [Hn Hwf].
  rewrite !map_map.
  f_equal; f_equal; apply map_ext_in; intros s Hin;
    rewrite spin_final_col; auto.
  - rewrite (spins_phase_length geo s Hin); exact Hn.
  - now apply (spins_total geo).
  - rewrite (spins_phase_length geo s Hin); exact Hn.
  - now apply (spins_total geo).
Qed.

Lemma phases_firstn (m : nat) (geo : geometry) :
  map sp_phase (spins (geo_firstn m geo)) =
  map (fun s => firstn m (sp_phase s)) (spins geo).
Proof.
  destruct geo as [x g | x g]; simpl; rewrite !map_map;
    apply map_ext; intros r; simpl; now rewrite firstn_map.
Qed.

Lemma phases_skipn (m : nat) (geo : geometry) :
  map sp_phase (spins (geo_skipn m geo)) =
  map (fun s => skipn m (sp_phase s)) (spins geo).
Proof.
  destruct geo as [x g | x g]; simpl; rewrite !map_map;
    apply map_ext; intros r; simpl; now rewrite skipn_map.
Qed.

Lemma Forall_firstn {A : Type} (P : A -> Prop) (m : nat) (l : list A) :
  Forall P l -> Forall P (firstn m l).
Proof.
  intros H. revert m. induction H as [|a l Ha _ IH]; intros [|m]; simpl;
    constructor; auto.
Qed.

Lemma Forall_skipn {A : Type} (P : A -> Prop) (m : nat) (l : list A) :
  Forall P l -> Forall P (skipn m l).
Proof.
  intros H. revert m. induction H as [|a l Ha Hl IH]; intros [|m]; simpl;
    auto.
Qed.

Lemma shapes_match_firstn (m : nat) (rf : cvec) (geo : geometry) :
  shapes_match rf geo -> shapes_match (firstn m rf) (geo_firstn m geo).
Proof.
  intros [Hn Hwf]. split.
  - destruct geo; simpl in *; rewrite !length_firstn; lia.
  - destruct geo as [x g | x g]; simpl in *; [exact I|].
    destruct Hwf as (Hc & Hx & Hg). repeat split; auto.
    unfold wf_matrix in *. simpl. now apply Forall_firstn.
Qed.

Lemma shapes_match_skipn (m : nat) (rf : cvec) (geo : geometry) :
  shapes_match rf geo -> shapes_match (skipn m rf) (geo_skipn m geo).
Proof.
  intros [Hn Hwf]. split.
  - destruct geo; simpl in *; rewrite !length_skipn; lia.
  - destruct geo as [x g | x g]; simpl in *; [exact I|].
    destruct Hwf as (Hc & Hx & Hg). repeat split; auto.
    unfold wf_matrix in *. simpl. now apply Forall_skipn.
Qed.

Lemma combine_skipn {A B : Type} (m : nat) (u : list A) (v : list B) :
  combine (skipn m u) (skipn m v) = skipn m (combine u v).
Proof.
  revert u v; induction m as [|m IH]; intros u v; [reflexivity|].
  destruct u as [|a u], v as [|b v]; simpl; try reflexivity.
  - now destruct (skipn m u).
  - apply IH.
Qed.

Lemma blochsim_firstn (m : nat) (rf : cvec) (geo : geometry) :
  shapes_match rf geo ->
  blochsim (firstn m rf) (geo_firstn m geo) =
  Ok (map (fun s => fst (col (firstn m (combine rf (sp_phase s))))) (spins geo),
      map (fun s => snd (col (firstn m (combine rf (sp_phase s))))) (spins geo)).
Proof.
  intros Hs. rewrite (blochsim_col _ _ (shapes_match_firstn m rf geo Hs)).
  rewrite phases_firstn, !map_map.
  f_equal; f_equal; apply map_ext; intros s; now rewrite <- combine_firstn.
Qed.

Lemma blochsim_skipn (m : nat) (rf : cvec) (geo : geometry) :
  shapes_match rf geo ->
  blochsim (skipn m rf) (geo_skipn m geo) =
  Ok (map (fun s => fst (col (skipn m (combine rf (sp_phase s))))) (spins geo),
      map (fun s => snd (col (skipn m (combine rf (sp_phase s))))) (spins geo)).
Proof.
  intros Hs. rewrite (blochsim_col _ _ (shapes_match_skipn m rf geo Hs)).
  rewrite phases_skipn, !map_map.
  f_equal; f_equal; apply map_ext; intros s; now rewrite combine_skipn.
Qed.

(** ** The two states [deriv] carries are results of [blochsim] *)

Lemma deriv_iter_on_blochsim (rf : cvec) (geo : geometry) (auxa : option cvec)
  (auxb a b : cvec) (k : nat) :
  shapes_match rf geo -> length auxb = nspins geo ->
  match auxa with None => True | Some ua => length ua = nspins geo end ->
  blochsim rf geo = Ok (a, b) -> (k <= length rf)%nat ->
  deriv_iter rf geo auxa auxb a b k =
  Ok (state_arrays (seq 0 (nspins geo))
        (spin_states (spin_at geo) rf (start_at rf geo) k)
        (drf_iter (seq 0 (nspins geo)) (spin_at geo) (entry auxb)
                  (option_map entry auxa) rf (start_at rf geo) k)).
Proof.
  intros Hs Hub Hua Hab Hk. rewrite (blochsim_start rf geo Hs) in Hab.
  assert (Haf : a = map (fun i => s_af (start_at rf geo i)) (seq 0 (nspins geo)))
    by congruence.
  assert (Hbf : b = map (fun i => s_bf (start_at rf geo i)) (seq 0 (nspins geo)))
    by congruence.
  clear Hab. destruct Hs as [Hn Hwf].
  assert (Hb : auxb = map (entry auxb) (seq 0 (nspins geo)))
    by (symmetry; now apply list_as_map_n).
  assert (Ha : auxa = option_map (fun U => map U (seq 0 (nspins geo)))
                                 (option_map entry auxa)).
  { destruct auxa as [ua|]; simpl; [|reflexivity].
    f_equal. symmetry. now apply list_as_map_n. }
  rewrite <- (deriv_iter_spins (seq 0 (nspins geo)) rf geo (spin_at geo)
                (entry auxb) (option_map entry auxa) Hwf (spins_indexed geo)
                (start_at rf geo) k (start_at_accum rf geo) Hk ltac:(lia)).
  f_equal; (assumption || (symmetry; assumption)).
Qed.

(** After [k] passes of the reverse loop on the result of [blochsim], the
    forward state [(af, bf)] is the result of [blochsim] on the first
    [Nt - k] samples of the pulse and of the gradient: the loop undoes the
    forward pass step by step, down to [(1, 0)] when it ends. *)
Theorem deriv_forward_state_is_prefix (rf : cvec) (geo : geometry)
  (auxa : option cvec) (auxb a b : cvec) (k : nat) :
  shapes_match rf geo -> length auxb = nspins geo ->
  match auxa with None => True | Some ua => length ua = nspins geo end ->
  blochsim rf geo = Ok (a, b) -> (k <= length rf)%nat ->
  exists st,
    deriv_iter rf geo auxa auxb a b k = Ok st /\
    blochsim (firstn (length rf - k) rf) (geo_firstn (length rf - k) geo) =
      Ok (d_af st, d_bf st) /\
    (k = length rf ->
       d_af st = repeat C1 (nspins geo) /\ d_bf st = repeat C0 (nspins geo)).
Proof.
  intros Hs Hub Hua Hab Hk.
  eexists. split; [now apply deriv_iter_on_blochsim|].
  assert (Hst : forall i, In i (seq 0 (nspins geo)) ->
            spin_states (spin_at geo) rf (start_at rf geo) k i =
            unwound (combine rf (sp_phase (spin_at geo i))) k).
  { intros i Hi. unfold spin_states, start_at.
    apply dspin_iter_unwound; auto.
    destruct Hs as [Hn Hwf].
    rewrite (spins_phase_length geo); auto using spin_at_in. }
  assert (Hc : forall i, In i (seq 0 (nspins geo)) ->
            length (combine rf (sp_phase (spin_at geo i))) = length rf).
  { intros i Hi. destruct Hs as [Hn Hwf].
    rewrite length_combine, (spins_phase_length geo); auto using spin_at_in.
    lia. }
  unfold state_arrays. cbn [d_af d_bf]. split.
  - rewrite (blochsim_firstn _ rf geo Hs), (spins_indexed geo), !map_map.
    apply f_equal; apply f_equal2; apply map_ext_in; intros i Hi;
      rewrite (Hst i Hi), col_sym_fwd; unfold unwound; cbn [s_af s_bf];
      now rewrite (Hc i Hi).
  - intros ->. split.
    + transitivity (map (fun _ : nat => C1) (seq 0 (nspins geo)));
        [|now rewrite map_const_repeat, length_seq].
      apply map_ext_in; intros i Hi. rewrite (Hst i Hi).
      unfold unwound; cbn [s_af]. now rewrite (Hc i Hi), Nat.sub_diag.
    + transitivity (map (fun _ : nat => C0) (seq 0 (nspins geo)));
        [|now rewrite map_const_repeat, length_seq].
      apply map_ext_in; intros i Hi. rewrite (Hst i Hi).
      unfold unwound; cbn [s_bf]. now rewrite (Hc i Hi), Nat.sub_diag.
Qed.

(** [deriv_forward_state_is_prefix] on two spins after one of two passes. *)
Lemma deriv_forward_state_is_prefix_witness :
  exists a b st,
    blochsim [Ci; C1] (Geo1 [1; 2] [3; 4]) = Ok (a, b) /\
    deriv_iter [Ci; C1] (Geo1 [1; 2] [3; 4]) None [C1; Ci] a b 1 = Ok st /\
    blochsim [Ci] (Geo1 [1; 2] [3]) = Ok (d_af st, d_bf st).
Proof.
  pose proof (blochsim_start [Ci; C1] (Geo1 [1; 2] [3; 4]) (conj eq_refl I))
    as Hab.
  destruct (deriv_forward_state_is_prefix [Ci; C1] (Geo1 [1; 2] [3; 4]) None
              [C1; Ci] _ _ 1 (conj eq_refl I) eq_refl I Hab (le_S _ _ (le_n 1)))
    as (st & Hst & Hpre & _).
  exists (map (fun i => s_af (start_at [Ci; C1] (Geo1 [1; 2] [3; 4]) i))
              (seq 0 (nspins (Geo1 [1; 2] [3; 4])))),
         (map (fun i => s_bf (start_at [Ci; C1] (Geo1 [1; 2] [3; 4]) i))
              (seq 0 (nspins (Geo1 [1; 2] [3; 4])))),
         st.
  split; [exact Hab | split; [exact Hst | exact Hpre]].
Defined.

(** After [k] passes of the reverse loop, whatever [af] and [bf] hold, the
    backward accumulator [(ar, br)] is the result of [blochsim] on the last
    [k] samples of the pulse and of the gradient. *)
Theorem deriv_accumulator_is_suffix (rf : cvec) (geo : geometry)
  (auxa : option cvec) (auxb af bf : cvec) (k : nat) :
  deriv_shapes rf geo auxa auxb af bf -> nsteps geo = length rf ->
  (k <= length rf)%nat ->
  exists st,
    deriv_iter rf geo auxa auxb af bf k = Ok st /\
    blochsim (skipn (length rf - k) rf) (geo_skipn (length rf - k) geo) =
      Ok (d_ar st, d_br st).
Proof.
  intros Hd Hn Hk.
  eexists. split; [now apply deriv_iter_indexed|].
  destruct Hd as (Hwf & _).
  rewrite (blochsim_skipn _ rf geo (conj Hn Hwf)), (spins_indexed geo), !map_map.
  unfold state_arrays. cbn [d_ar d_br].
  assert (Hacc : forall i, In i (seq 0 (nspins geo)) ->
    (s_ar (deriv_states rf geo af bf k i), s_br (deriv_states rf geo af bf k i)) =
    col (skipn (length rf - k) (combine rf (sp_phase (spin_at geo i))))).
  { intros i Hi. unfold deriv_states, spin_states.
    apply dspin_iter_accum; auto.
    rewrite (spins_phase_length geo); auto using spin_at_in. }
  apply f_equal; apply f_equal2; apply map_ext_in; intros i Hi;
    now rewrite <- (Hacc i Hi).
Qed.

(** [deriv_accumulator_is_suffix] on two spins after one of two passes. *)
Lemma deriv_accumulator_is_suffix_witness :
  exists st,
    deriv_iter [Ci; C1] (Geo1 [1; 2] [3; 4]) None [C1; Ci] [C1; C1] [C0; C0] 1
      = Ok st /\
    blochsim [C1] (Geo1 [1; 2] [4]) = Ok (d_ar st, d_br st).
Proof.
  apply (deriv_accumulator_is_suffix [Ci; C1] (Geo1 [1; 2] [3; 4]) None
           [C1; Ci] [C1; C1] [C0; C0] 1).
  - exact (conj I (conj (le_n 2) (conj eq_refl (conj eq_refl (conj eq_refl I))))).
  - reflexivity.
  - exact (le_S _ _ (le_n 1)).
Defined.

(** ** A pulse split in two *)

Lemma col_split (m : nat) (steps : list (C * R)) :
  col steps = act (col (skipn m steps)) (col (firstn m steps)).
Proof.
  rewrite <- sym_fwd_act, (col_sym_fwd (firstn m steps)), <- sym_fwd_app.
  now rewrite firstn_skipn, col_sym_fwd.
Qed.

Lemma compose_spinors_map {A : Type} (f1 f2 : A -> C * C) (l : list A) :
  compose_spinors (map (fun s => fst (f1 s)) l, map (fun s => snd (f1 s)) l)
                  (map (fun s => fst (f2 s)) l, map (fun s => snd (f2 s)) l) =
  (map (fun s => fst (act (f2 s) (f1 s))) l,
   map (fun s => snd (act (f2 s) (f1 s))) l).
Proof.
  unfold compose_spinors. rewrite !map_map, !map2_map.
  f_equal; apply map_ext; intros s; unfold act;
    destruct (f1 s), (f2 s); reflexivity.
Qed.

(** Splitting the pulse and the gradient at any index, the result of
    [blochsim] on the whole is the product of the results on the two parts:
    [a = a2 a1 - conj(b2) b1], [b = b2 a1 + conj(a2) b1] for every spin. *)
Theorem blochsim_split (m : nat) (rf : cvec) (geo : geometry) :
  shapes_match rf geo ->
  exists ab1 ab2,
    blochsim (firstn m rf) (geo_firstn m geo) = Ok ab1 /\
    blochsim (skipn m rf) (geo_skipn m geo) = Ok ab2 /\
    blochsim rf geo = Ok (compose_spinors ab1 ab2).
Proof.
  intros Hs. eexists _, _.
  split; [apply (blochsim_firstn m rf geo Hs)|].
  split; [apply (blochsim_skipn m rf geo Hs)|].
  rewrite (blochsim_col rf geo Hs), !map_map.
  rewrite (compose_spinors_map
             (fun s => col (firstn m (combine rf (sp_phase s))))
             (fun s => col (skipn m (combine rf (sp_phase s))))).
  apply f_equal; apply f_equal2; apply map_ext; intros s;
    now rewrite <- col_split.
Qed.

(** [blochsim_split] for a pulse of three samples split after the first. *)
Lemma blochsim_split_witness :
  exists ab1 ab2,
    blochsim [Ci] (Geo1 [1; 2] [3]) = Ok ab1 /\
    blochsim [C1; C0] (Geo1 [1; 2] [4; 5]) = Ok ab2 /\
    blochsim [Ci; C1; C0] (Geo1 [1; 2] [3; 4; 5]) = Ok (compose_spinors ab1 ab2).
Proof.
  exact (blochsim_split 1 [Ci; C1; C0] (Geo1 [1; 2] [3; 4; 5]) (conj eq_refl I)).
Defined.

(** ** The entry [drf[t]] and the sample [rf[t]] *)

Lemma firstn_upd {A : Type} (t : nat) (v : A) (l : list A) :
  firstn t (upd t v l) = firstn t l.
Proof.
  revert t; induction l as [|a l IH]; intros [|t]; simpl; try reflexivity.
  now rewrite IH.
Qed.

Lemma skipn_upd {A : Type} (t : nat) (v : A) (l : list A) :
  skipn (S t) (upd t v l) = skipn (S t) l.
Proof.
  revert t; induction l as [|a l IH]; intros [|t]; try reflexivity.
  change (skipn (S t) (upd t v l) = skipn (S t) l). apply IH.
Qed.

Lemma before_upd (rf : cvec) (s : spin) (t : nat) (w : C) :
  before (upd t w rf) s t = before rf s t.
Proof.
  unfold before. now rewrite (combine_upd t w rf (sp_phase s) 0), firstn_upd.
Qed.

Lemma after_upd (rf : cvec) (s : spin) (t : nat) (w : C) :
  after (upd t w rf) s t = after rf s t.
Proof.
  unfold after. now rewrite (combine_upd t w rf (sp_phase s) 0), skipn_upd.
Qed.

Lemma grad_at_upd (rf : cvec) (geo : geometry) (auxa : option cvec)
  (auxb : cvec) (t : nat) (w : C) :
  grad_at (upd t w rf) geo auxa auxb t = grad_at rf geo auxa auxb t.
Proof.
  unfold grad_at.
  assert (Hb : forall U : nat -> C,
    map (fun i => term_b (U i) (before (upd t w rf) (spin_at geo i) t)
                         (after (upd t w rf) (spin_at geo i) t))
        (seq 0 (nspins geo)) =
    map (fun i => term_b (U i) (before rf (spin_at geo i) t)
                         (after rf (spin_at geo i) t))
        (seq 0 (nspins geo))).
  { intros U. apply map_ext; intros i. now rewrite before_upd, after_upd. }
  assert (Ha : forall U : nat -> C,
    map (fun i => term_a (U i) (before (upd t w rf) (spin_at geo i) t)
                         (after (upd t w rf) (spin_at geo i) t))
        (seq 0 (nspins geo)) =
    map (fun i => term_a (U i) (before rf (spin_at geo i) t)
                         (after rf (spin_at geo i) t))
        (seq 0 (nspins geo))).
  { intros U. apply map_ext; intros i. now rewrite before_upd, after_upd. }
  rewrite Hb. destruct (option_map entry auxa) as [U|]; [now rewrite Ha | reflexivity].
Qed.

Lemma deriv_of_blochsim (rf : cvec) (geo : geometry) (auxa : option cvec)
  (auxb : cvec) :
  shapes_match rf geo -> length auxb = nspins geo ->
  match auxa with None => True | Some ua => length ua = nspins geo end ->
  exists a b drf,
    blochsim rf geo = Ok (a, b) /\
    deriv rf geo auxa auxb a b = Ok drf /\
    length drf = length rf /\
    forall t, (t < length rf)%nat -> nth t drf C0 = grad_at rf geo auxa auxb t.
Proof.
  intros Hs Hub Hua.
  eexists _, _, _. split; [apply (blochsim_start rf geo Hs)|].
  split; [apply deriv_on_blochsim; auto; apply (blochsim_start rf geo Hs)|].
  split; [apply length_drf_iter|].
  intros t Ht. now apply deriv_on_blochsim_nth.
Qed.

(** The entry [drf[t]] that [deriv] computes from the result of [blochsim]
    does not depend on the sample [rf[t]] itself: replacing that sample by
    any [w], running [blochsim] again and then [deriv], leaves entry [t]
    as it was. *)
Theorem deriv_entry_ignores_own_sample (rf : cvec) (geo : geometry)
  (auxa : option cvec) (auxb : cvec) (t : nat) (w : C) :
  shapes_match rf geo -> length auxb = nspins geo ->
  match auxa with None => True | Some ua => length ua = nspins geo end ->
  (t < length rf)%nat ->
  exists a b drf a' b' drf',
    blochsim rf geo = Ok (a, b) /\
    deriv rf geo auxa auxb a b = Ok drf /\
    blochsim (upd t w rf) geo = Ok (a', b') /\
    deriv (upd t w rf) geo auxa auxb a' b' = Ok drf' /\
    nth t drf' C0 = nth t drf C0.
Proof.
  intros Hs Hub Hua Ht.
  destruct (deriv_of_blochsim rf geo auxa auxb Hs Hub Hua)
    as (a & b & drf & Hf & Hd & _ & Hg).
  destruct (deriv_of_blochsim (upd t w rf) geo auxa auxb
              (shapes_match_upd rf geo t w Hs) Hub Hua)
    as (a' & b' & drf' & Hf' & Hd' & _ & Hg').
  exists a, b, drf, a', b', drf'. repeat split; auto.
  rewrite Hg' by (now rewrite length_upd). rewrite Hg by assumption.
  apply grad_at_upd.
Qed.

(** [deriv_entry_ignores_own_sample] with the second of two samples
    replaced. *)
Lemma deriv_entry_ignores_own_sample_witness :
  exists a b drf a' b' drf',
    blochsim [Ci; C1] (Geo1 [1; 2] [3; 4]) = Ok (a, b) /\
    deriv [Ci; C1] (Geo1 [1; 2] [3; 4]) None [C1; Ci] a b = Ok drf /\
    blochsim [Ci; RtoC 5] (Geo1 [1; 2] [3; 4]) = Ok (a', b') /\
    deriv [Ci; RtoC 5] (Geo1 [1; 2] [3; 4]) None [C1; Ci] a' b' = Ok drf' /\
    nth 1 drf' C0 = nth 1 drf C0.
Proof.
  exact (deriv_entry_ignores_own_sample [Ci; C1] (Geo1 [1; 2] [3; 4]) None
           [C1; Ci] 1 (RtoC 5) (conj eq_refl I) eq_refl I (le_n 2)).
Defined.

(** ** The exact derivative at a sample on an axis *)

Lemma loss_at_zero_sample (rf : cvec) (geo : geometry) (auxa : option cvec)
  (auxb : cvec) (t : nat) :
  shapes_match rf geo -> (t < length rf)%nat ->
  length auxb = nspins geo ->
  match auxa with None => True | Some ua => length ua = nspins geo end ->
  loss_at rf geo auxa auxb t C0 = loss_part rf geo auxa auxb t (fun f => f).
Proof.
  intros Hs Ht Hub Hua.
  rewrite (loss_along rf geo auxa auxb t C0 (cos (0 / 2)) (sin (0 / 2)) rot_du);
    auto.
  - replace (0 / 2) with 0 by field. rewrite cos_0, sin_0. ring.
  - intros f. apply (rot_real_axis 0).
Qed.

(** For a real sample [rf[t] = x] the loss changes in the real part of the
    sample at the rate [cos(x/2) Re(drf[t]) - sin(x/2) L0 / 2], and for an
    imaginary sample [rf[t] = i y] in the imaginary part at the rate
    [cos(y/2) Im(drf[t]) - sin(y/2) L0 / 2], where [drf] is what [deriv]
    returns on the result of [blochsim] and [L0] is the loss with the sample
    set to zero: [drf[t]] is the derivative to first order in the sample. *)
Theorem loss_derivative_on_axes (rf : cvec) (geo : geometry)
  (auxa : option cvec) (auxb : cvec) (t : nat) :
  shapes_match rf geo -> length auxb = nspins geo ->
  match auxa with None => True | Some ua => length ua = nspins geo end ->
  (t < length rf)%nat ->
  exists a b drf,
    blochsim rf geo = Ok (a, b) /\
    deriv rf geo auxa auxb a b = Ok drf /\
    (forall x, nth t rf C0 = mkC x 0 ->
       dRe (loss_at rf geo auxa auxb t) (nth t rf C0)
           (cos (x / 2) * Re (nth t drf C0)
            - sin (x / 2) * loss_at rf geo auxa auxb t C0 / 2)) /\
    (forall y, nth t rf C0 = mkC 0 y ->
       dIm (loss_at rf geo auxa auxb t) (nth t rf C0)
           (cos (y / 2) * Im (nth t drf C0)
            - sin (y / 2) * loss_at rf geo auxa auxb t C0 / 2)).
Proof.
  intros Hs Hub Hua Ht.
  destruct (deriv_of_blochsim rf geo auxa auxb Hs Hub Hua)
    as (a & b & drf & Hf & Hd & _ & Hg).
  exists a, b, drf. split; [exact Hf | split; [exact Hd|]].
  rewrite (Hg t Ht), (loss_at_zero_sample rf geo auxa auxb t Hs Ht Hub Hua).
  split.
  - intros x ->. unfold dRe. cbn [Re Im]. rewrite grad_at_re.
    apply (derivable_pt_lim_eq _
             (fun u => cos (u / 2) * loss_part rf geo auxa auxb t (fun f => f) +
                       sin (u / 2) * loss_part rf geo auxa auxb t rot_du)).
    + intros u. apply loss_along; auto. intros f. apply rot_real_axis.
    + match goal with
      | |- derivable_pt_lim _ _ ?d =>
          replace d with
            ((- sin (x / 2) * loss_part rf geo auxa auxb t (fun f => f) +
              cos (x / 2) * loss_part rf geo auxa auxb t rot_du) / 2) by field
      end.
      apply cos_sin_half_deriv.
  - intros y ->. unfold dIm. cbn [Re Im]. rewrite grad_at_im.
    apply (derivable_pt_lim_eq _
             (fun v => cos (v / 2) * loss_part rf geo auxa auxb t (fun f => f) +
                       sin (v / 2) * loss_part rf geo auxa auxb t rot_dv)).
    + intros v. apply loss_along; auto. intros f. apply rot_imag_axis.
    + match goal with
      | |- derivable_pt_lim _ _ ?d =>
          replace d with
            ((- sin (y / 2) * loss_part rf geo auxa auxb t (fun f => f) +
              cos (y / 2) * loss_part rf geo auxa auxb t rot_dv) / 2) by field
      end.
      apply cos_sin_half_deriv.
Qed.

(** [loss_derivative_on_axes] at the real sample 3 of a two-sample pulse. *)
Lemma loss_derivative_on_axes_witness :
  exists a b drf,
    blochsim [Ci; RtoC 3] (Geo1 [1; 2] [3; 4]) = Ok (a, b) /\
    deriv [Ci; RtoC 3] (Geo1 [1; 2] [3; 4]) None [C1; Ci] a b = Ok drf /\
    dRe (loss_at [Ci; RtoC 3] (Geo1 [1; 2] [3; 4]) None [C1; Ci] 1) (RtoC 3)
        (cos (3 / 2) * Re (nth 1 drf C0)
         - sin (3 / 2) * loss_at [Ci; RtoC 3] (Geo1 [1; 2] [3; 4]) None [C1; Ci] 1 C0 / 2).
Proof.
  destruct (loss_derivative_on_axes [Ci; RtoC 3] (Geo1 [1; 2] [3; 4]) None
              [C1; Ci] 1 (conj eq_refl I) eq_refl I (le_n 2))
    as (a & b & drf & Hf & Hd & Hre & _).
  exists a, b, drf. split; [exact Hf | split; [exact Hd|]].
  exact (Hre 3 eq_refl).
Defined.

(** ** Rotating and rotating back *)

Lemma rot_inv_rot (w : C) (ab : C * C) : rot w (inv_rot w ab) = ab.
Proof.
  destruct ab as [[ax ay] [bx b_y]]. generalize (rf_CS_unit w).
  unfold inv_rot, rot. generalize (rf_C w) (rf_S w). intros c [sx sy] H.
  csimp. f_equal; apply C_eq; simpl.
  - transitivity (ax * (c * c + (sx * sx + sy * sy))); [ring | rewrite H; ring].
  - transitivity (ay * (c * c + (sx * sx + sy * sy))); [ring | rewrite H; ring].
  - transitivity (bx * (c * c + (sx * sx + sy * sy))); [ring | rewrite H; ring].
  - transitivity (b_y * (c * c + (sx * sx + sy * sy))); [ring | rewrite H; ring].
Qed.

Lemma map_fst_combine {A B : Type} (u : list A) (v : list B) :
  length u = length v -> map fst (combine u v) = u.
Proof.
  revert v; induction u as [|a u IH]; intros [|b v]; simpl; intros H;
    try discriminate; try reflexivity.
  f_equal. apply IH. lia.
Qed.

Lemma strip_rf_combine (w : C) (af bf : cvec) :
  length af = length bf ->
  strip_rf w (af, bf) =
  Ok (map (fun p => fst (inv_rot w p)) (combine af bf),
      map (fun p => snd (inv_rot w p)) (combine af bf)).
Proof.
  intros H.
  rewrite <- (map_fst_combine af bf H) at 1.
  rewrite <- (map_snd_combine af bf H) at 2.
  rewrite strip_rf_map.
  apply f_equal; apply f_equal2; apply map_ext; intros [p q]; reflexivity.
Qed.

(** On arrays of equal length the inverse rotation of [deriv] (lines 73-76)
    undoes the rotation of [blochsim] (lines 23-26) for the same sample, and
    the other way round. *)
Theorem strip_rf_apply_rf (w : C) (a b : cvec) :
  length a = length b ->
  (exists ab', apply_rf w (a, b) = Ok ab' /\ strip_rf w ab' = Ok (a, b)) /\
  (exists ab', strip_rf w (a, b) = Ok ab' /\ apply_rf w ab' = Ok (a, b)).
Proof.
  intros H. split.
  - eexists. split; [now apply apply_rf_combine|].
    rewrite strip_rf_map.
    apply f_equal; apply f_equal2.
    + transitivity (map fst (combine a b)); [|now apply map_fst_combine].
      apply map_ext; intros p.
      now rewrite <- surjective_pairing, inv_rot_rot.
    + transitivity (map snd (combine a b)); [|now apply map_snd_combine].
      apply map_ext; intros p.
      now rewrite <- surjective_pairing, inv_rot_rot.
  - eexists. split; [now apply strip_rf_combine|].
    unfold apply_rf, scal, scalc. rewrite !map_map, !bzip_map.
    cbn [bind]. apply f_equal; apply f_equal2.
    + transitivity (map fst (combine a b)); [|now apply map_fst_combine].
      apply map_ext; intros p.
      change (fst (rot w (fst (inv_rot w p), snd (inv_rot w p))) = fst p).
      now rewrite <- surjective_pairing, rot_inv_rot.
    + transitivity (map snd (combine a b)); [|now apply map_snd_combine].
      apply map_ext; intros p.
      change (snd (rot w (fst (inv_rot w p), snd (inv_rot w p))) = snd p).
      now rewrite <- surjective_pairing, rot_inv_rot.
Qed.

(** [strip_rf_apply_rf] on two spins. *)
Lemma strip_rf_apply_rf_witness :
  exists ab', apply_rf (RtoC 2) ([C1; Ci], [C0; C1]) = Ok ab' /\
              strip_rf (RtoC 2) ab' = Ok ([C1; Ci], [C0; C1]).
Proof.
  exact (proj1 (strip_rf_apply_rf (RtoC 2) [C1; Ci] [C0; C1] eq_refl)).
Defined.

(** ** [deriv] and the length of the gradient *)

(** When the gradient has fewer samples than the pulse, [deriv] fails with
    an [IndexError] whatever its other arguments are: its loop starts at the
    last RF sample and reads [g] there first. *)
Theorem deriv_short_gradient (rf : cvec) (geo : geometry) (auxa : option cvec)
  (auxb af bf : cvec) :
  (nsteps geo < length rf)%nat ->
  deriv_iter rf geo auxa auxb af bf 1 = Err IndexError /\
  deriv rf geo auxa auxb af bf = Err IndexError.
Proof.
  intros Hlt.
  assert (H1 : deriv_iter rf geo auxa auxb af bf 1 = Err IndexError).
  { simpl. unfold deriv_step. now rewrite grad_blip_out by lia. }
  split; [exact H1|]. unfold deriv.
  now rewrite (deriv_iter_err _ _ _ _ _ _ _ 1 (length rf) H1) by lia.
Qed.

(** [deriv_short_gradient] with two RF samples and one gradient sample. *)
Lemma deriv_short_gradient_witness :
  deriv [C0; C1] (Geo1 [1] [2]) None [C1] [C1] [C0] = Err IndexError.
Proof.
  apply (deriv_short_gradient [C0; C1] (Geo1 [1] [2]) None [C1] [C1] [C0]).
  simpl; lia.
Defined.

Lemma index_firstn {A : Type} (n mm : nat) (l : list A) :
  (mm < n)%nat -> index (firstn n l) mm = index l mm.
Proof.
  unfold index. revert mm l. induction n as [|n IH]; intros mm l H; [lia|].
  destruct l as [|a l]; [reflexivity|].
  destruct mm as [|mm]; [reflexivity|]. simpl. apply IH. lia.
Qed.

Lemma grad_blip_firstn (k : C) (n mm : nat) (geo : geometry) :
  (mm < n)%nat -> grad_blip k (geo_firstn n geo) mm = grad_blip k geo mm.
Proof.
  intros H. destruct geo as [x g | x g]; simpl; now rewrite index_firstn.
Qed.

Lemma deriv_iter_firstn (rf : cvec) (geo : geometry) (auxa : option cvec)
  (auxb af bf : cvec) (k : nat) :
  (k <= length rf)%nat ->
  deriv_iter rf (geo_firstn (length rf) geo) auxa auxb af bf k =
  deriv_iter rf geo auxa auxb af bf k.
Proof.
  induction k as [|k IH]; intros Hk; [reflexivity|].
  simpl. rewrite IH by lia.
  destruct (deriv_iter rf geo auxa auxb af bf k) as [st|e]; [|reflexivity].
  cbn [bind]. unfold deriv_step. now rewrite grad_blip_firstn by lia.
Qed.

(** [deriv] never reads the gradient beyond the length of the pulse: cutting
    [g] to its first [len(rf)] samples changes nothing in its result, for
    all arguments. *)
Theorem deriv_ignores_surplus_gradient (rf : cvec) (geo : geometry)
  (auxa : option cvec) (auxb af bf : cvec) :
  deriv rf (geo_firstn (length rf) geo) auxa auxb af bf =
  deriv rf geo auxa auxb af bf.
Proof. unfold deriv. now rewrite deriv_iter_firstn. Qed.

(** ** A real pulse without gradient *)

Lemma nth_all_zero_R (l : list R) (k : nat) :
  Forall (fun r => r = 0) l -> nth k l 0 = 0.
Proof.
  intros H. revert k. induction H as [|r l Hr _ IH]; intros [|k]; simpl; auto.
Qed.

Lemma Rsum_all_zero (l : list R) : Forall (fun r => r = 0) l -> Rsum l = 0.
Proof.
  induction 1 as [|r l Hr _ IH]; simpl; [reflexivity|]. rewrite Hr, IH. ring.
Qed.

Lemma spin_step_real (u A : R) :
  spin_step (RtoC u) 0 (RtoC (cos A), mkC 0 (sin A)) =
  (RtoC (cos (A + u / 2)), mkC 0 (sin (A + u / 2))).
Proof.
  unfold spin_step. change (RtoC u) with (mkC u 0).
  rewrite rot_real_axis. unfold lincomb, rot_du. cbn [fst snd].
  rewrite Cexp_neg_i, Ropp_0, expi_0, cos_plus, sin_plus.
  f_equal; apply C_eq; csimp; ring.
Qed.

Lemma spin_iter_real (us : list R) (s : spin) (k : nat) :
  (forall j, nth j (sp_phase s) 0 = 0) -> (k <= length us)%nat ->
  spin_iter (map RtoC us) s k =
  (RtoC (cos (Rsum (firstn k us) / 2)), mkC 0 (sin (Rsum (firstn k us) / 2))).
Proof.
  intros Hz. induction k as [|k IH]; intros Hk.
  - simpl. replace (0 / 2) with 0 by field. now rewrite cos_0, sin_0.
  - cbn [spin_iter]. rewrite IH by lia.
    change C0 with (RtoC 0). rewrite (map_nth RtoC), Hz, spin_step_real.
    rewrite (firstn_snoc us k 0) by lia. rewrite Rsum_app. simpl.
    replace ((Rsum (firstn k us) + (nth k us 0 + 0)) / 2)
      with (Rsum (firstn k us) / 2 + nth k us 0 / 2) by field.
    reflexivity.
Qed.

(** For a pulse of real samples and a gradient that is zero throughout,
    [blochsim] returns for every spin [a = cos(theta/2)] and
    [b = i sin(theta/2)] with [theta] the sum of the samples: the rotation
    angles add up. *)
Theorem blochsim_real_pulse (us x g : list R) :
  length g = length us -> Forall (fun gt => gt = 0) g ->
  blochsim (map RtoC us) (Geo1 x g) =
  Ok (repeat (RtoC (cos (Rsum us / 2))) (length x),
      repeat (mkC 0 (sin (Rsum us / 2))) (length x)).
Proof.
  intros Hlen Hg.
  rewrite blochsim_spins by (split; [simpl; now rewrite length_map | exact I]).
  cbn [spins]. rewrite !map_map, <- !map_const_repeat.
  assert (Hs : forall xi,
    spin_final (map RtoC us)
      (mkSpin (map (fun gt => xi * gt) g) (xi * Rsum g)) =
    (RtoC (cos (Rsum us / 2)), mkC 0 (sin (Rsum us / 2)))).
  { intros xi. unfold spin_final. rewrite length_map.
    rewrite spin_iter_real; [|intros j; cbn [sp_phase] | lia].
    - rewrite firstn_all. cbn [sp_total].
      rewrite (Rsum_all_zero g Hg), Rmult_0_r, Cexp_half_i.
      replace (0 / 2) with 0 by field. rewrite expi_0.
      now rewrite !Cmul_1_r.
    - destruct (Nat.lt_ge_cases j (length g)) as [Hj | Hj].
      + rewrite (nth_indep _ 0 (xi * 0)) by (now rewrite length_map).
        rewrite (map_nth (fun gt => xi * gt)), (nth_all_zero_R g j Hg). ring.
      + apply nth_overflow. now rewrite length_map. }
  apply f_equal; apply f_equal2; apply map_ext; intros xi; now rewrite Hs.
Qed.

(** [blochsim_real_pulse] for three samples and two spins. *)
Lemma blochsim_real_pulse_witness :
  blochsim (map RtoC [1; 2; -1]) (Geo1 [5; 7] [0; 0; 0]) =
  Ok (repeat (RtoC (cos (Rsum [1; 2; -1] / 2))) 2,
      repeat (mkC 0 (sin (Rsum [1; 2; -1] / 2))) 2).
Proof.
  apply (blochsim_real_pulse [1; 2; -1] [5; 7] [0; 0; 0] eq_refl).
  repeat constructor.
Defined.

(** ** Modulus and angle of a sample *)

Lemma polar_atan (x y : R) :
  x <> 0 ->
  sqrt (x * x + y * y) * cos (atan (y / x)) = Rabs x /\
  sin (atan (y / x)) = y / x * cos (atan (y / x)).
Proof.
  intros Hx. set (t := y / x).
  assert (Hpos : 0 < 1 + t²) by (unfold Rsqr; nra).
  assert (Hs : 0 < sqrt (1 + t²)) by (now apply sqrt_lt_R0).
  split.
  - rewrite cos_atan.
    assert (Hr : sqrt (x * x + y * y) = Rabs x * sqrt (1 + t²)).
    { rewrite <- sqrt_Rsqr_abs, <- sqrt_mult by (unfold Rsqr; nra).
      f_equal. unfold t, Rsqr. field. exact Hx. }
    rewrite Hr. field. lra.
  - rewrite sin_atan, cos_atan. field. lra.
Qed.

Lemma cos_minus_PI (a : R) : cos (a - PI) = - cos a.
Proof. rewrite cos_minus, cos_PI, sin_PI. ring. Qed.

Lemma sin_minus_PI (a : R) : sin (a - PI) = - sin a.
Proof. rewrite sin_minus, cos_PI, sin_PI. ring. Qed.

(** [|w| e^{i arg w} = w] *)
Lemma polar_form (w : C) : (RtoC (Cabs w) * expi (Cangle w))%C = w.
Proof.
  destruct w as [x y]. unfold Cabs, Cnorm2, Cangle, atan2, expi. cbn [Re Im].
  destruct (Rlt_dec 0 x) as [Hpos | Hnpos].
  - destruct (polar_atan x y ltac:(lra)) as [Hc Hs].
    rewrite Rabs_pos_eq in Hc by lra.
    apply C_eq; csimp; [lra|]. rewrite Hs.
    replace (sqrt (x * x + y * y) * (y / x * cos (atan (y / x))) +
             0 * cos (atan (y / x)))
      with (y / x * (sqrt (x * x + y * y) * cos (atan (y / x)))) by ring.
    rewrite Hc. field. lra.
  - destruct (Rlt_dec x 0) as [Hneg | Hnneg].
    + destruct (polar_atan x y ltac:(lra)) as [Hc Hs].
      rewrite Rabs_left in Hc by lra.
      assert (Hy : y / x * (sqrt (x * x + y * y) * cos (atan (y / x))) = - y).
      { rewrite Hc. field. lra. }
      destruct (Rle_dec 0 y) as [Hy0 | Hy0].
      * rewrite neg_cos, neg_sin, Hs. apply C_eq; csimp; nra.
      * rewrite cos_minus_PI, sin_minus_PI, Hs. apply C_eq; csimp; nra.
    + assert (x = 0) by lra. subst x.
      replace (0 * 0 + y * y) with (Rsqr y) by (unfold Rsqr; ring).
      rewrite sqrt_Rsqr_abs.
      destruct (Rlt_dec 0 y) as [Hy | Hy].
      * rewrite cos_PI2, sin_PI2, Rabs_pos_eq by lra. apply C_eq; csimp; ring.
      * destruct (Rlt_dec y 0) as [Hy' | Hy'].
        -- rewrite cos_neg, sin_neg, cos_PI2, sin_PI2, Rabs_left by lra.
           apply C_eq; csimp; ring.
        -- assert (y = 0) by lra. subst y.
           rewrite cos_0, sin_0, Rabs_R0. apply C_eq; csimp; ring.
Qed.

(** The rotation coefficients of a sample [w] (lines 21-22 and 71-72):
    [|w| S = i w sin(|w|/2)], so the axis of the rotation is the direction
    of the sample, and [C^2 + |S|^2 = 1]. *)
Theorem rf_coefficients (w : C) :
  (RtoC (Cabs w) * rf_S w)%C = (Ci * w * RtoC (sin (Cabs w / 2)))%C /\
  rf_C w * rf_C w + Cnorm2 (rf_S w) = 1.
Proof.
  split; [|apply rf_CS_unit].
  unfold rf_S. rewrite Cexp_i.
  transitivity (Ci * (RtoC (Cabs w) * expi (Cangle w)) * RtoC (sin (Cabs w / 2)))%C;
    [|now rewrite polar_form].
  generalize (sin (Cabs w / 2)) (expi (Cangle w)) (Cabs w); intros s e r.
  apply C_eq; csimp; ring.
Qed.

(** ** A constant phase on the pulse *)

Lemma Cabs_phase (alpha : R) (w : C) : Cabs (expi alpha * w) = Cabs w.
Proof.
  unfold Cabs. now rewrite Cnorm2_mul, Cnorm2_expi, Rmult_1_l.
Qed.

Lemma Cabs_zero (w : C) : Cabs w = 0 -> w = C0.
Proof.
  unfold Cabs. intros H. apply sqrt_eq_0 in H; [|apply Cnorm2_nonneg].
  destruct w as [x y]. unfold Cnorm2 in H. simpl in H.
  apply C_eq; simpl; nra.
Qed.

Lemma RtoC_cancel (r : R) (z w : C) :
  r <> 0 -> (RtoC r * z)%C = (RtoC r * w)%C -> z = w.
Proof.
  intros Hr H. destruct z as [zx zy], w as [wx wy].
  injection H as H1 H2.
  apply C_eq; simpl; apply (Rmult_eq_reg_l r); auto; lra.
Qed.

Lemma rf_C_phase (alpha : R) (w : C) : rf_C (expi alpha * w) = rf_C w.
Proof. unfold rf_C. now rewrite Cabs_phase. Qed.

Lemma rf_S_phase (alpha : R) (w : C) :
  rf_S (expi alpha * w) = (expi alpha * rf_S w)%C.
Proof.
  destruct (Req_dec (Cabs w) 0) as [Hz | Hnz].
  - rewrite (Cabs_zero w Hz), Cmul_0_r, rf_S_0. now rewrite Cmul_0_r.
  - unfold rf_S. rewrite !Cexp_i, Cabs_phase.
    assert (He : expi (Cangle (expi alpha * w)) = (expi alpha * expi (Cangle w))%C).
    { apply (RtoC_cancel (Cabs w)); auto.
      rewrite <- (Cabs_phase alpha w) at 1. rewrite polar_form.
      rewrite (Cmul_comm (RtoC (Cabs w))), <- Cmul_assoc.
      now rewrite (Cmul_comm (expi (Cangle w))), polar_form. }
    rewrite He. generalize (expi alpha) (expi (Cangle w)) (sin (Cabs w / 2)).
    intros e1 e2 s. apply C_eq; csimp; ring.
Qed.

Lemma spin_step_phase (alpha : R) (w : C) (phi : R) (ab : C * C) :
  spin_step (expi alpha * w) phi (fst ab, (expi alpha * snd ab)%C) =
  (fst (spin_step w phi ab), (expi alpha * snd (spin_step w phi ab))%C).
Proof.
  destruct ab as [a b]. unfold spin_step, rot.
  rewrite rf_C_phase, rf_S_phase. cbn [fst snd].
  pose proof (Cnorm2_expi alpha) as Hu.
  generalize dependent (expi alpha). intros [ex ey] Hu.
  generalize (rf_C w) (rf_S w) (Cexp (- Ci * RtoC phi)). intros c [sx sy] z.
  unfold Cnorm2 in Hu. simpl in Hu.
  f_equal; apply C_eq; csimp; try ring.
  - transitivity (Re a * c - (ex * ex + ey * ey) * (Re b * sx + Im b * sy));
      [ring | rewrite Hu; ring].
  - transitivity (Im a * c - (ex * ex + ey * ey) * (Im b * sx - Re b * sy));
      [ring | rewrite Hu; ring].
Qed.

Lemma spin_iter_phase (alpha : R) (rf : cvec) (s : spin) (k : nat) :
  (k <= length rf)%nat ->
  spin_iter (map (Cmul (expi alpha)) rf) s k =
  (fst (spin_iter rf s k), (expi alpha * snd (spin_iter rf s k))%C).
Proof.
  induction k as [|k IH]; intros Hk.
  - simpl. f_equal. now rewrite Cmul_0_r.
  - cbn [spin_iter]. rewrite IH by lia.
    rewrite (nth_indep _ C0 (expi alpha * C0)%C) by (rewrite length_map; lia).
    rewrite (map_nth (Cmul (expi alpha))). apply spin_step_phase.
Qed.

(** Multiplying every RF sample by the same phase factor [e^{i alpha}]
    leaves [a] as it is and multiplies [b] by [e^{i alpha}], for every
    spin. *)
Theorem blochsim_pulse_phase (alpha : R) (rf : cvec) (geo : geometry) :
  shapes_match rf geo ->
  exists a b,
    blochsim rf geo = Ok (a, b) /\
    blochsim (map (Cmul (expi alpha)) rf) geo =
      Ok (a, map (Cmul (expi alpha)) b).
Proof.
  intros Hs. eexists _, _. split; [apply (blochsim_spins rf geo Hs)|].
  rewrite blochsim_spins
    by (destruct Hs as [Hn Hwf]; split; [now rewrite length_map | exact Hwf]).
  rewrite map_map.
  apply f_equal; apply f_equal2; apply map_ext; intros s; unfold spin_final;
    rewrite length_map, spin_iter_phase by lia;
    destruct (spin_iter rf s (length rf)) as [a b]; cbn [fst snd];
    [reflexivity | now rewrite Cmul_assoc].
Qed.

(** [blochsim_pulse_phase] for a quarter turn of the phase. *)
Lemma blochsim_pulse_phase_witness :
  exists a b,
    blochsim [C1; Ci] (Geo1 [1; 2] [3; 4]) = Ok (a, b) /\
    blochsim (map (Cmul (expi (PI / 2))) [C1; Ci]) (Geo1 [1; 2] [3; 4]) =
      Ok (a, map (Cmul (expi (PI / 2))) b).
Proof.
  exact (blochsim_pulse_phase (PI / 2) [C1; Ci] (Geo1 [1; 2] [3; 4])
           (conj eq_refl I)).
Defined.

(** ** [drf] as a function of the seed [auxb] *)

Lemma term_b_add (u1 u2 : C) (f r : C * C) :
  term_b (u1 + u2) f r = (term_b u1 f r + term_b u2 f r)%C.
Proof. unfold term_b. apply C_eq; csimp; ring. Qed.

Lemma term_b_scale (c : R) (u : C) (f r : C * C) :
  term_b (RtoC c * u) f r = (RtoC c * term_b u f r)%C.
Proof. unfold term_b. apply C_eq; csimp; ring. Qed.

Lemma Csum_add {A : Type} (h1 h2 : A -> C) (l : list A) :
  Csum (map (fun i => (h1 i + h2 i)%C) l) = (Csum (map h1 l) + Csum (map h2 l))%C.
Proof.
  induction l as [|a l IH]; simpl; [apply C_eq; csimp; ring|].
  rewrite IH. apply C_eq; csimp; ring.
Qed.

Lemma Csum_scale {A : Type} (c : C) (h : A -> C) (l : list A) :
  Csum (map (fun i => (c * h i)%C) l) = (c * Csum (map h l))%C.
Proof.
  induction l as [|a l IH]; simpl; [apply C_eq; csimp; ring|].
  rewrite IH. apply C_eq; csimp; ring.
Qed.

Lemma entry_add (u1 u2 : cvec) (i : nat) :
  length u1 = length u2 ->
  entry (map2 Cadd u1 u2) i = (entry u1 i + entry u2 i)%C.
Proof.
  unfold entry, map2. revert u2 i.
  induction u1 as [|a u1 IH]; intros [|b u2] i H; simpl in H; try discriminate.
  - destruct i; simpl; apply C_eq; csimp; ring.
  - destruct i as [|i]; simpl; [reflexivity|]. apply IH. lia.
Qed.

Lemma entry_scale (c : C) (u : cvec) (i : nat) :
  entry (map (Cmul c) u) i = (c * entry u i)%C.
Proof.
  unfold entry. revert i. induction u as [|a u IH]; intros [|i]; simpl;
    try (apply C_eq; csimp; ring); auto.
Qed.

Lemma upd_add (t : nat) (v1 v2 : C) (l1 l2 : cvec) :
  upd t (v1 + v2)%C (map2 Cadd l1 l2) = map2 Cadd (upd t v1 l1) (upd t v2 l2).
Proof.
  unfold map2. revert t l2.
  induction l1 as [|a l1 IH]; intros [|t] [|b l2]; simpl; try reflexivity.
  now rewrite IH.
Qed.

Lemma upd_scale (t : nat) (c v : C) (l : cvec) :
  upd t (c * v)%C (map (Cmul c) l) = map (Cmul c) (upd t v l).
Proof.
  revert t. induction l as [|a l IH]; intros [|t]; simpl; try reflexivity.
  now rewrite IH.
Qed.

Lemma deriv_drf_add (rf : cvec) (geo : geometry) (u1 u2 af bf : cvec) (k : nat) :
  length u1 = length u2 ->
  deriv_drf rf geo None (map2 Cadd u1 u2) af bf k =
  map2 Cadd (deriv_drf rf geo None u1 af bf k) (deriv_drf rf geo None u2 af bf k).
Proof.
  intros H. unfold deriv_drf. induction k as [|k IH]; cbn [drf_iter option_map].
  - unfold map2. induction (length rf) as [|n IHn]; simpl; [reflexivity|].
    rewrite <- IHn. f_equal. apply C_eq; csimp; ring.
  - cbn [option_map] in IH. rewrite IH, <- upd_add. f_equal.
    unfold pass_total. rewrite <- Csum_add. f_equal.
    apply map_ext; intros i. now rewrite entry_add, term_b_add.
Qed.

Lemma deriv_drf_scale (rf : cvec) (geo : geometry) (c : R) (u af bf : cvec)
  (k : nat) :
  deriv_drf rf geo None (map (Cmul (RtoC c)) u) af bf k =
  map (Cmul (RtoC c)) (deriv_drf rf geo None u af bf k).
Proof.
  unfold deriv_drf. induction k as [|k IH]; cbn [drf_iter option_map].
  - induction (length rf) as [|n IHn]; simpl; [reflexivity|].
    rewrite <- IHn. f_equal. apply C_eq; csimp; ring.
  - cbn [option_map] in IH. rewrite IH, <- upd_scale. f_equal.
    unfold pass_total. rewrite <- Csum_scale. f_equal.
    apply map_ext; intros i. now rewrite entry_scale, term_b_scale.
Qed.

(** Without [auxa], the output of [deriv] is additive in the seed [auxb] and
    commutes with multiplying [auxb] by a real number: the result for
    [u1 + u2] is the sum of the results for [u1] and [u2], and the result
    for [c u] is [c] times the result for [u]. *)
Theorem deriv_linear_in_auxb (rf : cvec) (geo : geometry) (u1 u2 af bf : cvec)
  (c : R) :
  deriv_shapes rf geo None u1 af bf -> length u2 = nspins geo ->
  exists d1 d2,
    deriv rf geo None u1 af bf = Ok d1 /\
    deriv rf geo None u2 af bf = Ok d2 /\
    deriv rf geo None (map2 Cadd u1 u2) af bf = Ok (map2 Cadd d1 d2) /\
    deriv rf geo None (map (Cmul (RtoC c)) u1) af bf = Ok (map (Cmul (RtoC c)) d1).
Proof.
  intros Hs H2. pose proof Hs as (Hwf & Hn & Haf & Hbf & H1 & _).
  exists (deriv_drf rf geo None u1 af bf (length rf)),
         (deriv_drf rf geo None u2 af bf (length rf)).
  split; [now apply deriv_indexed|].
  split; [apply deriv_indexed; repeat split; auto|].
  split.
  - rewrite deriv_indexed.
    + now rewrite deriv_drf_add by congruence.
    + repeat split; auto. rewrite length_map2; congruence.
  - rewrite deriv_indexed.
    + now rewrite deriv_drf_scale.
    + repeat split; auto. now rewrite length_map.
Qed.

(** [deriv_linear_in_auxb] on two spins and two steps. *)
Lemma deriv_linear_in_auxb_witness :
  exists d1 d2,
    deriv [Ci; C1] (Geo1 [1; 2] [3; 4]) None [C1; Ci] [C1; C1] [C0; C0] = Ok d1 /\
    deriv [Ci; C1] (Geo1 [1; 2] [3; 4]) None [Ci; Ci] [C1; C1] [C0; C0] = Ok d2 /\
    deriv [Ci; C1] (Geo1 [1; 2] [3; 4]) None (map2 Cadd [C1; Ci] [Ci; Ci])
          [C1; C1] [C0; C0] = Ok (map2 Cadd d1 d2).
Proof.
  destruct (deriv_linear_in_auxb [Ci; C1] (Geo1 [1; 2] [3; 4]) [C1; Ci] [Ci; Ci]
              [C1; C1] [C0; C0] 1
              (conj I (conj (le_n 2) (conj eq_refl (conj eq_refl (conj eq_refl I)))))
              eq_refl) as (d1 & d2 & H1 & H2 & H3 & _).
  exists d1, d2. repeat split; assumption.
Defined.

(** ** The norm of the forward state in the reverse loop *)

Lemma inv_rot_norm (w : C) (ab : C * C) :
  Cnorm2 (fst (inv_rot w ab)) + Cnorm2 (snd (inv_rot w ab)) =
  Cnorm2 (fst ab) + Cnorm2 (snd ab).
Proof.
  destruct ab as [a b]. generalize (rf_CS_unit w).
  unfold inv_rot. generalize (rf_C w) (rf_S w). intros c s Hcs. simpl.
  transitivity ((Cnorm2 a + Cnorm2 b) * (c * c + Cnorm2 s)).
  - csimp; ring.
  - rewrite Hcs; ring.
Qed.

Lemma half_blip_norm (phi : R) : Cnorm2 (half_blip phi) = 1.
Proof. rewrite half_blip_expi. apply Cnorm2_expi. Qed.

Lemma unwind_norm (w : C) (phi : R) (s : sstate) :
  Cnorm2 (fst (unwind w phi s)) + Cnorm2 (snd (unwind w phi s)) =
  Cnorm2 (s_af s) + Cnorm2 (s_bf s).
Proof.
  unfold unwind. rewrite inv_rot_norm. cbn [fst snd].
  now rewrite !Cnorm2_mul, Cnorm2_conj, half_blip_norm, !Rmult_1_r.
Qed.

Lemma dspin_iter_norm (rf : cvec) (phis : list R) (s0 : sstate) (k : nat) :
  Cnorm2 (s_af (dspin_iter rf phis s0 k)) + Cnorm2 (s_bf (dspin_iter rf phis s0 k))
  = Cnorm2 (s_af s0) + Cnorm2 (s_bf s0).
Proof.
  induction k as [|k IH]; [reflexivity|].
  cbn [dspin_iter]. unfold dspin_step. cbn [s_af s_bf].
  now rewrite unwind_norm.
Qed.

(** With fitting shapes, every pass of the reverse loop keeps
    [|af|^2 + |bf|^2] of every spin at the value it had in the arguments of
    [deriv]. *)
Theorem deriv_forward_norm (rf : cvec) (geo : geometry) (auxa : option cvec)
  (auxb af bf : cvec) (k : nat) :
  deriv_shapes rf geo auxa auxb af bf -> (k <= length rf)%nat ->
  exists st,
    deriv_iter rf geo auxa auxb af bf k = Ok st /\
    length (d_af st) = nspins geo /\ length (d_bf st) = nspins geo /\
    forall i, (i < nspins geo)%nat ->
      Cnorm2 (nth i (d_af st) C0) + Cnorm2 (nth i (d_bf st) C0) =
      Cnorm2 (nth i af C0) + Cnorm2 (nth i bf C0).
Proof.
  intros Hs Hk. eexists. split; [now apply deriv_iter_indexed|].
  unfold state_arrays. cbn [d_af d_bf].
  rewrite !length_map, length_seq. repeat split.
  intros i Hi.
  rewrite (nth_indep _ C0 (s_af (deriv_states rf geo af bf k 0)))
    by (now rewrite length_map, length_seq).
  rewrite (nth_indep (map (fun i0 => s_bf _) _) C0
             (s_bf (deriv_states rf geo af bf k 0)))
    by (now rewrite length_map, length_seq).
  rewrite (map_nth (fun i0 => s_af (deriv_states rf geo af bf k i0))).
  rewrite (map_nth (fun i0 => s_bf (deriv_states rf geo af bf k i0))).
  rewrite seq_nth by assumption. simpl.
  unfold deriv_states, spin_states. now rewrite dspin_iter_norm.
Qed.

(** [deriv_forward_norm] on two spins and two steps. *)
Lemma deriv_forward_norm_witness :
  exists st,
    deriv_iter [Ci; C1] (Geo1 [1; 2] [3; 4]) None [C1; Ci] [C1; Ci] [C0; C1] 2
      = Ok st /\
    Cnorm2 (nth 1 (d_af st) C0) + Cnorm2 (nth 1 (d_bf st) C0) =
    Cnorm2 (nth 1 [C1; Ci] C0) + Cnorm2 (nth 1 [C0; C1] C0).
Proof.
  destruct (deriv_forward_norm [Ci; C1] (Geo1 [1; 2] [3; 4]) None [C1; Ci]
              [C1; Ci] [C0; C1] 2
              (conj I (conj (le_n 2) (conj eq_refl (conj eq_refl (conj eq_refl I)))))
              (le_n 2)) as (st & Hst & _ & _ & Hn).
  exists st. split; [exact Hst | exact (Hn 1%nat (le_n 2))].
Defined.

(** ** The shapes of the results *)





(** ** A half turn on one spin without gradient *)

Lemma half_blip_00 : half_blip (0 * 0) = C1.
Proof. rewrite Rmult_0_l. apply half_blip_0. Qed.

Lemma spin_iter_half_turn (s : spin) :
  nth 0 (sp_phase s) 0 = 0 -> spin_iter [RtoC PI] s 1 = (C0, Ci).
Proof.
  intros Hz. cbn [spin_iter nth]. rewrite Hz. unfold spin_step, rot.
  rewrite rf_C_PI, rf_S_PI, Cexp_neg_i, Ropp_0, expi_0.
  f_equal; apply C_eq; csimp; ring.
Qed.

Lemma raw_half_turn :
  blochsim_raw [RtoC PI] (Geo1 [0] [0]) = Ok ([C0], [Ci]).
Proof.
  unfold blochsim_raw. rewrite blochsim_iter_spins by (simpl; auto).
  cbn [spins map length].
  now rewrite spin_iter_half_turn by (apply Rmult_0_l).
Qed.

Lemma blochsim_half_turn :
  blochsim [RtoC PI] (Geo1 [0] [0]) = Ok ([C0], [Ci]).
Proof.
  rewrite blochsim_spins by (split; [reflexivity | exact I]).
  cbn [spins map]. unfold spin_final. cbn [length sp_total].
  rewrite spin_iter_half_turn by (apply Rmult_0_l).
  rewrite Cexp_half_i, Rmult_0_l. replace (0 / 2) with 0 by field.
  rewrite expi_0. cbn [fst snd]. now rewrite !Cmul_1_r.
Qed.

Lemma deriv_half_turn :
  deriv [RtoC PI] (Geo1 [0] [0]) None [Ci] [C0] [Ci] = Ok [RtoC (1 / 2)].
Proof.
  rewrite deriv_indexed
    by exact (conj I (conj (le_n 1) (conj eq_refl (conj eq_refl (conj eq_refl I))))).
  unfold deriv_drf. cbn [drf_iter length Nat.sub nspins seq upd repeat option_map].
  unfold pass_total. cbn [map Csum nth]. unfold spin_states. cbn [dspin_iter].
  unfold spin_at, init_at, entry. cbn [spins map nth sp_phase].
  rewrite Cadd_0_r. unfold unwind, blipped. cbn [s_af s_bf s_ar s_br].
  rewrite half_blip_00. unfold inv_rot. rewrite rf_C_PI, rf_S_PI.
  unfold term_b. rewrite Ci_half.
  do 2 f_equal. apply C_eq; csimp; field.
Qed.

Lemma loss_part_half_turn :
  loss_part [RtoC PI] (Geo1 [0] [0]) None [Ci] 0 (fun f => f) = 0.
Proof.
  unfold loss_part. cbn [nspins length seq map Rsum].
  unfold before, after, spin_at, entry.
  cbn [spins map nth sp_phase combine firstn skipn sym_fwd fold_left col fold_right].
  rewrite half_blip_00. unfold act, scale2. csimp. ring.
Qed.

Lemma loss_dRe_half_turn :
  dRe (loss_at [RtoC PI] (Geo1 [0] [0]) None [Ci] 0) (RtoC PI) 0.
Proof.
  unfold dRe. cbn [Re Im RtoC].
  apply (derivable_pt_lim_eq _
           (fun u => cos (u / 2) * loss_part [RtoC PI] (Geo1 [0] [0]) None [Ci] 0
                                             (fun f => f) +
                     sin (u / 2) * loss_part [RtoC PI] (Geo1 [0] [0]) None [Ci] 0
                                             rot_du)).
  - intros u. apply loss_along.
    + split; [reflexivity | exact I].
    + simpl; lia.
    + reflexivity.
    + exact I.
    + intros f. apply rot_real_axis.
  - replace 0 with
      ((- sin (PI / 2) * loss_part [RtoC PI] (Geo1 [0] [0]) None [Ci] 0 (fun f => f) +
        cos (PI / 2) * loss_part [RtoC PI] (Geo1 [0] [0]) None [Ci] 0 rot_du) / 2)
      at 1.
    + apply cos_sin_half_deriv.
    + rewrite loss_part_half_turn, cos_PI2. field.
Qed.

(** C1: the code does not return the derivative.  For the one-sample pulse
    [rf = [pi]] on one spin at [x = 0] with [g = [0]] and the seed
    [auxb = [i]], the state of the forward loop before the phase correction
    is [(0, i)] and equals the corrected result; on it [deriv] returns
    [drf = [1/2]], while the loss [sum Re(conj(auxb) b)] has derivative [0]
    in the real part of [rf[0]]: [drf[0]] is not the Wirtinger derivative of
    the loss (nor the derivative itself, nor a non-zero multiple of it). *)
Theorem deriv_not_derivative_at_pi :
  blochsim_raw [RtoC PI] (Geo1 [0] [0]) = Ok ([C0], [Ci]) /\
  blochsim [RtoC PI] (Geo1 [0] [0]) = Ok ([C0], [Ci]) /\
  deriv [RtoC PI] (Geo1 [0] [0]) None [Ci] [C0] [Ci] = Ok [RtoC (1 / 2)] /\
  dRe (loss_at [RtoC PI] (Geo1 [0] [0]) None [Ci] 0) (RtoC PI) 0 /\
  ~ deriv_is_wirtinger [RtoC PI] (Geo1 [0] [0]) None [Ci].
Proof.
  split; [exact raw_half_turn|].
  split; [exact blochsim_half_turn|].
  split; [exact deriv_half_turn|].
  split; [exact loss_dRe_half_turn|].
  intros H. destruct (H [C0] [Ci] raw_half_turn) as (drf & Hd & _ & Hw).
  rewrite deriv_half_turn in Hd. injection Hd as <-.
  destruct (Hw 0%nat (Nat.lt_0_succ 0)) as (du & dv & Hdu & _ & Heq).
  cbn [nth] in Hdu, Heq.
  pose proof (uniqueness_limite _ _ _ _ Hdu loss_dRe_half_turn) as Hu.
  injection Heq as H1 H2. lra.
Qed.
